(** * HydroCODE: the Eulerian GRP time stepper

    A shallow embedding of [GRP_solver_EUL_source]
    (src/finite_volume/GRP_solver_EUL_source.c), the second-order
    Generalized Riemann Problem scheme for the 1-D Euler equations on a
    fixed Eulerian mesh, and the properties of its time step.

    The C code computes on [double].  The stepper is written once, over an
    interface [Real64] of the operations of C arithmetic and <math.h> that
    it uses, and is run at two instances: [binary64], the IEEE 754 doubles
    of the kernel (what the compiled program computes with), and [exactQ],
    rationals extended by infinities and NaN (arithmetic without
    rounding), in which the formulas of the numerical scheme can be
    compared as mathematical expressions. *)

From Stdlib Require Import ZArith List Lia Bool.
From Stdlib Require Import QArith Qcanon.
From Stdlib Require Import Floats.PrimFloat Floats.FloatOps Floats.SpecFloat.
Import ListNotations.

Set Implicit Arguments.
Local Open Scope nat_scope.

(** ** The arithmetic of the stepper *)

Class Real64 (F : Type) : Type := {
  fadd : F -> F -> F;
  fsub : F -> F -> F;
  fmul : F -> F -> F;
  fdiv : F -> F -> F;
  fneg : F -> F;
  flt : F -> F -> bool;          (* a < b *)
  fle : F -> F -> bool;          (* a <= b *)
  c_0 : F;                       (* the literal 0.0 *)
  c_half : F;                    (* the literal 0.5 *)
  c_1 : F;                       (* the literal 1.0 *)
  of_int : Z -> F;               (* (double)k *)
  to_int : F -> Z;               (* (int)x, truncation toward zero *)
  INFINITY : F;
  isfinite : F -> bool;
  isinf : F -> bool;
  sqrt : F -> F;
  fabs : F -> F;
  fmin : F -> F -> F
}.

Declare Scope real64_scope.
Delimit Scope real64_scope with r64.
Infix ".+" := fadd (at level 50, left associativity) : real64_scope.
Infix ".-" := fsub (at level 50, left associativity) : real64_scope.
Infix ".*" := fmul (at level 40, left associativity) : real64_scope.
Infix "./" := fdiv (at level 40, left associativity) : real64_scope.
Infix ".<" := flt (at level 70, no associativity) : real64_scope.
Infix ".<=" := fle (at level 70, no associativity) : real64_scope.
Notation "a .> b" := (flt b a) (at level 70, no associativity) : real64_scope.
Local Open Scope real64_scope.

(** *** IEEE 754 binary64 *)

Module B64.

(** [(int)x]: the integer part of a finite double.  C leaves the
    conversion of a NaN, an infinity or a value outside [int] undefined;
    here the first two give 0 and the value is not wrapped. *)
Definition to_int (x : float) : Z :=
  match Prim2SF x with
  | S754_finite s m e =>
      let v := if (0 <=? e)%Z then (Z.pos m * 2 ^ e)%Z
               else (Z.pos m / 2 ^ (- e))%Z in
      if s then (- v)%Z else v
  | _ => 0%Z
  end.

(** [(double)k], rounded to nearest even. *)
Definition of_int (k : Z) : float :=
  SF2Prim (binary_normalize prec emax k 0 false).

(** [fmin] of <math.h>: a NaN argument is ignored. *)
Definition fmin (a b : float) : float :=
  if is_nan a then b else if is_nan b then a
  else if PrimFloat.ltb b a then b else a.

End B64.

#[export] Instance binary64 : Real64 float := {|
  fadd := PrimFloat.add;
  fsub := PrimFloat.sub;
  fmul := PrimFloat.mul;
  fdiv := PrimFloat.div;
  fneg := PrimFloat.opp;
  flt := PrimFloat.ltb;
  fle := PrimFloat.leb;
  c_0 := 0%float;
  c_half := 0.5%float;
  c_1 := 1%float;
  of_int := B64.of_int;
  to_int := B64.to_int;
  INFINITY := PrimFloat.infinity;
  isfinite := PrimFloat.is_finite;
  isinf := PrimFloat.is_infinity;
  sqrt := PrimFloat.sqrt;
  fabs := PrimFloat.abs;
  fmin := B64.fmin
|}.

(** *** Arithmetic without rounding *)

Module XQ.

(** A rational, an infinity, or not a number. *)
Inductive t : Type :=
| Fin (q : Qc)
| PInf
| NInf
| NaN.

Definition sgn_inf (neg : bool) : t := if neg then NInf else PInf.

Definition is_neg (q : Qc) : bool :=
  match (q ?= 0)%Qc with Lt => true | _ => false end.

Definition is_zero (q : Qc) : bool :=
  match (q ?= 0)%Qc with Eq => true | _ => false end.

Definition add (a b : t) : t :=
  match a, b with
  | NaN, _ | _, NaN => NaN
  | Fin x, Fin y => Fin (x + y)%Qc
  | PInf, NInf | NInf, PInf => NaN
  | PInf, _ | _, PInf => PInf
  | NInf, _ | _, NInf => NInf
  end.

Definition neg (a : t) : t :=
  match a with
  | Fin x => Fin (- x)%Qc
  | PInf => NInf
  | NInf => PInf
  | NaN => NaN
  end.

Definition sub (a b : t) : t := add a (neg b).

Definition mul_inf (neg : bool) (x : Qc) : t :=
  if is_zero x then NaN else sgn_inf (xorb neg (is_neg x)).

Definition mul (a b : t) : t :=
  match a, b with
  | NaN, _ | _, NaN => NaN
  | Fin x, Fin y => Fin (x * y)%Qc
  | PInf, Fin x | Fin x, PInf => mul_inf false x
  | NInf, Fin x | Fin x, NInf => mul_inf true x
  | PInf, PInf | NInf, NInf => PInf
  | PInf, NInf | NInf, PInf => NInf
  end.

Definition div (a b : t) : t :=
  match a, b with
  | NaN, _ | _, NaN => NaN
  | Fin x, Fin y =>
      if is_zero y then (if is_zero x then NaN else sgn_inf (is_neg x))
      else Fin (x / y)%Qc
  | Fin _, _ => Fin 0%Qc
  | PInf, Fin y => sgn_inf (is_neg y)
  | NInf, Fin y => sgn_inf (negb (is_neg y))
  | _, _ => NaN
  end.

Definition ltb (a b : t) : bool :=
  match a, b with
  | NaN, _ | _, NaN => false
  | Fin x, Fin y => match (x ?= y)%Qc with Lt => true | _ => false end
  | Fin _, PInf => true
  | Fin _, NInf => false
  | PInf, _ => false
  | NInf, NInf => false
  | NInf, _ => true
  end.

Definition leb (a b : t) : bool :=
  match a, b with
  | NaN, _ | _, NaN => false
  | Fin x, Fin y => match (x ?= y)%Qc with Gt => false | _ => true end
  | Fin _, PInf => true
  | Fin _, NInf => false
  | PInf, PInf => true
  | PInf, _ => false
  | NInf, _ => true
  end.

Definition isfinite (a : t) : bool :=
  match a with Fin _ => true | _ => false end.

Definition isinf (a : t) : bool :=
  match a with PInf | NInf => true | _ => false end.

Definition abs (a : t) : t :=
  match a with
  | Fin x => Fin (if is_neg x then - x else x)%Qc
  | PInf | NInf => PInf
  | NaN => NaN
  end.

Definition fmin (a b : t) : t :=
  match a, b with
  | NaN, _ => b
  | _, NaN => a
  | _, _ => if ltb b a then b else a
  end.

Definition of_int (k : Z) : t := Fin (Q2Qc (inject_Z k)).

Definition to_int (a : t) : Z :=
  match a with
  | Fin x => Z.quot (Qnum x) (Z.pos (Qden x))
  | _ => 0%Z
  end.

(** The square root is not rational: an instance takes the function
    that stands for <math.h>'s [sqrt] on finite values. *)
Definition sqrt (root : Qc -> Qc) (a : t) : t :=
  match a with
  | Fin x => if is_neg x then NaN else Fin (root x)
  | PInf => PInf
  | _ => NaN
  end.

End XQ.

Definition exactQ (root : Qc -> Qc) : Real64 XQ.t := {|
  fadd := XQ.add;
  fsub := XQ.sub;
  fmul := XQ.mul;
  fdiv := XQ.div;
  fneg := XQ.neg;
  flt := XQ.ltb;
  fle := XQ.leb;
  c_0 := XQ.Fin 0%Qc;
  c_half := XQ.Fin (Q2Qc (1 # 2));
  c_1 := XQ.Fin 1%Qc;
  of_int := XQ.of_int;
  to_int := XQ.to_int;
  INFINITY := XQ.PInf;
  isfinite := XQ.isfinite;
  isinf := XQ.isinf;
  sqrt := XQ.sqrt root;
  fabs := XQ.abs;
  fmin := XQ.fmin
|}.

(** ** Arrays and loops *)

Section Arrays.

Context {A : Type}.

(** [a[j] = v] on an array of fixed length (a write outside the array,
    undefined in C, leaves it as it is). *)
Fixpoint upd (a : list A) (j : nat) (v : A) : list A :=
  match a, j with
  | [], _ => []
  | _ :: t, O => v :: t
  | x :: t, S j' => x :: upd t j' v
  end.

(** [for(j = 0; j < n; ++j) body] on the variables [S] the loop changes. *)
Definition for_loop {S : Type} (n : nat) (body : nat -> S -> S) (s : S) : S :=
  fold_left (fun acc j => body j acc) (seq 0 n) s.

(** The same loop when the body may leave the function ([inl]). *)
Fixpoint for_exit {S X : Type} (js : list nat) (body : nat -> S -> X + S)
    (s : S) : X + S :=
  match js with
  | [] => inr s
  | j :: js' =>
      match body j s with
      | inl x => inl x
      | inr s' => for_exit js' body s'
      end
  end.

End Arrays.

(** ** Data of the stepper *)

(** Where in a time step a check failed. *)
Inductive stage : Type := Reconstruction | STAR | Update.

Section Data.

Context {F : Type}.

(** One row [RHO[i]], [U[i]], [P[i]], [E[i]] of the cell variables. *)
Record row : Type := {
  RHO : list F;
  U : list F;
  P : list F;
  E : list F
}.

(** [struct cell_var_stru]: the stepper keeps [n = 1], so it reads row
    [n-1 = 0] and writes row [n = 1], two arrays apart from each other. *)
Record cell_var_stru : Type := {
  row0 : row;
  row1 : row
}.

(** [s_rho], [s_u], [s_p]: the slopes of the cells. *)
Record slopes : Type := {
  s_rho : list F;
  s_u : list F;
  s_p : list F
}.

(** The values at the interfaces and their temporal derivatives. *)
Record iface : Type := {
  RHO_next : list F;
  U_next : list F;
  P_next : list F;
  RHO_t : list F;
  U_t : list F;
  P_t : list F
}.

(** The numerical fluxes at the interfaces. *)
Record flux : Type := {
  F1 : list F;
  F2 : list F;
  F3 : list F
}.

(** Left and right boundary conditions: values and slopes. *)
Record ghost : Type := {
  UL : F; PL : F; RHOL : F;
  UR : F; PR : F; RHOR : F
}.

Record ghost_slope : Type := {
  SUL : F; SPL : F; SRHOL : F;
  SUR : F; SPR : F; SRHOR : F
}.

(** The lines the stepper prints with [printf] (what [DispPro] displays
    in between is not among them).  [Cpu_time_cost] is the line
    "The cost of CPU time ... is %g seconds.": its number is the sum of
    what [clock] measured, which is no function of the input. *)
Inductive printed : Type :=
| Alpha_is (alpha : F)
| Boundary_conditions (bound : Z)
| No_suitable_boundary
| Below_eps (k : Z) (j : nat) (s : stage)
| Not_finite (k : Z) (j : nat) (s : stage)
| Time_is_up (k : Z)
| Cpu_time_cost.

(** The variables that live across the time steps. *)
Record state : Type := {
  CV : cell_var_stru;
  config : list F;
  sl : slopes;
  ifc : iface;
  fl : flux;
  tau : F;
  time_c : F;
  find_bound : bool;
  gh : ghost;
  gs : ghost_slope;
  out : list printed
}.

(** How one pass through the body of the main loop ends. *)
Inductive outcome : Type :=
| Abort (st : state)     (* goto return_NULL *)
| Break (st : state)     (* break *)
| Next (st : state).     (* on to ++k *)

(** What the interface loop carries. *)
Record solved : Type := {
  a_ifc : iface;
  a_hS : F;            (* h_S_max *)
  a_tc : F;            (* time_c *)
  a_out : list printed
}.

(** What the update loop carries. *)
Record updated : Type := {
  u_row : row;         (* row n of the cell variables *)
  u_sl : slopes;
  u_tc : F;            (* time_c *)
  u_out : list printed
}.

End Data.

Arguments row : clear implicits.
Arguments cell_var_stru : clear implicits.
Arguments slopes : clear implicits.
Arguments iface : clear implicits.
Arguments flux : clear implicits.
Arguments ghost : clear implicits.
Arguments ghost_slope : clear implicits.
Arguments printed : clear implicits.
Arguments state : clear implicits.
Arguments outcome : clear implicits.
Arguments solved : clear implicits.
Arguments updated : clear implicits.

(** ** Shapes

    The driver allocates the cell variables with [m] columns; the stepper
    allocates its slopes with [m] entries and its interface arrays with
    [m+1]. *)

Section Shapes.

Context {F : Type}.

Definition wf_row (m : nat) (r : row F) : Prop :=
  length (RHO r) = m /\ length (U r) = m /\ length (P r) = m
  /\ length (E r) = m.

Definition wf_slopes (m : nat) (s : slopes F) : Prop :=
  length (s_rho s) = m /\ length (s_u s) = m /\ length (s_p s) = m.

Definition wf_iface (m : nat) (i : iface F) : Prop :=
  length (RHO_next i) = S m /\ length (U_next i) = S m
  /\ length (P_next i) = S m /\ length (RHO_t i) = S m
  /\ length (U_t i) = S m /\ length (P_t i) = S m.

Definition wf_flux (m : nat) (f : flux F) : Prop :=
  length (F1 f) = S m /\ length (F2 f) = S m /\ length (F3 f) = S m.

Definition wf_state (m : nat) (st : state F) : Prop :=
  wf_row m (row0 (CV st)) /\ wf_row m (row1 (CV st))
  /\ wf_slopes m (sl st) /\ wf_iface m (ifc st) /\ wf_flux m (fl st).

End Shapes.

(** ** The body of the main loop *)

Section Stepper.

Context {F : Type} {NF : Real64 F}.

Local Notation "a .[ j ]" := (nth j a c_0) (at level 1, left associativity,
  format "a .[ j ]").

(** The slope limiters of tools.h and the linear GRP solver of
    Riemann_solver.h, whose sources are elsewhere.  The solver returns
    [(dire, mid)]: the temporal derivatives and the Riemann solution
    [(rho, u, p)] at the interface. *)
Variable minmod2 : F -> F -> F.
Variable minmod3 : F -> F -> F -> F.
Variable linear_GRP_solver_Edir :
  F -> F -> F -> F ->      (* rho_L rho_R s_rho_L s_rho_R *)
  F -> F -> F -> F ->      (* u_L u_R s_u_L s_u_R *)
  F -> F -> F -> F ->      (* p_L p_R s_p_L s_p_R *)
  F -> F ->                (* gamma eps *)
  (F * F * F) * (F * F * F).

(** [m], and the constants read from [config] on entry. *)
Variable m : nat.
Variables t_all eps gamma CFL h alpha : F.
Variable tau_conf : F.       (* config[16] *)
Variable bound : Z.

(** *** Boundary values (the first [switch (bound)]) *)

Definition announce (find_bound : bool) : list (printed F) :=
  if find_bound then [] else [Boundary_conditions bound].

Definition boundary (find_bound : bool) (r : row F) (g : ghost F)
  : option (ghost F * list (printed F)) :=
  match bound with
  | (-1)%Z =>
      if find_bound then Some (g, [])
      else Some ({| UL := (U r).[0];     UR := (U r).[m-1];
                    PL := (P r).[0];     PR := (P r).[m-1];
                    RHOL := (RHO r).[0]; RHOR := (RHO r).[m-1] |},
                 [Boundary_conditions bound])
  | (-2)%Z =>
      Some ({| UL := fneg (U r).[0]; UR := fneg (U r).[m-1];
               PL := (P r).[0];      PR := (P r).[m-1];
               RHOL := (RHO r).[0];  RHOR := (RHO r).[m-1] |},
            announce find_bound)
  | (-4)%Z =>
      Some ({| UL := (U r).[0];     UR := (U r).[m-1];
               PL := (P r).[0];     PR := (P r).[m-1];
               RHOL := (RHO r).[0]; RHOR := (RHO r).[m-1] |},
            announce find_bound)
  | (-5)%Z =>
      Some ({| UL := (U r).[m-1];     UR := (U r).[0];
               PL := (P r).[m-1];     PR := (P r).[0];
               RHOL := (RHO r).[m-1]; RHOR := (RHO r).[0] |},
            announce find_bound)
  | (-24)%Z =>
      Some ({| UL := fneg (U r).[0]; UR := (U r).[m-1];
               PL := (P r).[0];      PR := (P r).[m-1];
               RHOL := (RHO r).[0];  RHOR := (RHO r).[m-1] |},
            announce find_bound)
  | _ => None
  end.

(** *** Slopes of the cells *)

(** The one-sided difference quotients of a variable [V] at cell [j],
    with the boundary value beyond the first and the last cell. *)
Definition diff_L (V : list F) (VL : F) (j : nat) : F :=
  if (j =? 0)%nat then (V.[j] .- VL) ./ h
  else (V.[j] .- V.[j-1]) ./ h.

Definition diff_R (V : list F) (VR : F) (j : nat) : F :=
  if (j <? m - 1)%nat then (V.[j+1] .- V.[j]) ./ h
  else (VR .- V.[j]) ./ h.

Definition limited (k : Z) (s_L s_R s_old : F) : F :=
  if (k =? 1)%Z then minmod2 s_L s_R
  else minmod3 (alpha .* s_L) (alpha .* s_R) s_old.

Definition slope_body (k : Z) (r : row F) (g : ghost F) (j : nat)
    (s : slopes F) : slopes F :=
  let s_u_L := diff_L (U r) (UL g) j in
  let s_p_L := diff_L (P r) (PL g) j in
  let s_rho_L := diff_L (RHO r) (RHOL g) j in
  let s_u_R := diff_R (U r) (UR g) j in
  let s_p_R := diff_R (P r) (PR g) j in
  let s_rho_R := diff_R (RHO r) (RHOR g) j in
  {| s_u := upd (s_u s) j (limited k s_u_L s_u_R (s_u s).[j]);
     s_p := upd (s_p s) j (limited k s_p_L s_p_R (s_p s).[j]);
     s_rho := upd (s_rho s) j (limited k s_rho_L s_rho_R (s_rho s).[j]) |}.

Definition slope_loop (k : Z) (r : row F) (g : ghost F) (s : slopes F)
  : slopes F :=
  for_loop m (slope_body k r g) s.

(** *** Boundary slopes (the second [switch (bound)]) *)

Definition boundary_slopes (s : slopes F) (b : ghost_slope F) : ghost_slope F :=
  match bound with
  | (-2)%Z =>
      {| SUL := fneg (s_u s).[0]; SUR := fneg (s_u s).[m-1];
         SPL := SPL b; SPR := SPR b; SRHOL := SRHOL b; SRHOR := SRHOR b |}
  | (-5)%Z =>
      {| SUL := (s_u s).[m-1];     SUR := (s_u s).[0];
         SPL := (s_p s).[m-1];     SPR := (s_p s).[0];
         SRHOL := (s_rho s).[m-1]; SRHOR := (s_rho s).[0] |}
  | (-24)%Z =>
      {| SUL := fneg (s_u s).[0]; SUR := SUR b;
         SPL := SPL b; SPR := SPR b; SRHOL := SRHOL b; SRHOR := SRHOR b |}
  | _ => b
  end.

(** *** The interfaces *)

Section Interface.

Variable r : row F.
Variable g : ghost F.
Variable b : ghost_slope F.
Variable s : slopes F.

(** The states on the two sides of interface [j]: [(rho, u, p)]. *)
Definition left_state (j : nat) : F * F * F :=
  if (j =? 0)%nat then
    (RHOL g .+ c_half .* h .* SRHOL b,
     UL g .+ c_half .* h .* SUL b,
     PL g .+ c_half .* h .* SPL b)
  else
    ((RHO r).[j-1] .+ c_half .* h .* (s_rho s).[j-1],
     (U r).[j-1] .+ c_half .* h .* (s_u s).[j-1],
     (P r).[j-1] .+ c_half .* h .* (s_p s).[j-1]).

Definition right_state (j : nat) : F * F * F :=
  if (j <? m)%nat then
    ((RHO r).[j] .- c_half .* h .* (s_rho s).[j],
     (U r).[j] .- c_half .* h .* (s_u s).[j],
     (P r).[j] .- c_half .* h .* (s_p s).[j])
  else
    (RHOR g .+ c_half .* h .* SRHOR b,
     UR g .+ c_half .* h .* SUR b,
     PR g .+ c_half .* h .* SPR b).

(** The slopes on the two sides of interface [j]: [(s_rho, s_u, s_p)]. *)
Definition left_slope (j : nat) : F * F * F :=
  if (j =? 0)%nat then (SRHOL b, SUL b, SPL b)
  else ((s_rho s).[j-1], (s_u s).[j-1], (s_p s).[j-1]).

Definition right_slope (j : nat) : F * F * F :=
  if (j <? m)%nat then ((s_rho s).[j], (s_u s).[j], (s_p s).[j])
  else (SRHOR b, SUR b, SPR b).

(** The two checks on the reconstructed states. *)
Definition recon_below_eps (j : nat) : bool :=
  let '(rho_L, u_L, p_L) := left_state j in
  let '(rho_R, u_R, p_R) := right_state j in
  (p_L .< eps) || (p_R .< eps) || (rho_L .< eps) || (rho_R .< eps).

Definition recon_not_finite (j : nat) : bool :=
  let '(rho_L, u_L, p_L) := left_state j in
  let '(rho_R, u_R, p_R) := right_state j in
  negb (isfinite p_L) || negb (isfinite p_R) || negb (isfinite u_L)
  || negb (isfinite u_R) || negb (isfinite rho_L) || negb (isfinite rho_R).

(** [h / (fabs(u) + fabs(c))] with [c = sqrt(gamma * p / rho)]. *)
Definition h_over_speed (w : F * F * F) : F :=
  let '(rho, u, p) := w in
  let c := sqrt (gamma .* p ./ rho) in
  h ./ (fabs u .+ fabs c).

(** The call of the linear GRP solver at interface [j]. *)
Definition solve (j : nat) : (F * F * F) * (F * F * F) :=
  let '(rho_L, u_L, p_L) := left_state j in
  let '(rho_R, u_R, p_R) := right_state j in
  let '(s_rho_L, s_u_L, s_p_L) := left_slope j in
  let '(s_rho_R, s_u_R, s_p_R) := right_slope j in
  linear_GRP_solver_Edir rho_L rho_R s_rho_L s_rho_R
                         u_L u_R s_u_L s_u_R
                         p_L p_R s_p_L s_p_R gamma eps.

(** The two checks on the solution at the interface, which set
    [time_c = t_all]. *)
Definition star_below_eps (j : nat) : bool :=
  let '(_, (_, _, p_mid)) := solve j in p_mid .< eps.

Definition star_not_finite (j : nat) : bool :=
  let '(_, (_, u_mid, p_mid)) := solve j in
  negb (isfinite u_mid) || negb (isfinite p_mid).

Definition star_checks (k : Z) (j : nat) : list (printed F) :=
  (if star_below_eps j then [Below_eps k j STAR] else [])
  ++ (if star_not_finite j then [Not_finite k j STAR] else []).

Definition interface_body (k : Z) (j : nat) (a : solved F)
  : solved F + solved F :=
  if recon_below_eps j then
    inl {| a_ifc := a_ifc a; a_hS := a_hS a; a_tc := a_tc a;
           a_out := a_out a ++ [Below_eps k j Reconstruction] |}
  else if recon_not_finite j then
    inl {| a_ifc := a_ifc a; a_hS := a_hS a; a_tc := a_tc a;
           a_out := a_out a ++ [Not_finite k j Reconstruction] |}
  else
    let h_S_max := fmin (a_hS a) (h_over_speed (left_state j)) in
    let h_S_max := fmin h_S_max (h_over_speed (right_state j)) in
    let '((d_rho, d_u, d_p), (m_rho, m_u, m_p)) := solve j in
    let failed := star_checks k j in
    let i := a_ifc a in
    inr {| a_ifc := {| RHO_next := upd (RHO_next i) j m_rho;
                       U_next := upd (U_next i) j m_u;
                       P_next := upd (P_next i) j m_p;
                       RHO_t := upd (RHO_t i) j d_rho;
                       U_t := upd (U_t i) j d_u;
                       P_t := upd (P_t i) j d_p |};
           a_hS := h_S_max;
           a_tc := match failed with [] => a_tc a | _ => t_all end;
           a_out := a_out a ++ failed |}.

Definition interface_loop (k : Z) (a : solved F) : solved F + solved F :=
  for_exit (seq 0 (S m)) (interface_body k) a.

(** [h_S_max] after the interfaces [0 .. c-1], from [start]. *)
Definition h_S_max_upto (c : nat) (start : F) : F :=
  fold_left (fun acc j => fmin (fmin acc (h_over_speed (left_state j)))
                               (h_over_speed (right_state j)))
            (seq 0 c) start.

(** What holds after the interfaces [0 .. c-1] have been solved. *)
Definition solved_upto (k : Z) (a : solved F) (c : nat) (a' : solved F) : Prop :=
  wf_iface m (a_ifc a')
  /\ (forall j, j < c -> recon_below_eps j = false /\ recon_not_finite j = false)
  /\ (forall j, j < c ->
        ((RHO_t (a_ifc a')).[j], (U_t (a_ifc a')).[j], (P_t (a_ifc a')).[j],
         ((RHO_next (a_ifc a')).[j], (U_next (a_ifc a')).[j],
          (P_next (a_ifc a')).[j])) = solve j)
  /\ a_hS a' = h_S_max_upto c (a_hS a)
  /\ a_out a' = a_out a ++ flat_map (star_checks k) (seq 0 c)
  /\ a_tc a' = match flat_map (star_checks k) (seq 0 c) with
               | [] => a_tc a
               | _ => t_all
               end.

End Interface.

(** *** The time step *)

Definition time_step (h_S_max time_c tau : F) : F :=
  if isfinite t_all || negb (isfinite tau_conf) || (tau_conf .<= c_0) then
    let tau := CFL .* h_S_max in
    if (time_c .+ tau) .> (t_all .- eps) then t_all .- time_c else tau
  else tau.

(** *** The fluxes *)

Definition flux_body (tau : F) (j : nat) (w : iface F * flux F)
  : iface F * flux F :=
  let '(i, f) := w in
  let rho_h := (RHO_next i).[j] .+ c_half .* tau .* (RHO_t i).[j] in
  let u_h := (U_next i).[j] .+ c_half .* tau .* (U_t i).[j] in
  let p_h := (P_next i).[j] .+ c_half .* tau .* (P_t i).[j] in
  let f1 := rho_h .* u_h in
  let f2 := f1 .* u_h .+ p_h in
  let f3 := (gamma ./ (gamma .- c_1)) .* p_h .+ c_half .* f1 .* u_h in
  let f3 := f3 .* u_h in
  ({| RHO_next := upd (RHO_next i) j (rho_h .+ c_half .* tau .* (RHO_t i).[j]);
      U_next := upd (U_next i) j (u_h .+ c_half .* tau .* (U_t i).[j]);
      P_next := upd (P_next i) j (p_h .+ c_half .* tau .* (P_t i).[j]);
      RHO_t := RHO_t i; U_t := U_t i; P_t := P_t i |},
   {| F1 := upd (F1 f) j f1; F2 := upd (F2 f) j f2; F3 := upd (F3 f) j f3 |}).

Definition flux_loop (tau : F) (w : iface F * flux F) : iface F * flux F :=
  for_loop (S m) (flux_body tau) w.

(** *** The cells (forward Euler) *)

Definition update_below_eps (p rho : F) : bool := (p .< eps) || (rho .< eps).

Definition update_not_finite (p u rho : F) : bool :=
  negb (isfinite p) || negb (isfinite u) || negb (isfinite rho).

(** The new [(rho, u, E, p)] of cell [j]. *)
Definition cell_update (nu : F) (r : row F) (f : flux F) (j : nat)
  : F * F * F * F :=
  let rho := (RHO r).[j] .- nu .* ((F1 f).[j+1] .- (F1 f).[j]) in
  let Mom := (RHO r).[j] .* (U r).[j] .- nu .* ((F2 f).[j+1] .- (F2 f).[j]) in
  let Ene := (RHO r).[j] .* (E r).[j] .- nu .* ((F3 f).[j+1] .- (F3 f).[j]) in
  let u := Mom ./ rho in
  let e := Ene ./ rho in
  let p := (Ene .- c_half .* Mom .* u) .* (gamma .- c_1) in
  (rho, u, e, p).

(** The two checks on the new cell, which set [time_c = t_all]. *)
Definition update_checks (k : Z) (nu : F) (r : row F) (f : flux F) (j : nat)
  : list (printed F) :=
  let '(rho, u, e, p) := cell_update nu r f j in
  (if update_below_eps p rho then [Below_eps k j Update] else [])
  ++ (if update_not_finite p u rho then [Not_finite k j Update] else []).

Definition update_body (k : Z) (nu : F) (r : row F) (i : iface F) (f : flux F)
    (j : nat) (w : updated F) : updated F :=
  let '(rho, u, e, p) := cell_update nu r f j in
  let failed := update_checks k nu r f j in
  {| u_row := {| RHO := upd (RHO (u_row w)) j rho;
                 U := upd (U (u_row w)) j u;
                 E := upd (E (u_row w)) j e;
                 P := upd (P (u_row w)) j p |};
     u_sl := {| s_u := upd (s_u (u_sl w)) j (((U_next i).[j+1] .- (U_next i).[j]) ./ h);
                s_p := upd (s_p (u_sl w)) j (((P_next i).[j+1] .- (P_next i).[j]) ./ h);
                s_rho := upd (s_rho (u_sl w)) j
                           (((RHO_next i).[j+1] .- (RHO_next i).[j]) ./ h) |};
     u_tc := match failed with [] => u_tc w | _ => t_all end;
     u_out := u_out w ++ failed |}.

Definition update_loop (k : Z) (nu : F) (r : row F) (i : iface F) (f : flux F)
    (w : updated F) : updated F :=
  for_loop m (update_body k nu r i f) w.

(** *** Row [n] becomes row [n-1] *)

Definition copy_body (src : row F) (j : nat) (dst : row F) : row F :=
  {| RHO := upd (RHO dst) j (RHO src).[j];
     U := upd (U dst) j (U src).[j];
     E := upd (E dst) j (E src).[j];
     P := upd (P dst) j (P src).[j] |}.

Definition copy_loop (src dst : row F) : row F :=
  for_loop m (copy_body src) dst.

(** *** One pass through the body of the main loop

    [clock()], the [cpu_time] array and the progress display [DispPro]
    play no part in the fluid state and are left out. *)

Definition time_is_up (time_c : F) : bool :=
  (time_c .> (t_all .- eps)) || isinf time_c.

Definition step (k : Z) (st : state F) : outcome F :=
  let r := row0 (CV st) in
  match boundary (find_bound st) r (gh st) with
  | None =>
      Abort {| CV := CV st; config := config st; sl := sl st; ifc := ifc st;
               fl := fl st; tau := tau st; time_c := time_c st;
               find_bound := find_bound st; gh := gh st; gs := gs st;
               out := out st ++ [No_suitable_boundary] |}
  | Some (g, msg) =>
      let s := slope_loop k r g (sl st) in
      let b := boundary_slopes s (gs st) in
      match interface_loop r g b s k
              {| a_ifc := ifc st; a_hS := INFINITY; a_tc := time_c st;
                 a_out := out st ++ msg |} with
      | inl a =>
          Abort {| CV := CV st; config := config st; sl := s; ifc := a_ifc a;
                   fl := fl st; tau := tau st; time_c := a_tc a;
                   find_bound := true; gh := g; gs := b; out := a_out a |}
      | inr a =>
          let tau' := time_step (a_hS a) (a_tc a) (tau st) in
          let nu := tau' ./ h in
          let '(i, f) := flux_loop tau' (a_ifc a, fl st) in
          let w := update_loop k nu r i f
                     {| u_row := row1 (CV st); u_sl := s; u_tc := a_tc a;
                        u_out := a_out a |} in
          let time_c' := u_tc w .+ tau' in
          if time_is_up time_c' then
            Break {| CV := {| row0 := r; row1 := u_row w |};
                     config := upd (config st) 5 (of_int k);
                     sl := u_sl w; ifc := i; fl := f; tau := tau';
                     time_c := time_c'; find_bound := true; gh := g; gs := b;
                     out := u_out w |}
          else
            Next {| CV := {| row0 := copy_loop (u_row w) r; row1 := u_row w |};
                    config := config st;
                    sl := u_sl w; ifc := i; fl := f; tau := tau';
                    time_c := time_c'; find_bound := true; gh := g; gs := b;
                    out := u_out w |}
      end
  end.

(** A pass that reaches the end-of-step time check. *)
Definition completed (k : Z) (st st' : state F) : Prop :=
  step k st = Next st' \/ step k st = Break st'.

(** The call of the solver at interface [j] in the pass from [st] to
    [st']: the cells are row [n-1] of [st], their slopes are limited from
    those [st] holds, the boundary values and slopes are those of the pass,
    which [st'] holds. *)
Definition limited_slopes (k : Z) (st st' : state F) : slopes F :=
  slope_loop k (row0 (CV st)) (gh st') (sl st).

Definition interface_solution (k : Z) (st st' : state F) (j : nat)
  : (F * F * F) * (F * F * F) :=
  solve (row0 (CV st)) (gh st') (gs st') (limited_slopes k st st') j.

(** [h_S_max] of the pass: the running [fmin], from [INFINITY], of
    [h / (fabs(u) + fabs(c))] over the two states of every interface. *)
Definition h_S_max_of (k : Z) (st st' : state F) : F :=
  h_S_max_upto (row0 (CV st)) (gh st') (gs st') (limited_slopes k st st')
               (S m) INFINITY.

(** The lines of the checks on the solutions at the interfaces that fail
    in the pass, and those of the checks on the new cells. *)
Definition star_lines (k : Z) (st st' : state F) : list (printed F) :=
  flat_map (star_checks (row0 (CV st)) (gh st') (gs st')
                        (limited_slopes k st st') k) (seq 0 (S m)).

Definition update_lines (k : Z) (st st' : state F) : list (printed F) :=
  flat_map (update_checks k (tau st' ./ h) (row0 (CV st)) (fl st')) (seq 0 m).

(** [time_c] when the time step is chosen: that of [st], or [t_all] when
    a check on a solution at an interface failed. *)
Definition time_before (k : Z) (st st' : state F) : F :=
  match star_lines k st st' with
  | [] => time_c st
  | _ => t_all
  end.

(** *** The main loop: [for(k = 1; k <= N; ++k)]

    [steps] is the number of steps left, [N - k + 1].  After the loop,
    left by its condition or by [break], the stepper prints the step
    it stopped at and then the cost of CPU time; [goto return_NULL] skips
    both lines. *)

Definition say (e : printed F) (st : state F) : state F :=
  {| CV := CV st; config := config st; sl := sl st; ifc := ifc st;
     fl := fl st; tau := tau st; time_c := time_c st;
     find_bound := find_bound st; gh := gh st; gs := gs st;
     out := out st ++ [e] |}.

(** The two [printf] after the loop. *)
Definition finish (k : Z) (st : state F) : state F :=
  say Cpu_time_cost (say (Time_is_up k) st).

Fixpoint main_loop (steps : nat) (k : Z) (st : state F) : outcome F :=
  match steps with
  | O => Next (finish k st)
  | S steps' =>
      match step k st with
      | Next st' => main_loop steps' (k + 1)%Z st'
      | Break st' => Break (finish k st')
      | Abort st' => Abort st'
      end
  end.

End Stepper.

(** ** The stepper

    [config] is the global array of the configuration; the arrays of the
    slopes are zeroed by [calloc], the other work arrays and the boundary
    values are written before they are read (allocation is taken to
    succeed). *)

Section Entry.

Context {F : Type} {NF : Real64 F}.

Variable minmod2 : F -> F -> F.
Variable minmod3 : F -> F -> F -> F.
Variable linear_GRP_solver_Edir :
  F -> F -> F -> F -> F -> F -> F -> F -> F -> F -> F -> F -> F -> F ->
  (F * F * F) * (F * F * F).

Definition zeros (n : nat) : list F := repeat c_0 n.

Definition initial (m : nat) (cv : cell_var_stru F) (conf : list F) : state F :=
  {| CV := cv; config := conf;
     sl := {| s_rho := zeros m; s_u := zeros m; s_p := zeros m |};
     ifc := {| RHO_next := zeros (S m); U_next := zeros (S m);
               P_next := zeros (S m); RHO_t := zeros (S m);
               U_t := zeros (S m); P_t := zeros (S m) |};
     fl := {| F1 := zeros (S m); F2 := zeros (S m); F3 := zeros (S m) |};
     tau := nth 16 conf c_0;
     time_c := c_0;
     find_bound := false;
     gh := {| UL := c_0; PL := c_0; RHOL := c_0;
              UR := c_0; PR := c_0; RHOR := c_0 |};
     gs := {| SUL := c_0; SPL := c_0; SRHOL := c_0;
              SUR := c_0; SPR := c_0; SRHOR := c_0 |};
     out := [Alpha_is (nth 41 conf c_0)] |}.

Definition GRP_solver_EUL_source (m : nat) (cv : cell_var_stru F)
    (conf : list F) : outcome F :=
  let t_all := nth 1 conf c_0 in
  let eps := nth 4 conf c_0 in
  let N := to_int (nth 5 conf c_0) in
  let gamma := nth 6 conf c_0 in
  let CFL := nth 7 conf c_0 in
  let h := nth 10 conf c_0 in
  let tau_conf := nth 16 conf c_0 in
  let bound := to_int (nth 17 conf c_0) in
  let alpha := nth 41 conf c_0 in
  main_loop minmod2 minmod3 linear_GRP_solver_Edir m
            t_all eps gamma CFL h alpha tau_conf bound
            (Z.to_nat N) 1%Z (initial m cv conf).

End Entry.

(** ** What the specification says of a time step

    The statements of the specification, in its words, for a pass from
    [st] to [st']. *)

Section Statements.

Context {F : Type} {NF : Real64 F}.

Local Notation "a .[ j ]" := (nth j a c_0) (at level 1, left associativity,
  format "a .[ j ]").

(** Forward Euler on the fluxes, with [nu = tau/h]; then [u], [E] and [p]
    from the momentum and the energy (the product in [p] in the order of
    the code). *)
Definition forward_euler_at (gamma h : F) (st st' : state F) (j : nat) : Prop :=
  let nu := tau st' ./ h in
  let old := row0 (CV st) in
  let new := row1 (CV st') in
  let f := fl st' in
  let Mom := (RHO old).[j] .* (U old).[j] .- nu .* ((F2 f).[j+1] .- (F2 f).[j]) in
  let Ene := (RHO old).[j] .* (E old).[j] .- nu .* ((F3 f).[j+1] .- (F3 f).[j]) in
  (RHO new).[j] = (RHO old).[j] .- nu .* ((F1 f).[j+1] .- (F1 f).[j])
  /\ (U new).[j] = Mom ./ (RHO new).[j]
  /\ (E new).[j] = Ene ./ (RHO new).[j]
  /\ (P new).[j] = (Ene .- c_half .* Mom .* (U new).[j]) .* (gamma .- c_1).

(** [p = (gamma - 1) (rho E - 1/2 rho u^2)] at the centre of cell [j]. *)
Definition eos_identity_at (gamma : F) (r : row F) (j : nat) : Prop :=
  (P r).[j]
  = (gamma .- c_1)
    .* ((RHO r).[j] .* (E r).[j]
        .- c_half .* (RHO r).[j] .* ((U r).[j] .* (U r).[j])).

(** The state [(rho, u, p)] half a time step after the solution [mid],
    along its temporal derivative [dire]. *)
Definition half_step (tau : F) (dm : (F * F * F) * (F * F * F)) : F * F * F :=
  let '((d_rho, d_u, d_p), (m_rho, m_u, m_p)) := dm in
  (m_rho .+ c_half .* tau .* d_rho,
   m_u .+ c_half .* tau .* d_u,
   m_p .+ c_half .* tau .* d_p).

(** The fluxes at interface [j] from the half-step state, the energy flux
    as the code factors it. *)
Definition half_step_fluxes_at (gamma : F) (bar : F * F * F) (f : flux F)
    (j : nat) : Prop :=
  let '(rho_bar, u_bar, p_bar) := bar in
  (F1 f).[j] = rho_bar .* u_bar
  /\ (F2 f).[j] = (F1 f).[j] .* u_bar .+ p_bar
  /\ (F3 f).[j]
     = ((gamma ./ (gamma .- c_1)) .* p_bar .+ c_half .* (F1 f).[j] .* u_bar)
       .* u_bar.

(** [F3 = (gamma/(gamma-1)) p u + 1/2 F1 u^2]. *)
Definition energy_flux_at (gamma : F) (bar : F * F * F) (f : flux F)
    (j : nat) : Prop :=
  let '(rho_bar, u_bar, p_bar) := bar in
  (F3 f).[j]
  = (gamma ./ (gamma .- c_1)) .* p_bar .* u_bar
    .+ c_half .* (F1 f).[j] .* (u_bar .* u_bar).

Definition flux_terms_finite (gamma : F) (bar : F * F * F) (f : flux F)
    (j : nat) : Prop :=
  let '(rho_bar, u_bar, p_bar) := bar in
  isfinite (gamma ./ (gamma .- c_1)) = true /\ isfinite p_bar = true
  /\ isfinite u_bar = true /\ isfinite (F1 f).[j] = true.

(** [tau = CFL h_S_max], or what is left to [t_all] when that would pass
    [t_all - eps]. *)
Definition cfl_time_step (t_all eps CFL h_S_max time_c tau' : F) : Prop :=
  tau' = if (time_c .+ CFL .* h_S_max) .> (t_all .- eps)
         then t_all .- time_c
         else CFL .* h_S_max.

(** The slope [new[j]] of a variable [V] is limited from its two
    one-sided difference quotients (with the boundary values [VL] and [VR]
    beyond the ends): by [minmod2] in step 1, and afterwards by [minmod3]
    with the slope [prev[j]] the cell held. *)
Definition minmod_limited_at (minmod2 : F -> F -> F) (minmod3 : F -> F -> F -> F)
    (m : nat) (h alpha : F) (k : Z)
    (V : list F) (VL VR : F) (prev new : list F) (j : nat) : Prop :=
  let s_L := if (j =? 0)%nat then (V.[0] .- VL) ./ h
             else (V.[j] .- V.[j-1]) ./ h in
  let s_R := if (j + 1 =? m)%nat then (VR .- V.[j]) ./ h
             else (V.[j+1] .- V.[j]) ./ h in
  (k = 1%Z -> new.[j] = minmod2 s_L s_R)
  /\ (k <> 1%Z -> new.[j] = minmod3 (alpha .* s_L) (alpha .* s_R) prev.[j]).

(** The state [(rho, u, p)] a whole time step after the solution [mid]:
    the half-step state advanced by another half step. *)
Definition full_step (tau : F) (dm : (F * F * F) * (F * F * F)) : F * F * F :=
  let '((d_rho, d_u, d_p), _) := dm in
  let '(rho_bar, u_bar, p_bar) := half_step tau dm in
  (rho_bar .+ c_half .* tau .* d_rho,
   u_bar .+ c_half .* tau .* d_u,
   p_bar .+ c_half .* tau .* d_p).

(** The slopes of cell [j] are the difference quotients of the states
    [at_iface j] and [at_iface (j+1)] at its two interfaces. *)
Definition slopes_between_at (h : F) (at_iface : nat -> F * F * F)
    (s : slopes F) (j : nat) : Prop :=
  let '(rho0, u0, p0) := at_iface j in
  let '(rho1, u1, p1) := at_iface (j + 1) in
  (s_u s).[j] = (u1 .- u0) ./ h
  /\ (s_p s).[j] = (p1 .- p0) ./ h
  /\ (s_rho s).[j] = (rho1 .- rho0) ./ h.

(** The boundary tags the stepper knows. *)
Definition recognised (bound : Z) : bool :=
  existsb (Z.eqb bound) [-1; -2; -4; -5; -24]%Z.

(** The boundary values [g] and slopes [b] of a pass under the tag [bound],
    from the row [r] of the cells and their slopes [s]; [g_in] and [b_in]
    are those the pass found, [first] says that no pass came before. *)
Definition ghost_rule (bound : Z) (m : nat) (first : bool) (r : row F)
    (s : slopes F) (g_in g : ghost F) (b_in b : ghost_slope F) : Prop :=
  let inner_L := {| UL := (U r).[0]; PL := (P r).[0]; RHOL := (RHO r).[0];
                    UR := (U r).[m-1]; PR := (P r).[m-1];
                    RHOR := (RHO r).[m-1] |} in
  match bound with
  | (-1)%Z =>
      (* frozen at the initial cells *)
      g = (if first then inner_L else g_in) /\ b = b_in
  | (-2)%Z =>
      (* reflective *)
      g = {| UL := fneg (U r).[0]; PL := (P r).[0]; RHOL := (RHO r).[0];
             UR := fneg (U r).[m-1]; PR := (P r).[m-1];
             RHOR := (RHO r).[m-1] |}
      /\ b = {| SUL := fneg (s_u s).[0]; SUR := fneg (s_u s).[m-1];
                SPL := SPL b_in; SPR := SPR b_in;
                SRHOL := SRHOL b_in; SRHOR := SRHOR b_in |}
  | (-4)%Z =>
      (* free *)
      g = inner_L /\ b = b_in
  | (-5)%Z =>
      (* periodic *)
      g = {| UL := (U r).[m-1]; PL := (P r).[m-1]; RHOL := (RHO r).[m-1];
             UR := (U r).[0]; PR := (P r).[0]; RHOR := (RHO r).[0] |}
      /\ b = {| SUL := (s_u s).[m-1]; SPL := (s_p s).[m-1];
                SRHOL := (s_rho s).[m-1];
                SUR := (s_u s).[0]; SPR := (s_p s).[0];
                SRHOR := (s_rho s).[0] |}
  | (-24)%Z =>
      (* reflective on the left, free on the right *)
      g = {| UL := fneg (U r).[0]; PL := (P r).[0]; RHOL := (RHO r).[0];
             UR := (U r).[m-1]; PR := (P r).[m-1]; RHOR := (RHO r).[m-1] |}
      /\ b = {| SUL := fneg (s_u s).[0]; SUR := SUR b_in;
                SPL := SPL b_in; SPR := SPR b_in;
                SRHOL := SRHOL b_in; SRHOR := SRHOR b_in |}
  | _ => False
  end.

(** The boundary slopes the stepper starts from. *)
Definition zero_ghost_slope : ghost_slope F :=
  {| SUL := c_0; SPL := c_0; SRHOL := c_0;
     SUR := c_0; SPR := c_0; SRHOR := c_0 |}.

(** The states on the two sides of interface [j] as the specification
    states them: the left one a half cell right of cell [j-1], the right
    one a half cell left of cell [j], the boundary values standing for
    cells [-1] and [m]. *)
Definition symmetric_left_state (h : F) (r : row F) (g : ghost F)
    (b : ghost_slope F) (s : slopes F) (j : nat) : F * F * F :=
  if (j =? 0)%nat then
    (RHOL g .+ c_half .* h .* SRHOL b, UL g .+ c_half .* h .* SUL b,
     PL g .+ c_half .* h .* SPL b)
  else
    ((RHO r).[j-1] .+ c_half .* h .* (s_rho s).[j-1],
     (U r).[j-1] .+ c_half .* h .* (s_u s).[j-1],
     (P r).[j-1] .+ c_half .* h .* (s_p s).[j-1]).

Definition symmetric_right_state (m : nat) (h : F) (r : row F) (g : ghost F)
    (b : ghost_slope F) (s : slopes F) (j : nat) : F * F * F :=
  if (j =? m)%nat then
    (RHOR g .- c_half .* h .* SRHOR b, UR g .- c_half .* h .* SUR b,
     PR g .- c_half .* h .* SPR b)
  else
    ((RHO r).[j] .- c_half .* h .* (s_rho s).[j],
     (U r).[j] .- c_half .* h .* (s_u s).[j],
     (P r).[j] .- c_half .* h .* (s_p s).[j]).

(** The right state as the stepper forms it: at [j = m] the boundary
    value plus half a cell of the boundary slope. *)
Definition ghost_right_state (m : nat) (h : F) (r : row F) (g : ghost F)
    (b : ghost_slope F) (s : slopes F) (j : nat) : F * F * F :=
  if (j =? m)%nat then
    (RHOR g .+ c_half .* h .* SRHOR b, UR g .+ c_half .* h .* SUR b,
     PR g .+ c_half .* h .* SPR b)
  else
    ((RHO r).[j] .- c_half .* h .* (s_rho s).[j],
     (U r).[j] .- c_half .* h .* (s_u s).[j],
     (P r).[j] .- c_half .* h .* (s_p s).[j]).

(** A density or pressure below [eps], or a value that is not finite. *)
Definition states_below_eps (eps : F) (L R : F * F * F) : bool :=
  let '(rho_L, u_L, p_L) := L in
  let '(rho_R, u_R, p_R) := R in
  (p_L .< eps) || (p_R .< eps) || (rho_L .< eps) || (rho_R .< eps).

Definition states_not_finite (L R : F * F * F) : bool :=
  let '(rho_L, u_L, p_L) := L in
  let '(rho_R, u_R, p_R) := R in
  negb (isfinite p_L) || negb (isfinite p_R) || negb (isfinite u_L)
  || negb (isfinite u_R) || negb (isfinite rho_L) || negb (isfinite rho_R).

(** The three checks of the update on cell [j] of a row. *)
Definition finite_at (r : row F) (j : nat) : Prop :=
  isfinite (P r).[j] = true /\ isfinite (U r).[j] = true
  /\ isfinite (RHO r).[j] = true.

End Statements.

(** ** The slope limiters, and inputs to run the stepper on *)

Section Limiters.

Context {F : Type} {NF : Real64 F}.

(** Modelled from the spec: [minmod2] of tools.h, whose source is not at
    hand.  "minmod2(a, b) = 0 if sign(a) <> sign(b); else
    sign(a) * min(|a|, |b|)". *)
Definition spec_minmod2 (a b : F) : F :=
  if (c_0 .< a) && (c_0 .< b) then fmin a b
  else if (a .< c_0) && (b .< c_0) then fneg (fmin (fabs a) (fabs b))
  else c_0.

(** Modelled from the spec: [minmod3] of tools.h, whose source is not at
    hand.  "minmod3(a, b, c) = 0 if the three signs disagree; else
    sign(a) * min(|a|, |b|, |c|)". *)
Definition spec_minmod3 (a b c : F) : F :=
  if (c_0 .< a) && (c_0 .< b) && (c_0 .< c) then fmin (fmin a b) c
  else if (a .< c_0) && (b .< c_0) && (c .< c_0)
       then fneg (fmin (fmin (fabs a) (fabs b)) (fabs c))
  else c_0.

(** A stand-in for [linear_GRP_solver_Edir], whose source is not at hand,
    to run the stepper on inputs: the mean of the two states as the
    solution at the interface and their difference as its temporal
    derivative. *)
Definition mean_solver
    (rho_L rho_R s_rho_L s_rho_R u_L u_R s_u_L s_u_R
     p_L p_R s_p_L s_p_R gamma eps : F) : (F * F * F) * (F * F * F) :=
  ((rho_L .- rho_R, u_L .- u_R, p_L .- p_R),
   (c_half .* (rho_L .+ rho_R), c_half .* (u_L .+ u_R), c_half .* (p_L .+ p_R))).

(** Another stand-in, which hands back the right state it was given as
    the solution at the interface, with no temporal change. *)
Definition echo_right_solver
    (rho_L rho_R s_rho_L s_rho_R u_L u_R s_u_L s_u_R
     p_L p_R s_p_L s_p_R gamma eps : F) : (F * F * F) * (F * F * F) :=
  ((c_0, c_0, c_0), (rho_R, u_R, p_R)).

(** The entries of [config] the stepper reads (the array has 42 and more). *)
Definition make_config (t_all eps N gamma CFL h tau bound alpha : F) : list F :=
  [c_0; t_all; c_0; c_0; eps; N; gamma; CFL; c_0; c_0; h]
  ++ repeat c_0 5 ++ [tau; bound] ++ repeat c_0 23 ++ [alpha].

(** The state a pass through the loop body ends in. *)
Definition state_of (o : outcome F) : state F :=
  match o with Abort st | Break st | Next st => st end.

End Limiters.

Module Sample.

(** Four cells with periodic boundaries, in binary64. *)
Definition conf : list float :=
  (make_config 0.25 0.0009765625 5 1.5 0.5 0.5 infinity (-5) 1.5)%float.

Definition cells : row float :=
  {| RHO := [2; 2.5; 2; 1.5]; U := [0.5; 0.75; 0.5; 0.25];
     P := [2; 2.5; 2; 1.5]; E := [2.5; 5; 2.5; 1] |}%float.

Definition cv : cell_var_stru float := {| row0 := cells; row1 := cells |}.

Definition st0 : state float := initial 4 cv conf.

Definition step1 : outcome float :=
  step spec_minmod2 spec_minmod3 mean_solver 4
       0.25%float 0.0009765625%float 1.5%float 0.5%float 0.5%float 1.5%float
       infinity (-5)%Z 1%Z st0.

Definition st1 : state float := state_of step1.

(** The first pass when the solver hands back the right states. *)
Definition step1_echo : outcome float :=
  step spec_minmod2 spec_minmod3 echo_right_solver 4
       0.25%float 0.0009765625%float 1.5%float 0.5%float 0.5%float 1.5%float
       infinity (-5)%Z 1%Z st0.


(** The same cells with no total time and a fixed time step. *)
Definition st0_fixed : state float :=
  initial 4 cv
    (make_config infinity 0.0009765625 5 1.5 0.5 0.5 0.03125 (-5) 1.5)%float.

Definition step1_fixed : outcome float :=
  step spec_minmod2 spec_minmod3 mean_solver 4
       infinity 0.0009765625%float 1.5%float 0.5%float 0.5%float 1.5%float
       0.03125%float (-5)%Z 1%Z st0_fixed.


(** Two cells at rest whose sound speed overflows, with free boundaries. *)
Definition conf_stiff : list float :=
  (make_config 0.25 0.0009765625 3 3 0.5 0.5 infinity (-4) 1.5)%float.

Definition cells_stiff : row float :=
  {| RHO := [0.25; 0.25]; U := [0; 0];
     P := [0x1p+1022; 0x1p+1022]; E := [0x1p+1023; 0x1p+1023] |}%float.

Definition cv_stiff : cell_var_stru float :=
  {| row0 := cells_stiff; row1 := cells_stiff |}.

(** The whole run over the four cells. *)
Definition run : outcome float :=
  GRP_solver_EUL_source spec_minmod2 spec_minmod3 mean_solver 4 cv conf.

Definition stiff0 : state float := initial 2 cv_stiff conf_stiff.

Definition stiff_step1 : outcome float :=
  step spec_minmod2 spec_minmod3 mean_solver 2
       0.25%float 0.0009765625%float 3%float 0.5%float 0.5%float 1.5%float
       infinity (-4)%Z 1%Z stiff0.

(** Two cells with periodic boundaries, in arithmetic without rounding. *)
Definition q (n : Z) (d : positive) : XQ.t := XQ.Fin (Q2Qc (n # d)).

(** A square root to three decimals. *)
Definition root (x : Qc) : Qc :=
  Q2Qc (Z.sqrt (Qnum x * Z.pos (Qden x) * 1000000) # (Qden x * 1000)).

Definition xcells : row XQ.t :=
  {| RHO := [q 1 1; q 2 1]; U := [q 0 1; q 1 1]; P := [q 1 1; q 2 1];
     E := [q 2 1; q 5 2] |}.

Definition xst0 : state XQ.t :=
  @initial _ (exactQ root) 2 {| row0 := xcells; row1 := xcells |}
    (@make_config _ (exactQ root) (q 1 4) (q 1 1024) (q 5 1) (q 3 2) (q 1 2)
                  (q 1 2) XQ.PInf (q (-5) 1) (q 3 2)).

Definition xstep1 : outcome XQ.t :=
  @step _ (exactQ root) (@spec_minmod2 _ (exactQ root))
        (@spec_minmod3 _ (exactQ root)) (@mean_solver _ (exactQ root)) 2
        (q 1 4) (q 1 1024) (q 3 2) (q 1 2) (q 1 2) (q 3 2) XQ.PInf (-5)%Z 1%Z xst0.

Definition xst1 : state XQ.t := state_of xstep1.




End Sample.

(** ** Totals over the cells, and the speed of the waves *)

Section Totals.

Context {F : Type} {NF : Real64 F}.

Local Notation "a .[ j ]" := (nth j a c_0) (at level 1, left associativity,
  format "a .[ j ]").

(** The sum of [a j] over the cells [0 .. m-1], added from the left. *)
Definition total (m : nat) (a : nat -> F) : F :=
  for_loop m (fun j acc => acc .+ a j) c_0.

(** The mass, the momentum and the energy per unit of cell width that
    the cells of a row hold. *)
Definition total_mass (m : nat) (r : row F) : F :=
  total m (fun j => (RHO r).[j]).

Definition total_momentum (m : nat) (r : row F) : F :=
  total m (fun j => (RHO r).[j] .* (U r).[j]).

Definition total_energy (m : nat) (r : row F) : F :=
  total m (fun j => (RHO r).[j] .* (E r).[j]).

(** [fabs(u) + fabs(c)] with [c = sqrt(gamma * p / rho)], the divisor in
    [h_over_speed]. *)
Definition wave_speed (gamma : F) (w : F * F * F) : F :=
  let '(rho, u, p) := w in
  fabs u .+ fabs (sqrt (gamma .* p ./ rho)).

End Totals.

(** ** The set-up of the Lagrangian drivers

    What [main] of LAG_source.c computes between reading the input and
    calling the solver: the mass and the energy of the cells and the
    coordinates of their interfaces, from the row [RHO[0]], [U[0]],
    [P[0]] of the input.  The arrays come from [malloc]; the loops write
    every entry of theirs. *)

Section Drivers.

Context {F : Type} {NF : Real64 F}.

Local Notation "a .[ j ]" := (nth j a c_0) (at level 1, left associativity,
  format "a .[ j ]").

(** [for(k = 0; k < m; ++k) MASS[k] = h * RHO[0][k];] *)
Definition initial_mass (m : nat) (h : F) (RHO0 : list F) : list F :=
  for_loop m (fun k MASS => upd MASS k (h .* RHO0.[k])) (zeros m).

(** [for(k = 0; k < m; ++k)
      E[0][k] = 0.5*U[0][k]*U[0][k] + P[0][k]/(gamma - 1.0)/RHO[0][k];] *)
Definition initial_energy (m : nat) (gamma : F) (RHO0 U0 P0 : list F)
  : list F :=
  for_loop m
    (fun k E0 =>
       upd E0 k (c_half .* U0.[k] .* U0.[k]
                 .+ P0.[k] ./ (gamma .- c_1) ./ RHO0.[k]))
    (zeros m).

(** [for(k = 0; k <= m; ++k) X[0][k] = h * k;] *)
Definition initial_mesh (m : nat) (h : F) : list F :=
  for_loop (S m) (fun k X0 => upd X0 k (h .* of_int (Z.of_nat k)))
           (zeros (S m)).

End Drivers.

(** ** The set-up of the two-dimensional driver

    What [main] of hydrocode.c does with the input once the arrays are
    allocated: the flat arrays [FV0.RHO], [FV0.U], [FV0.V] and [FV0.P],
    whose first two entries hold [n_y] and [n_x], are laid out as
    [CV[0].RHO[j][i]] and so on, [n_x] rows of [n_y] entries, and the
    energy of every cell is computed. *)

Module TwoD.

Section Load.

Context {F : Type} {NF : Real64 F}.

Local Notation "a .[ j ]" := (nth j a c_0) (at level 1, left associativity,
  format "a .[ j ]").

(** [struct flu_var]: the flat arrays of the input. *)
Record flu_var : Type := {
  FV_RHO : list F;
  FV_U : list F;
  FV_V : list F;
  FV_P : list F
}.

(** [struct cell_var_stru] of the two-dimensional code: [double **]
    arrays, read as [v[j][i]]. *)
Record cell_var_stru : Type := {
  RHO : list (list F);
  U : list (list F);
  V : list (list F);
  P : list (list F);
  E : list (list F)
}.

(** [a[j][i]], and [a[j][i] = v] on rows of fixed length. *)
Definition get (a : list (list F)) (j i : nat) : F := (nth j a []).[i].

Definition set (a : list (list F)) (j i : nat) (v : F) : list (list F) :=
  upd a j (upd (nth j a []) i v).

(** [i*n_x + j + 2], in [int] arithmetic that does not overflow. *)
Definition flat_index (n_x j i : nat) : nat := i * n_x + j + 2.

(** The body of the two loops:
    [CV[0].RHO[j][i] = FV0.RHO[i*n_x + j + 2]], the same for [U], [V] and
    [P], then
    [CV[0].E[j][i] = 0.5*U*U + P/(gamma - 1.0)/RHO] and
    [CV[0].E[j][i] += 0.5*V*V], on the entries just written. *)
Definition load_body (n_x : nat) (gamma : F) (FV0 : flu_var) (j i : nat)
    (cv : cell_var_stru) : cell_var_stru :=
  let rho := set (RHO cv) j i (FV_RHO FV0).[flat_index n_x j i] in
  let u := set (U cv) j i (FV_U FV0).[flat_index n_x j i] in
  let v := set (V cv) j i (FV_V FV0).[flat_index n_x j i] in
  let p := set (P cv) j i (FV_P FV0).[flat_index n_x j i] in
  let e := set (E cv) j i
               (c_half .* get u j i .* get u j i
                .+ get p j i ./ (gamma .- c_1) ./ get rho j i) in
  let e' := set e j i (get e j i .+ c_half .* get v j i .* get v j i) in
  {| RHO := rho; U := u; V := v; P := p; E := e' |}.

(** [for(j = 0; j < n_x; ++j) for(i = 0; i < n_y; ++i) ...] *)
Definition load (n_x n_y : nat) (gamma : F) (FV0 : flu_var)
    (cv : cell_var_stru) : cell_var_stru :=
  for_loop n_x
    (fun j cv => for_loop n_y (fun i cv => load_body n_x gamma FV0 j i cv) cv)
    cv.

(** [n_x] rows of [n_y] entries, as [CV_INIT_MEM] allocates them. *)
Definition wf_array (n_x n_y : nat) (a : list (list F)) : Prop :=
  length a = n_x /\ forall j, j < n_x -> length (nth j a []) = n_y.

Definition wf (n_x n_y : nat) (cv : cell_var_stru) : Prop :=
  wf_array n_x n_y (RHO cv) /\ wf_array n_x n_y (U cv)
  /\ wf_array n_x n_y (V cv) /\ wf_array n_x n_y (P cv)
  /\ wf_array n_x n_y (E cv).

(** Cell [(j, i)] holds its entry of the input and the energy of it. *)
Definition loaded (n_x : nat) (gamma : F) (FV0 : flu_var)
    (cv : cell_var_stru) (j i : nat) : Prop :=
  let k := flat_index n_x j i in
  get (RHO cv) j i = (FV_RHO FV0).[k]
  /\ get (U cv) j i = (FV_U FV0).[k]
  /\ get (V cv) j i = (FV_V FV0).[k]
  /\ get (P cv) j i = (FV_P FV0).[k]
  /\ get (E cv) j i
     = c_half .* (FV_U FV0).[k] .* (FV_U FV0).[k]
       .+ (FV_P FV0).[k] ./ (gamma .- c_1) ./ (FV_RHO FV0).[k]
       .+ c_half .* (FV_V FV0).[k] .* (FV_V FV0).[k].

End Load.

Arguments flu_var : clear implicits.
Arguments cell_var_stru : clear implicits.

End TwoD.

(** Runs in binary64 over the four cells of [Sample]. *)
Module Runs.

(** Two steps with the boundary values frozen (tag -1). *)
Definition conf_frozen : list float :=
  (make_config 0.25 0.0009765625 2 1.5 0.5 0.5 infinity (-1) 1.5)%float.

(** Three steps of 0.03125 with no total time. *)
Definition conf_fixed : list float :=
  (make_config infinity 0.0009765625 3 1.5 0.5 0.5 0.03125 (-5) 1.5)%float.

(** No step at all. *)
Definition conf_idle : list float :=
  (make_config 0.25 0.0009765625 0 1.5 0.5 0.5 infinity (-5) 1.5)%float.





(** The slopes of the first pass over the two cells of [Sample.xcells],
    and the left state at its interface 1. *)
Definition xslopes : slopes XQ.t :=
  @limited_slopes _ (exactQ Sample.root)
    (@spec_minmod2 _ (exactQ Sample.root))
    (@spec_minmod3 _ (exactQ Sample.root)) 2 (Sample.q 1 2) (Sample.q 3 2)
    1%Z Sample.xst0 Sample.xst1.

Definition xleft1 : XQ.t * XQ.t * XQ.t :=
  @left_state _ (exactQ Sample.root) (Sample.q 1 2) (row0 (CV Sample.xst0))
    (gh Sample.xst1) (gs Sample.xst1) xslopes 1.

(** A grid of two by two cells, and its input: [n_y], [n_x], then the
    values line by line. *)
Definition fv0 : TwoD.flu_var float :=
  {| TwoD.FV_RHO := [2; 2; 1; 2; 3; 4];
     TwoD.FV_U := [2; 2; 0.5; 0.25; 0; 1];
     TwoD.FV_V := [2; 2; 0; 1; 0.5; 0.25];
     TwoD.FV_P := [2; 2; 1; 1.5; 2; 2.5] |}%float.

Definition cv0_2D : TwoD.cell_var_stru float :=
  let z := [[0; 0]; [0; 0]]%float in
  {| TwoD.RHO := z; TwoD.U := z; TwoD.V := z; TwoD.P := z; TwoD.E := z |}.

(** The same input in arithmetic without rounding. *)
Definition xfv0 : TwoD.flu_var XQ.t :=
  {| TwoD.FV_RHO := map (fun n => Sample.q n 1) [2; 2; 1; 2; 3; 4]%Z;
     TwoD.FV_U := map (fun n => Sample.q n 4) [8; 8; 2; 1; 0; 4]%Z;
     TwoD.FV_V := map (fun n => Sample.q n 4) [8; 8; 0; 4; 2; 1]%Z;
     TwoD.FV_P := map (fun n => Sample.q n 2) [4; 4; 2; 3; 4; 5]%Z |}.

Definition xcv0_2D : TwoD.cell_var_stru XQ.t :=
  let z := [[Sample.q 0 1; Sample.q 0 1]; [Sample.q 0 1; Sample.q 0 1]] in
  {| TwoD.RHO := z; TwoD.U := z; TwoD.V := z; TwoD.P := z; TwoD.E := z |}.

Definition xloaded : TwoD.cell_var_stru XQ.t :=
  @TwoD.load _ (exactQ Sample.root) 2 2 (Sample.q 3 2) xfv0 xcv0_2D.

End Runs.

(** * Properties *)

(** ** Arrays and loops *)

Section ArrayFacts.

Context {A : Type}.

Lemma length_upd (a : list A) (j : nat) (v : A) :
  length (upd a j v) = length a.
Proof.
  revert j; induction a as [|x t IH]; intros [|j]; simpl; auto.
Qed.

Lemma nth_upd_same (a : list A) (j : nat) (v d : A) :
  j < length a -> nth j (upd a j v) d = v.
Proof.
  revert j; induction a as [|x t IH]; intros [|j] Hj; simpl in *;
    try lia; auto.
  apply IH; lia.
Qed.

Lemma nth_upd_other (a : list A) (i j : nat) (v d : A) :
  i <> j -> nth i (upd a j v) d = nth i a d.
Proof.
  revert i j; induction a as [|x t IH]; intros [|i] [|j] Hij; simpl;
    auto; try congruence.
Qed.

Lemma nth_upd (a : list A) (i j : nat) (v d : A) :
  j < length a ->
  nth i (upd a j v) d = if (i =? j)%nat then v else nth i a d.
Proof.
  intros Hj. destruct (Nat.eqb_spec i j) as [->|Hne].
  - now apply nth_upd_same.
  - now apply nth_upd_other.
Qed.

Lemma for_loop_S {S : Type} (n : nat) (body : nat -> S -> S) (s : S) :
  for_loop (Datatypes.S n) body s = body n (for_loop n body s).
Proof.
  unfold for_loop. rewrite seq_S, fold_left_app. reflexivity.
Qed.

(** A loop invariant, indexed by the number of passes made. *)
Lemma for_loop_invariant {S : Type} (Inv : nat -> S -> Prop)
    (n : nat) (body : nat -> S -> S) (s : S) :
  Inv 0 s ->
  (forall j x, j < n -> Inv j x -> Inv (Datatypes.S j) (body j x)) ->
  Inv n (for_loop n body s).
Proof.
  intros H0 Hstep.
  assert (forall i, i <= n -> Inv i (for_loop i body s)) as H.
  { induction i as [|i IH]; intros Hi; [exact H0|].
    rewrite for_loop_S. apply Hstep; [lia|]. apply IH; lia. }
  apply H; lia.
Qed.

(** A loop whose pass [j] touches the entries of index [j] only:
    [view x i] gathers the entries of index [i]; [Keep] is what the
    loop leaves alone (lengths, arrays it only reads). *)
Lemma for_loop_local {S T : Type} (Keep : S -> Prop) (view : S -> nat -> T)
    (f : nat -> T -> T) (n : nat) (body : nat -> S -> S) (s : S) :
  Keep s ->
  (forall j x, j < n -> Keep x -> Keep (body j x)) ->
  (forall j x i, j < n -> Keep x ->
     view (body j x) i = if (i =? j)%nat then f j (view x j) else view x i) ->
  Keep (for_loop n body s) /\
  forall i, view (for_loop n body s) i
            = if (i <? n)%nat then f i (view s i) else view s i.
Proof.
  intros Hk Hkeep Hview.
  apply (for_loop_invariant
           (fun c x => Keep x /\
              forall i, view x i = if (i <? c)%nat then f i (view s i)
                                   else view s i)).
  - split; [exact Hk|]. intros i. reflexivity.
  - intros j x Hj [Hx Hv]. split; [now apply Hkeep|].
    intros i. rewrite Hview by assumption.
    destruct (Nat.eqb_spec i j) as [->|Hne].
    + rewrite Hv, Nat.ltb_irrefl.
      replace (j <? Datatypes.S j)%nat with true
        by (symmetry; apply Nat.ltb_lt; lia).
      reflexivity.
    + rewrite Hv.
      destruct (Nat.ltb_spec i j), (Nat.ltb_spec i (Datatypes.S j));
        try reflexivity; lia.
Qed.

Lemma for_exit_app {S X : Type} (js js' : list nat)
    (body : nat -> S -> X + S) (s : S) :
  for_exit (js ++ js') body s
  = match for_exit js body s with
    | inl x => inl x
    | inr s' => for_exit js' body s'
    end.
Proof.
  revert s; induction js as [|j js IH]; intros s; simpl; [reflexivity|].
  destruct (body j s); [reflexivity|apply IH].
Qed.

(** The invariant of a loop that may be left early. *)
Lemma for_exit_invariant {S X : Type} (Inv : nat -> S -> Prop)
    (n : nat) (body : nat -> S -> X + S) (s : S) :
  Inv 0 s ->
  (forall j x x', j < n -> Inv j x -> body j x = inr x' ->
                  Inv (Datatypes.S j) x') ->
  match for_exit (seq 0 n) body s with
  | inl e => exists j x, j < n /\ Inv j x /\ body j x = inl e
  | inr x' => Inv n x'
  end.
Proof.
  intros H0. induction n as [|n IH]; intros Hstep; [exact H0|].
  rewrite seq_S, for_exit_app.
  assert (forall j x x', j < n -> Inv j x -> body j x = inr x' ->
                         Inv (Datatypes.S j) x') as Hstep'
      by (intros j x x' Hj; apply Hstep; lia).
  specialize (IH Hstep').
  destruct (for_exit (seq 0 n) body s) as [e|x].
  - destruct IH as (j & x & Hj & Hx & He).
    exists j, x. repeat split; try assumption; lia.
  - simpl. destruct (body n x) as [e|x'] eqn:Hb.
    + exists n, x. repeat split; try assumption; lia.
    + apply (Hstep n x x'); auto.
Qed.

End ArrayFacts.

(** ** The loops of a time step *)

Section LoopFacts.

Context {F : Type} {NF : Real64 F}.

Local Notation "a .[ j ]" := (nth j a c_0) (at level 1, left associativity,
  format "a .[ j ]").

Variable minmod2 : F -> F -> F.
Variable minmod3 : F -> F -> F -> F.
Variable linear_GRP_solver_Edir :
  F -> F -> F -> F -> F -> F -> F -> F -> F -> F -> F -> F -> F -> F ->
  (F * F * F) * (F * F * F).
Variable m : nat.
Variables t_all eps gamma CFL h alpha tau_conf : F.
Variable bound : Z.

Local Abbreviation limited := (limited minmod2 minmod3 alpha).
Local Abbreviation slope_loop := (slope_loop minmod2 minmod3 m h alpha).
Local Abbreviation slope_body := (slope_body minmod2 minmod3 m h alpha).
Local Abbreviation flux_loop := (flux_loop m gamma).
Local Abbreviation flux_body := (flux_body gamma).
Local Abbreviation cell_update := (cell_update gamma).
Local Abbreviation update_checks := (update_checks eps gamma).
Local Abbreviation update_loop := (update_loop m t_all eps gamma h).
Local Abbreviation update_body := (update_body t_all eps gamma h).
Local Abbreviation copy_loop := (copy_loop m).

Ltac lengths :=
  repeat match goal with
         | H : wf_row _ _ |- _ => destruct H as (? & ? & ? & ?)
         | H : wf_slopes _ _ |- _ => destruct H as (? & ? & ?)
         | H : wf_iface _ _ |- _ => destruct H as (? & ? & ? & ? & ? & ?)
         | H : wf_flux _ _ |- _ => destruct H as (? & ? & ?)
         end;
  unfold wf_row, wf_slopes, wf_iface, wf_flux; simpl;
  rewrite ?length_upd; repeat split; try assumption; try lia.

(** The slope loop limits each cell once, from the slope it held. *)
Lemma slope_loop_spec (k : Z) (r : row F) (g : ghost F) (s : slopes F) :
  wf_slopes m s ->
  wf_slopes m (slope_loop k r g s) /\
  forall j, j < m ->
    (s_u (slope_loop k r g s)).[j]
      = limited k (diff_L h (U r) (UL g) j) (diff_R m h (U r) (UR g) j) (s_u s).[j]
    /\ (s_p (slope_loop k r g s)).[j]
      = limited k (diff_L h (P r) (PL g) j) (diff_R m h (P r) (PR g) j) (s_p s).[j]
    /\ (s_rho (slope_loop k r g s)).[j]
      = limited k (diff_L h (RHO r) (RHOL g) j) (diff_R m h (RHO r) (RHOR g) j)
                (s_rho s).[j].
Proof.
  intros Hs.
  destruct (@for_loop_local _ _ (wf_slopes m)
              (fun x i => ((s_u x).[i], (s_p x).[i], (s_rho x).[i]))
              (fun j t =>
                 (limited k (diff_L h (U r) (UL g) j) (diff_R m h (U r) (UR g) j)
                          (fst (fst t)),
                  limited k (diff_L h (P r) (PL g) j) (diff_R m h (P r) (PR g) j)
                          (snd (fst t)),
                  limited k (diff_L h (RHO r) (RHOL g) j)
                          (diff_R m h (RHO r) (RHOR g) j) (snd t)))
              m (slope_body k r g) s) as [Hwf Hv].
  - exact Hs.
  - intros j x Hj Hx. lengths.
  - intros j x i Hj Hx. destruct Hx as (Hr & Hu & Hp). simpl.
    rewrite !nth_upd by lia. destruct (i =? j); reflexivity.
  - split; [exact Hwf|]. intros j Hj. specialize (Hv j).
    unfold slope_loop.
    replace (j <? m) with true in Hv by (symmetry; apply Nat.ltb_lt; lia).
    simpl in Hv. inversion Hv. auto.
Qed.

(** The flux loop: at interface [j] the values are advanced by half a
    time step, the fluxes are formed, and the values are advanced by
    the other half. *)
Lemma flux_loop_spec (tau : F) (i : iface F) (f : flux F) :
  wf_iface m i -> wf_flux m f ->
  let w := flux_loop tau (i, f) in
  wf_iface m (fst w) /\ wf_flux m (snd w)
  /\ (RHO_t (fst w) = RHO_t i /\ U_t (fst w) = U_t i /\ P_t (fst w) = P_t i)
  /\ forall j, j <= m ->
       let rho_h := (RHO_next i).[j] .+ c_half .* tau .* (RHO_t i).[j] in
       let u_h := (U_next i).[j] .+ c_half .* tau .* (U_t i).[j] in
       let p_h := (P_next i).[j] .+ c_half .* tau .* (P_t i).[j] in
       ((F1 (snd w)).[j] = rho_h .* u_h
        /\ (F2 (snd w)).[j] = rho_h .* u_h .* u_h .+ p_h
        /\ (F3 (snd w)).[j]
           = ((gamma ./ (gamma .- c_1)) .* p_h .+ c_half .* (rho_h .* u_h) .* u_h)
             .* u_h)
       /\ ((RHO_next (fst w)).[j] = rho_h .+ c_half .* tau .* (RHO_t i).[j]
           /\ (U_next (fst w)).[j] = u_h .+ c_half .* tau .* (U_t i).[j]
           /\ (P_next (fst w)).[j] = p_h .+ c_half .* tau .* (P_t i).[j]).
Proof.
  intros Hi Hf w. subst w. unfold flux_loop.
  destruct (@for_loop_local _ _
              (fun x => wf_iface m (fst x) /\ wf_flux m (snd x)
                        /\ (RHO_t (fst x) = RHO_t i /\ U_t (fst x) = U_t i
                            /\ P_t (fst x) = P_t i))
              (fun x j => ((RHO_next (fst x)).[j], (U_next (fst x)).[j],
                           (P_next (fst x)).[j],
                           ((F1 (snd x)).[j], (F2 (snd x)).[j], (F3 (snd x)).[j])))
              (fun j t =>
                 let '(rn, un, pn, _) := t in
                 let rho_h := rn .+ c_half .* tau .* (RHO_t i).[j] in
                 let u_h := un .+ c_half .* tau .* (U_t i).[j] in
                 let p_h := pn .+ c_half .* tau .* (P_t i).[j] in
                 (rho_h .+ c_half .* tau .* (RHO_t i).[j],
                  u_h .+ c_half .* tau .* (U_t i).[j],
                  p_h .+ c_half .* tau .* (P_t i).[j],
                  (rho_h .* u_h, rho_h .* u_h .* u_h .+ p_h,
                   ((gamma ./ (gamma .- c_1)) .* p_h
                    .+ c_half .* (rho_h .* u_h) .* u_h) .* u_h)))
              (S m) (flux_body tau) (i, f)) as [Hk Hv].
  - simpl. auto.
  - intros j [xi xf] Hj (Hxi & Hxf & Ht). simpl in *.
    split; [lengths|]. split; [lengths|]. exact Ht.
  - intros j [xi xf] n Hj (Hxi & Hxf & (Hr & Hu & Hp)). simpl in *.
    destruct Hxi as (? & ? & ? & ? & ? & ?), Hxf as (? & ? & ?).
    rewrite !nth_upd by lia. rewrite Hr, Hu, Hp.
    destruct (n =? j); reflexivity.
  - destruct Hk as (Hwi & Hwf & Ht).
    repeat (split; [assumption|]).
    intros j Hj. specialize (Hv j).
    replace (j <? S m) with true in Hv by (symmetry; apply Nat.ltb_lt; lia).
    simpl in Hv. inversion Hv as [[E1 E2 E3 E4 E5 E6]].
    repeat split; reflexivity.
Qed.

(** The update loop: the new cell values, and the slopes it leaves. *)
Lemma update_loop_spec (k : Z) (nu : F) (r : row F) (i : iface F) (f : flux F)
    (w : updated F) :
  wf_row m (u_row w) -> wf_slopes m (u_sl w) ->
  let w' := update_loop k nu r i f w in
  wf_row m (u_row w') /\ wf_slopes m (u_sl w')
  /\ forall j, j < m ->
       ((RHO (u_row w')).[j], (U (u_row w')).[j], (E (u_row w')).[j],
        (P (u_row w')).[j]) = cell_update nu r f j
       /\ (s_u (u_sl w')).[j] = ((U_next i).[j+1] .- (U_next i).[j]) ./ h
       /\ (s_p (u_sl w')).[j] = ((P_next i).[j+1] .- (P_next i).[j]) ./ h
       /\ (s_rho (u_sl w')).[j] = ((RHO_next i).[j+1] .- (RHO_next i).[j]) ./ h.
Proof.
  intros Hr Hs w'. subst w'. unfold update_loop.
  destruct (@for_loop_local _ _
              (fun x => wf_row m (u_row x) /\ wf_slopes m (u_sl x))
              (fun x j => ((RHO (u_row x)).[j], (U (u_row x)).[j],
                           (E (u_row x)).[j], (P (u_row x)).[j],
                           ((s_u (u_sl x)).[j], (s_p (u_sl x)).[j],
                            (s_rho (u_sl x)).[j])))
              (fun j _ =>
                 (cell_update nu r f j,
                  (((U_next i).[j+1] .- (U_next i).[j]) ./ h,
                   ((P_next i).[j+1] .- (P_next i).[j]) ./ h,
                   ((RHO_next i).[j+1] .- (RHO_next i).[j]) ./ h)))
              m (update_body k nu r i f) w) as [Hk Hv].
  - auto.
  - intros j x Hj (Hxr & Hxs). unfold update_body.
    destruct (cell_update nu r f j) as [[[rho u] e] p]. simpl.
    split; lengths.
  - intros j x n Hj (Hxr & Hxs). unfold update_body.
    destruct (cell_update nu r f j) as [[[rho u] e] p]. simpl.
    destruct Hxr as (? & ? & ? & ?), Hxs as (? & ? & ?).
    rewrite !nth_upd by lia. destruct (n =? j); reflexivity.
  - destruct Hk as (Hwr & Hws). repeat (split; [assumption|]).
    intros j Hj. specialize (Hv j).
    replace (j <? m) with true in Hv by (symmetry; apply Nat.ltb_lt; lia).
    injection Hv as E1 E2 E3 E4 E5 E6 E7.
    rewrite E1, E2, E3, E4, E5, E6, E7. repeat split; reflexivity.
Qed.

Lemma update_body_checks (k : Z) (nu : F) (r : row F) (i : iface F)
    (f : flux F) (j : nat) (w : updated F) :
  u_out (update_body k nu r i f j w) = u_out w ++ update_checks k nu r f j
  /\ u_tc (update_body k nu r i f j w)
     = match update_checks k nu r f j with [] => u_tc w | _ => t_all end.
Proof.
  unfold update_body.
  destruct (cell_update nu r f j) as [[[rho u] e] p]. split; reflexivity.
Qed.

(** What the update loop prints, and what it leaves in [time_c]. *)
Lemma update_loop_checks (k : Z) (nu : F) (r : row F) (i : iface F)
    (f : flux F) (w : updated F) :
  let w' := update_loop k nu r i f w in
  let failed := flat_map (update_checks k nu r f) (seq 0 m) in
  u_out w' = u_out w ++ failed
  /\ u_tc w' = match failed with [] => u_tc w | _ => t_all end.
Proof.
  unfold update_loop.
  apply (@for_loop_invariant _
           (fun c x =>
              u_out x = u_out w ++ flat_map (update_checks k nu r f) (seq 0 c)
              /\ u_tc x = match flat_map (update_checks k nu r f) (seq 0 c) with
                          | [] => u_tc w
                          | _ => t_all
                          end)).
  - simpl. rewrite app_nil_r. auto.
  - intros j x Hj [Ho Ht]. rewrite seq_S, flat_map_app.
    destruct (update_body_checks k nu r i f j x) as [Eo Et].
    rewrite Eo, Et, Ho, Ht. cbn [flat_map Nat.add]. rewrite app_nil_r, app_assoc.
    split; [reflexivity|].
    destruct (flat_map (update_checks k nu r f) (seq 0 j));
      destruct (update_checks k nu r f j); reflexivity.
Qed.

(** Row [n] copied over row [n-1]. *)
Lemma copy_loop_spec (src dst : row F) :
  wf_row m dst ->
  wf_row m (copy_loop src dst)
  /\ forall j, j < m ->
       (RHO (copy_loop src dst)).[j] = (RHO src).[j]
       /\ (U (copy_loop src dst)).[j] = (U src).[j]
       /\ (E (copy_loop src dst)).[j] = (E src).[j]
       /\ (P (copy_loop src dst)).[j] = (P src).[j].
Proof.
  intros Hd.
  destruct (@for_loop_local _ _ (wf_row m)
              (fun x j => ((RHO x).[j], (U x).[j], (E x).[j], (P x).[j]))
              (fun j _ => ((RHO src).[j], (U src).[j], (E src).[j], (P src).[j]))
              m (copy_body src) dst) as [Hk Hv].
  - exact Hd.
  - intros j x Hj Hx. lengths.
  - intros j x n Hj (? & ? & ? & ?). simpl.
    rewrite !nth_upd by lia. destruct (n =? j); reflexivity.
  - split; [exact Hk|]. intros j Hj. specialize (Hv j).
    unfold copy_loop.
    replace (j <? m) with true in Hv by (symmetry; apply Nat.ltb_lt; lia).
    inversion Hv. auto.
Qed.

(** *** The interface loop *)

Section InterfaceFacts.

Variable r : row F.
Variable g : ghost F.
Variable b : ghost_slope F.
Variable s : slopes F.

Local Abbreviation recon_below_eps := (recon_below_eps m eps h r g b s).
Local Abbreviation recon_not_finite := (recon_not_finite m h r g b s).
Local Abbreviation solve := (solve linear_GRP_solver_Edir m eps gamma h r g b s).
Local Abbreviation star_checks :=
  (star_checks linear_GRP_solver_Edir m eps gamma h r g b s).
Local Abbreviation interface_body :=
  (interface_body linear_GRP_solver_Edir m t_all eps gamma h r g b s).
Local Abbreviation interface_loop :=
  (interface_loop linear_GRP_solver_Edir m t_all eps gamma h r g b s).
Local Abbreviation h_S_max_upto := (h_S_max_upto m gamma h r g b s).

Local Abbreviation solved_upto :=
  (solved_upto linear_GRP_solver_Edir m t_all eps gamma h r g b s).

Lemma solved_upto_start (k : Z) (a : solved F) :
  wf_iface m (a_ifc a) -> solved_upto k a 0 a.
Proof.
  intros Hwf. unfold solved_upto. simpl. rewrite app_nil_r.
  split; [exact Hwf|]. split; [intros j Hj; lia|]. split; [intros j Hj; lia|].
  auto.
Qed.

Lemma interface_body_step (k : Z) (a x x' : solved F) (j : nat) :
  j <= m -> solved_upto k a j x -> interface_body k j x = inr x' ->
  solved_upto k a (S j) x'.
Proof.
  intros Hj (Hwf & Hok & Hval & HhS & Hout & Htc) Hb.
  unfold interface_body in Hb.
  destruct (recon_below_eps j) eqn:Hbe; [discriminate|].
  destruct (recon_not_finite j) eqn:Hnf; [discriminate|].
  destruct (solve j) as [[[d_rho d_u] d_p] [[m_rho m_u] m_p]] eqn:Hs.
  injection Hb as <-. unfold solved_upto. cbn [a_ifc a_hS a_tc a_out].
  split; [lengths|].
  split.
  { intros i Hi. destruct (Nat.eq_dec i j) as [->|Hne]; [auto|apply Hok; lia]. }
  split.
  { intros i Hi. destruct Hwf as (? & ? & ? & ? & ? & ?). simpl.
    rewrite !nth_upd by lia.
    destruct (Nat.eqb_spec i j) as [->|Hne]; [now rewrite Hs|].
    apply Hval; lia. }
  split.
  { unfold h_S_max_upto. rewrite seq_S, fold_left_app. simpl.
    rewrite HhS. reflexivity. }
  rewrite seq_S, flat_map_app. cbn [flat_map Nat.add].
  rewrite app_nil_r, Hout, Htc, app_assoc. split; [reflexivity|].
  destruct (flat_map (star_checks k) (seq 0 j)); destruct (star_checks k j);
    reflexivity.
Qed.

(** The interface loop either solves every interface or stops at the
    first one whose reconstructed states fail a check. *)
Lemma interface_loop_spec (k : Z) (a : solved F) :
  wf_iface m (a_ifc a) ->
  match interface_loop k a with
  | inr a' => solved_upto k a (S m) a'
  | inl a' =>
      exists j x, j <= m /\ solved_upto k a j x
        /\ a_ifc a' = a_ifc x /\ a_hS a' = a_hS x /\ a_tc a' = a_tc x
        /\ ((recon_below_eps j = true
             /\ a_out a' = a_out x ++ [Below_eps k j Reconstruction])
            \/ (recon_below_eps j = false /\ recon_not_finite j = true
                /\ a_out a' = a_out x ++ [Not_finite k j Reconstruction]))
  end.
Proof.
  intros Hwf. unfold interface_loop.
  pose proof (@for_exit_invariant _ _ (solved_upto k a) (S m)
                (interface_body k) a) as H.
  destruct (for_exit (seq 0 (S m)) (interface_body k) a) as [a'|a'].
  - destruct H as (j & x & Hj & Hx & Hb).
    + now apply solved_upto_start.
    + intros j x x' Hj. apply interface_body_step. lia.
    + exists j, x. split; [lia|]. split; [exact Hx|].
      unfold interface_body in Hb.
      destruct (recon_below_eps j) eqn:Hbe.
      { injection Hb as <-. simpl. auto 10. }
      destruct (recon_not_finite j) eqn:Hnf.
      { injection Hb as <-. simpl. auto 10. }
      destruct (solve j) as [[[? ?] ?] [[? ?] ?]]. discriminate.
  - apply H.
    + now apply solved_upto_start.
    + intros j x x' Hj. apply interface_body_step. lia.
Qed.

End InterfaceFacts.

(** *** A pass through the loop body, taken apart *)

Local Abbreviation boundary := (boundary m bound).
Local Abbreviation boundary_slopes := (boundary_slopes m bound).
Local Abbreviation time_step := (time_step t_all eps CFL tau_conf).
Local Abbreviation time_is_up := (time_is_up t_all eps).
Local Abbreviation step :=
  (step minmod2 minmod3 linear_GRP_solver_Edir m t_all eps gamma CFL h alpha
        tau_conf bound).
Local Abbreviation completed :=
  (completed minmod2 minmod3 linear_GRP_solver_Edir m t_all eps gamma CFL h
             alpha tau_conf bound).
Local Abbreviation solved_upto :=
  (solved_upto linear_GRP_solver_Edir m t_all eps gamma h).
Local Abbreviation interface_loop :=
  (interface_loop linear_GRP_solver_Edir m t_all eps gamma h).

Lemma step_completed (k : Z) (st st' : state F) :
  wf_state m st -> completed k st st' ->
  let r := row0 (CV st) in
  let g := gh st' in
  let b := gs st' in
  let s := slope_loop k r g (sl st) in
  exists msg a,
    boundary (find_bound st) r (gh st) = Some (g, msg)
    /\ b = boundary_slopes s (gs st)
    /\ solved_upto r g b s k
         {| a_ifc := ifc st; a_hS := INFINITY; a_tc := time_c st;
            a_out := out st ++ msg |} (S m) a
    /\ tau st' = time_step (a_hS a) (a_tc a) (tau st)
    /\ (ifc st', fl st') = flux_loop (tau st') (a_ifc a, fl st)
    /\ let w := update_loop k (tau st' ./ h) r (ifc st') (fl st')
                  {| u_row := row1 (CV st); u_sl := s; u_tc := a_tc a;
                     u_out := a_out a |} in
       row1 (CV st') = u_row w /\ sl st' = u_sl w
       /\ time_c st' = u_tc w .+ tau st' /\ out st' = u_out w
       /\ find_bound st' = true
       /\ ((step k st = Break st' /\ time_is_up (time_c st') = true
            /\ config st' = upd (config st) 5 (of_int k)
            /\ row0 (CV st') = r)
           \/ (step k st = Next st' /\ time_is_up (time_c st') = false
               /\ config st' = config st
               /\ row0 (CV st') = copy_loop (u_row w) r)).
Proof.
  intros (_ & _ & _ & Hwi & _) Hc. unfold completed in Hc.
  assert (exists o, step k st = o /\ (o = Next st' \/ o = Break st')) as (o & Ho & Hc').
  { destruct Hc as [Hc|Hc]; rewrite Hc; eauto. }
  clear Hc. unfold step in Ho.
  destruct (boundary (find_bound st) (row0 (CV st)) (gh st)) as [[g msg]|] eqn:Hb;
    [|subst o; destruct Hc'; discriminate].
  pose proof (@interface_loop_spec (row0 (CV st)) g
                (boundary_slopes (slope_loop k (row0 (CV st)) g (sl st)) (gs st))
                (slope_loop k (row0 (CV st)) g (sl st)) k
                {| a_ifc := ifc st; a_hS := INFINITY; a_tc := time_c st;
                   a_out := out st ++ msg |} Hwi) as Hi.
  destruct (interface_loop _ _ _ _ _ _) as [a|a] eqn:Hl;
    [subst o; destruct Hc'; discriminate|].
  destruct (flux_loop _ _) as [i f] eqn:Hf.
  destruct (time_is_up _) eqn:Hup; subst o;
    (destruct Hc' as [Hc'|Hc']; [try discriminate|try discriminate]);
    injection Hc' as <-; cbn [gh gs tau ifc fl CV row0 row1 sl time_c out
                              config find_bound];
    exists msg, a; rewrite Hf, Hup, Hb;
    repeat (split; [first [reflexivity|assumption]|]).
  - left. unfold step. rewrite Hb, Hl, Hf, Hup. auto.
  - right. unfold step. rewrite Hb, Hl, Hf, Hup. auto.
Qed.

(** *** The update of the cells *)

Lemma completed_update (k : Z) (st st' : state F) (j : nat) :
  wf_state m st -> completed k st st' -> j < m ->
  forward_euler_at gamma h st st' j.
Proof.
  intros Hwf Hc Hj.
  destruct (step_completed Hwf Hc) as (msg & a & _ & _ & _ & _ & _ & Hu).
  destruct Hu as (Hrow & _).
  destruct Hwf as (_ & Hr1 & Hs & _ & _).
  destruct (slope_loop_spec k (row0 (CV st)) (gh st') Hs) as [Hs' _].
  match type of Hrow with _ = u_row (update_loop ?k ?nu ?r ?i ?f ?w) =>
    destruct (@update_loop_spec k nu r i f w Hr1 Hs') as (_ & _ & Hcell)
  end.
  destruct (Hcell j Hj) as [Hcu _]. rewrite <- Hrow in Hcu.
  unfold forward_euler_at. cbv zeta.
  injection Hcu as E1 E2 E3 E4. rewrite E2, E3, E4, E1. auto.
Qed.

(** *** The fluxes *)

Local Abbreviation interface_solution :=
  (interface_solution minmod2 minmod3 linear_GRP_solver_Edir m eps gamma h alpha).
Local Abbreviation limited_slopes := (limited_slopes minmod2 minmod3 m h alpha).

(** After a pass, the arrays of the interfaces hold the temporal
    derivatives and the solutions advanced by a whole time step, and the
    fluxes are those of the half step. *)
Lemma completed_fluxes (k : Z) (st st' : state F) (j : nat) :
  wf_state m st -> completed k st st' -> j <= m ->
  let '((d_rho, d_u, d_p), (m_rho, m_u, m_p)) := interface_solution k st st' j in
  let '(rho_bar, u_bar, p_bar) := half_step (tau st') (interface_solution k st st' j) in
  half_step_fluxes_at gamma (rho_bar, u_bar, p_bar) (fl st') j
  /\ ((RHO_t (ifc st')).[j] = d_rho /\ (U_t (ifc st')).[j] = d_u
      /\ (P_t (ifc st')).[j] = d_p)
  /\ ((RHO_next (ifc st')).[j] = rho_bar .+ c_half .* tau st' .* d_rho
      /\ (U_next (ifc st')).[j] = u_bar .+ c_half .* tau st' .* d_u
      /\ (P_next (ifc st')).[j] = p_bar .+ c_half .* tau st' .* d_p).
Proof.
  intros Hwf Hc Hj.
  destruct (step_completed Hwf Hc) as (msg & a & _ & _ & Hsol & _ & Hfl & _).
  destruct Hsol as (Hwa & _ & Hval & _).
  destruct Hwf as (_ & _ & _ & _ & Hwfl).
  pose proof (@flux_loop_spec (tau st') (a_ifc a) (fl st) Hwa Hwfl) as Hf.
  cbv zeta in Hf. rewrite <- Hfl in Hf. cbn [fst snd] in Hf.
  destruct Hf as (_ & _ & (Er & Eu & Ep) & Hf).
  specialize (Hf j Hj). specialize (Hval j ltac:(lia)).
  unfold interface_solution, limited_slopes, half_step.
  destruct (solve _ _ _ _ _ _ _ _ _ _) as [[[d_rho d_u] d_p] [[m_rho m_u] m_p]].
  injection Hval as V1 V2 V3 V4 V5 V6.
  rewrite Er, Eu, Ep. rewrite V1, V2, V3, V4, V5, V6 in Hf.
  destruct Hf as ((G1 & G2 & G3) & G4 & G5 & G6).
  unfold half_step_fluxes_at. rewrite G1, G2, G3, G4, G5, G6. auto 10.
Qed.

(** *** The time step *)

Local Abbreviation h_S_max_of :=
  (h_S_max_of minmod2 minmod3 m gamma h alpha).
Local Abbreviation time_before :=
  (time_before minmod2 minmod3 linear_GRP_solver_Edir m t_all eps gamma h alpha).

Lemma completed_time_step (k : Z) (st st' : state F) :
  wf_state m st -> completed k st st' ->
  tau st' = time_step (h_S_max_of k st st') (time_before k st st') (tau st).
Proof.
  intros Hwf Hc.
  destruct (step_completed Hwf Hc) as (msg & a & _ & _ & Hsol & Htau & _).
  destruct Hsol as (_ & _ & _ & HhS & _ & Htc).
  cbn [a_hS a_tc] in HhS, Htc. rewrite Htau, HhS, Htc. reflexivity.
Qed.

(** *** The slopes of a pass *)

Lemma limited_spec (k : Z) (V : list F) (VL VR : F) (prev new : list F)
    (j : nat) :
  j < m ->
  new.[j] = limited k (diff_L h V VL j) (diff_R m h V VR j) prev.[j] ->
  minmod_limited_at minmod2 minmod3 m h alpha k V VL VR prev new j.
Proof.
  intros Hj Hnew. unfold minmod_limited_at. rewrite Hnew.
  unfold limited, diff_L, diff_R.
  replace (j <? m - 1) with (negb (j + 1 =? m)).
  2:{ destruct (Nat.eqb_spec (j + 1) m), (Nat.ltb_spec j (m - 1));
      simpl; auto; lia. }
  destruct (j + 1 =? m)%nat; destruct (Nat.eqb_spec j 0) as [->|Hne];
    destruct (Z.eqb_spec k 1); simpl; split; intros; auto; contradiction.
Qed.

(** *** The slopes a pass stores *)

Lemma completed_slopes (k : Z) (st st' : state F) (j : nat) :
  wf_state m st -> completed k st st' -> j < m ->
  slopes_between_at h
    (fun i => full_step (tau st') (interface_solution k st st' i)) (sl st') j
  /\ (s_u (sl st')).[j] = ((U_next (ifc st')).[j+1] .- (U_next (ifc st')).[j]) ./ h
  /\ (s_p (sl st')).[j] = ((P_next (ifc st')).[j+1] .- (P_next (ifc st')).[j]) ./ h
  /\ (s_rho (sl st')).[j]
     = ((RHO_next (ifc st')).[j+1] .- (RHO_next (ifc st')).[j]) ./ h.
Proof.
  intros Hwf Hc Hj.
  pose proof (@completed_fluxes k st st' j Hwf Hc ltac:(lia)) as H0.
  pose proof (@completed_fluxes k st st' (j + 1) Hwf Hc ltac:(lia)) as H1.
  destruct (step_completed Hwf Hc) as (msg & a & _ & _ & _ & _ & _ & Hu).
  destruct Hu as (_ & Hsl & _).
  destruct Hwf as (_ & Hr1 & Hs & _ & _).
  destruct (slope_loop_spec k (row0 (CV st)) (gh st') Hs) as [Hs' _].
  match type of Hsl with _ = u_sl (update_loop ?k ?nu ?r ?i ?f ?w) =>
    destruct (@update_loop_spec k nu r i f w Hr1 Hs') as (_ & _ & Hcell)
  end.
  destruct (Hcell j Hj) as (_ & Su & Sp & Sr). rewrite <- Hsl in Su, Sp, Sr.
  split; [|auto].
  unfold slopes_between_at, full_step, half_step in *.
  destruct (interface_solution k st st' j)
    as [[[d_rho0 d_u0] d_p0] [[m_rho0 m_u0] m_p0]].
  destruct (interface_solution k st st' (j + 1))
    as [[[d_rho1 d_u1] d_p1] [[m_rho1 m_u1] m_p1]].
  destruct H0 as (_ & _ & (R0 & U0 & P0)).
  destruct H1 as (_ & _ & (R1 & U1 & P1)).
  rewrite Su, Sp, Sr, R0, U0, P0, R1, U1, P1. auto.
Qed.

(** *** The boundary *)

Lemma boundary_unrecognised (fb : bool) (r : row F) (g : ghost F) :
  recognised bound = false -> boundary fb r g = None.
Proof.
  unfold boundary, recognised. intros H.
  destruct bound as [|p|p]; try reflexivity.
  repeat (destruct p as [p|p|]; try reflexivity;
          try (vm_compute in H; discriminate)).
Qed.

Lemma boundary_rule (fb : bool) (r : row F) (s : slopes F) (g g' : ghost F)
    (b : ghost_slope F) (msg : list (printed F)) :
  boundary fb r g = Some (g', msg) ->
  ghost_rule bound m (negb fb) r s g g' b (boundary_slopes s b).
Proof.
  unfold boundary, boundary_slopes, ghost_rule.
  destruct bound as [|p|p]; try discriminate.
  repeat (destruct p as [p|p|]; try discriminate);
    destruct fb; simpl; intros H; injection H as <- _; split;
    try reflexivity; destruct b; reflexivity.
Qed.

Lemma boundary_recognised (fb : bool) (r : row F) (g : ghost F) :
  recognised bound = true -> boundary fb r g <> None.
Proof.
  unfold boundary, recognised. intros H.
  destruct bound as [|p|p]; try discriminate.
  repeat (destruct p as [p|p|]; try discriminate);
    destruct fb; discriminate.
Qed.

(** Whatever way a pass under a recognised tag ends, the state it leaves
    holds the boundary values and slopes of the tag's rule. *)
Lemma step_boundary (k : Z) (st : state F) :
  recognised bound = true ->
  let st' := state_of (step k st) in
  ghost_rule bound m (negb (find_bound st)) (row0 (CV st))
             (limited_slopes k st st') (gh st) (gh st') (gs st) (gs st')
  /\ find_bound st' = true.
Proof.
  intros Hrec st'. subst st'. unfold step, limited_slopes.
  pose proof (@boundary_recognised (find_bound st) (row0 (CV st)) (gh st) Hrec)
    as Hsome.
  destruct (boundary (find_bound st) (row0 (CV st)) (gh st)) as [[g msg]|] eqn:Hb;
    [clear Hsome|congruence].
  destruct (interface_loop _ _ _ _ _ _) as [a|a].
  - simpl. split; [|reflexivity]. eapply boundary_rule. exact Hb.
  - destruct (flux_loop _ _) as [i f]. destruct (time_is_up _); simpl;
      (split; [|reflexivity]); eapply boundary_rule; exact Hb.
Qed.

Lemma step_unrecognised (k : Z) (st : state F) :
  recognised bound = false -> step k st = Abort (say No_suitable_boundary st).
Proof.
  intros H. unfold step. rewrite (boundary_unrecognised _ _ _ H). reflexivity.
Qed.

(** *** The reconstructed states *)

Lemma right_state_ghost (r : row F) (g : ghost F) (b : ghost_slope F)
    (s : slopes F) (j : nat) :
  j <= m -> right_state m h r g b s j = ghost_right_state m h r g b s j.
Proof.
  intros Hj. unfold right_state, ghost_right_state.
  destruct (Nat.ltb_spec j m), (Nat.eqb_spec j m); try reflexivity; lia.
Qed.

Lemma recon_checks_states (r : row F) (g : ghost F) (b : ghost_slope F)
    (s : slopes F) (j : nat) :
  j <= m ->
  recon_below_eps m eps h r g b s j
  = states_below_eps eps (symmetric_left_state h r g b s j)
                     (ghost_right_state m h r g b s j)
  /\ recon_not_finite m h r g b s j
     = states_not_finite (symmetric_left_state h r g b s j)
                         (ghost_right_state m h r g b s j).
Proof.
  intros Hj. unfold recon_below_eps, recon_not_finite.
  rewrite (right_state_ghost r g b s Hj). split; reflexivity.
Qed.

(** A pass under a recognised tag that leaves the stepper stopped at the
    first interface whose reconstructed states fail a check, with that
    line printed last and the cells and [config] as they were. *)
Lemma step_aborted (k : Z) (st st' : state F) :
  wf_state m st -> recognised bound = true -> step k st = Abort st' ->
  let r := row0 (CV st) in
  let g := gh st' in
  let b := gs st' in
  let s := limited_slopes k st st' in
  CV st' = CV st /\ config st' = config st
  /\ exists j, j <= m
       /\ (forall i, i < j -> recon_below_eps m eps h r g b s i = false
                              /\ recon_not_finite m h r g b s i = false)
       /\ exists o,
            (recon_below_eps m eps h r g b s j = true
             /\ out st' = o ++ [Below_eps k j Reconstruction])
            \/ (recon_below_eps m eps h r g b s j = false
                /\ recon_not_finite m h r g b s j = true
                /\ out st' = o ++ [Not_finite k j Reconstruction]).
Proof.
  intros (_ & _ & _ & Hwi & _) Hrec Hs. unfold step in Hs.
  pose proof (@boundary_recognised (find_bound st) (row0 (CV st)) (gh st) Hrec)
    as Hsome.
  destruct (boundary (find_bound st) (row0 (CV st)) (gh st)) as [[g msg]|] eqn:Hb;
    [clear Hsome|congruence].
  pose proof (@interface_loop_spec (row0 (CV st)) g
                (boundary_slopes (slope_loop k (row0 (CV st)) g (sl st)) (gs st))
                (slope_loop k (row0 (CV st)) g (sl st)) k
                {| a_ifc := ifc st; a_hS := INFINITY; a_tc := time_c st;
                   a_out := out st ++ msg |} Hwi) as Hi.
  destruct (interface_loop _ _ _ _ _ _) as [a|a].
  - injection Hs as <-. unfold limited_slopes. cbn [CV config gh gs sl out].
    split; [reflexivity|]. split; [reflexivity|].
    destruct Hi as (j & x & Hj & (_ & Hok & _) & _ & _ & _ & Hfail).
    exists j. split; [exact Hj|]. split; [exact Hok|].
    exists (a_out x). tauto.
  - destruct (flux_loop _ _) as [i f]. destruct (time_is_up _); discriminate.
Qed.

(** A pass under a recognised tag either solves every interface, each from
    states that pass the two checks, or leaves the stepper at the first
    interface whose states fail one. *)
Lemma step_reconstruction (k : Z) (st : state F) :
  wf_state m st -> recognised bound = true ->
  let st' := state_of (step k st) in
  let r := row0 (CV st) in
  let g := gh st' in
  let b := gs st' in
  let s := limited_slopes k st st' in
  let L := symmetric_left_state h r g b s in
  let R := ghost_right_state m h r g b s in
  (completed k st st'
   /\ forall j, j <= m ->
        states_below_eps eps (L j) (R j) = false
        /\ states_not_finite (L j) (R j) = false
        /\ interface_solution k st st' j
           = (let '(rho_L, u_L, p_L) := L j in
              let '(rho_R, u_R, p_R) := R j in
              let '(s_rho_L, s_u_L, s_p_L) := left_slope b s j in
              let '(s_rho_R, s_u_R, s_p_R) := right_slope m b s j in
              linear_GRP_solver_Edir rho_L rho_R s_rho_L s_rho_R
                                     u_L u_R s_u_L s_u_R
                                     p_L p_R s_p_L s_p_R gamma eps))
  \/ (step k st = Abort st' /\ CV st' = CV st /\ config st' = config st
      /\ exists j, j <= m
           /\ (forall i, i < j -> states_below_eps eps (L i) (R i) = false
                                  /\ states_not_finite (L i) (R i) = false)
           /\ exists o,
                (states_below_eps eps (L j) (R j) = true
                 /\ out st' = o ++ [Below_eps k j Reconstruction])
                \/ (states_below_eps eps (L j) (R j) = false
                    /\ states_not_finite (L j) (R j) = true
                    /\ out st' = o ++ [Not_finite k j Reconstruction])).
Proof.
  intros Hwf Hrec st' r g b s L R.
  assert (Hchk : forall j, j <= m ->
            recon_below_eps m eps h r g b s j = states_below_eps eps (L j) (R j)
            /\ recon_not_finite m h r g b s j = states_not_finite (L j) (R j))
    by (intros j Hj; apply recon_checks_states; exact Hj).
  destruct (step k st) as [st1|st1|st1] eqn:Hs; simpl in st'.
  - right. destruct (@step_aborted k st st1 Hwf Hrec Hs) as (Hcv & Hcf & j & Hj & Hok & o & Hf).
    fold st' r g b s in Hcv, Hcf, Hok, Hf.
    repeat (split; [first [reflexivity|assumption]|]).
    exists j. split; [exact Hj|]. split.
    + intros i Hi. destruct (Hchk i ltac:(lia)) as [<- <-]. apply Hok. exact Hi.
    + exists o. destruct (Hchk j Hj) as [<- <-]. exact Hf.
  - left. assert (Hc : completed k st st') by (right; exact Hs).
    split; [exact Hc|]. intros j Hj.
    destruct (step_completed Hwf Hc) as (msg & a & _ & _ & Hsol & _).
    destruct Hsol as (_ & Hok & _).
    destruct (Hchk j Hj) as [E1 E2]. destruct (Hok j ltac:(lia)) as [O1 O2].
    split; [rewrite <- E1; exact O1|]. split; [rewrite <- E2; exact O2|].
    unfold interface_solution, solve. fold r g b s.
    rewrite (right_state_ghost r g b s Hj). reflexivity.
  - left. assert (Hc : completed k st st') by (left; exact Hs).
    split; [exact Hc|]. intros j Hj.
    destruct (step_completed Hwf Hc) as (msg & a & _ & _ & Hsol & _).
    destruct Hsol as (_ & Hok & _).
    destruct (Hchk j Hj) as [E1 E2]. destruct (Hok j ltac:(lia)) as [O1 O2].
    split; [rewrite <- E1; exact O1|]. split; [rewrite <- E2; exact O2|].
    unfold interface_solution, solve. fold r g b s.
    rewrite (right_state_ghost r g b s Hj). reflexivity.
Qed.

(** *** What a pass prints and where it leaves [time_c] *)

Local Abbreviation star_lines :=
  (star_lines minmod2 minmod3 linear_GRP_solver_Edir m eps gamma h alpha).
Local Abbreviation update_lines := (update_lines m eps gamma h).

Lemma completed_lines (k : Z) (st st' : state F) :
  wf_state m st -> completed k st st' ->
  let failed := star_lines k st st' ++ update_lines k st st' in
  (exists msg, boundary (find_bound st) (row0 (CV st)) (gh st) = Some (gh st', msg)
               /\ out st' = out st ++ msg ++ failed)
  /\ time_c st' = match failed with [] => time_c st | _ => t_all end .+ tau st'.
Proof.
  intros Hwf Hc.
  destruct (step_completed Hwf Hc) as (msg & a & Hb & _ & Hsol & _ & _ & Hu).
  destruct Hsol as (_ & _ & _ & _ & Hout & Htc). cbn [a_out a_tc] in Hout, Htc.
  destruct Hu as (_ & _ & Ht & Ho & _).
  match type of Ho with _ = u_out (update_loop ?k ?nu ?r ?i ?f ?w) =>
    destruct (@update_loop_checks k nu r i f w) as (Eo & Et)
  end.
  cbn [u_out u_tc] in Eo, Et. rewrite Eo in Ho. rewrite Et in Ht.
  unfold star_lines, update_lines, limited_slopes. cbv zeta. split.
  - exists msg. split; [exact Hb|]. rewrite Ho, Hout, <- !app_assoc. reflexivity.
  - rewrite Ht, Htc.
    destruct (flat_map _ (seq 0 (S m))); destruct (flat_map _ (seq 0 m));
      reflexivity.
Qed.


Lemma boundary_lines (fb : bool) (r : row F) (g g' : ghost F)
    (msg : list (printed F)) :
  boundary fb r g = Some (g', msg) ->
  msg = [] \/ msg = [Boundary_conditions bound].
Proof.
  unfold boundary, announce.
  destruct bound as [|p|p]; try discriminate.
  repeat (destruct p as [p|p|]; try discriminate);
    destruct fb; intros H; injection H as _ <-; auto.
Qed.

(** *** The main loop and [config] *)

Local Abbreviation main_loop :=
  (main_loop minmod2 minmod3 linear_GRP_solver_Edir m t_all eps gamma CFL h
             alpha tau_conf bound).

Lemma step_config (k : Z) (st : state F) :
  match step k st with
  | Break st' => config st' = upd (config st) 5 (of_int k)
                 /\ time_is_up (time_c st') = true
  | Next st' | Abort st' => config st' = config st
  end.
Proof.
  unfold step.
  destruct (boundary _ _ _) as [[g msg]|]; [|reflexivity].
  destruct (interface_loop _ _ _ _ _ _) as [a|a]; [reflexivity|].
  destruct (flux_loop _ _) as [i f].
  destruct (time_is_up _) eqn:Hup; simpl; auto.
Qed.

(** The main loop writes [config] once, when it is left by the
    end-of-step check: the step it was then in, at index 5. *)
Lemma main_loop_config (steps : nat) (k0 : Z) (st : state F) :
  match main_loop steps k0 st with
  | Break st' =>
      exists k, (k0 <= k < k0 + Z.of_nat steps)%Z
        /\ config st' = upd (config st) 5 (of_int k)
        /\ time_is_up (time_c st') = true
        /\ exists o, out st' = o ++ [Time_is_up k; Cpu_time_cost]
  | Next st' | Abort st' => config st' = config st
  end.
Proof.
  revert k0 st. induction steps as [|steps IH]; intros k0 st.
  - reflexivity.
  - simpl.
    pose proof (step_config k0 st) as Hs.
    destruct (step k0 st) as [st1|st1|st1].
    + exact Hs.
    + destruct Hs as (Hc & Hup). exists k0.
      split; [lia|]. split; [exact Hc|]. split; [exact Hup|].
      exists (out st1). simpl. rewrite <- app_assoc. reflexivity.
    + specialize (IH (k0 + 1)%Z st1).
      destruct (main_loop steps (k0 + 1) st1) as [st2|st2|st2].
      * congruence.
      * destruct IH as (k & Hk & Hc & Hup & Ho). exists k.
        split; [lia|]. rewrite <- Hs. auto.
      * congruence.
Qed.

(** *** The shapes along a run *)

Lemma completed_wf (k : Z) (st st' : state F) :
  wf_state m st -> completed k st st' -> wf_state m st'.
Proof.
  intros Hwf Hc.
  destruct (step_completed Hwf Hc)
    as (msg & a & _ & _ & Hsol & _ & Hfl & Hrow & Hsl & _ & _ & _ & Hend).
  destruct Hsol as (Hwa & _).
  destruct Hwf as (Hr0 & Hr1 & Hs & _ & Hwfl).
  destruct (slope_loop_spec k (row0 (CV st)) (gh st') Hs) as [Hs' _].
  pose proof (@flux_loop_spec (tau st') (a_ifc a) (fl st) Hwa Hwfl) as Hf.
  cbv zeta in Hf. rewrite <- Hfl in Hf. cbn [fst snd] in Hf.
  destruct Hf as (Hwi' & Hwf' & _).
  match type of Hrow with _ = u_row (update_loop ?k ?nu ?r ?i ?f ?w) =>
    destruct (@update_loop_spec k nu r i f w Hr1 Hs') as (Hur & Hus & _)
  end.
  rewrite <- Hrow in Hur. rewrite <- Hsl in Hus.
  unfold wf_state.
  split; [|split; [exact Hur|split; [exact Hus|split; [exact Hwi'|exact Hwf']]]].
  destruct Hend as [(_ & _ & _ & ->)|(_ & _ & _ & ->)]; [assumption|].
  apply copy_loop_spec. assumption.
Qed.

Lemma initial_wf (cv : cell_var_stru F) (conf : list F) :
  wf_row m (row0 cv) -> wf_row m (row1 cv) -> wf_state m (initial m cv conf).
Proof.
  intros H0 H1. unfold wf_state, initial, wf_slopes, wf_iface, wf_flux, zeros.
  simpl. rewrite !repeat_length. auto 20.
Qed.

End LoopFacts.

(** ** Arithmetic without rounding *)

Section ExactFacts.

Variable root : Qc -> Qc.

Local Instance exact_arith : Real64 XQ.t := exactQ root.

Lemma is_zero_false (x : Qc) : XQ.is_zero x = false -> x <> 0%Qc.
Proof.
  unfold XQ.is_zero. intros H E. subst x.
  rewrite (proj1 (Qceq_alt 0 0) eq_refl) in H. discriminate.
Qed.

(** The pressure written from the momentum and the energy is the pressure
    of the equation of state, when the new cell is finite. *)
Lemma eos_from_conserved (Mom Ene rho gamma : XQ.t) :
  let u := Mom ./ rho in
  let e := Ene ./ rho in
  let p := (Ene .- c_half .* Mom .* u) .* (gamma .- c_1) in
  isfinite p = true -> isfinite u = true -> isfinite rho = true ->
  p = (gamma .- c_1) .* (rho .* e .- c_half .* rho .* (u .* u)).
Proof.
  destruct rho as [r| | |]; try (simpl; intros; discriminate).
  destruct Mom as [a| | |];
    try (simpl; unfold XQ.sgn_inf; intros Hp Hu; exfalso; revert Hu;
         repeat match goal with |- context [if ?c then _ else _] => destruct c end;
         discriminate).
  simpl. destruct (XQ.is_zero r) eqn:Hr.
  { unfold XQ.sgn_inf. intros Hp Hu. exfalso. revert Hu.
    repeat match goal with |- context [if ?c then _ else _] => destruct c end;
      discriminate. }
  pose proof (is_zero_false Hr) as Hr0.
  destruct Ene as [b| | |]; destruct gamma as [g| | |]; simpl;
    rewrite ?Hr; unfold XQ.sub, XQ.mul_inf, XQ.sgn_inf; simpl;
    try (intros; discriminate);
    try (intros Hp; exfalso; revert Hp; unfold XQ.mul_inf, XQ.sgn_inf;
         repeat match goal with |- context [if ?c then _ else _] => destruct c end;
         discriminate).
  intros _ _ _. f_equal. field. exact Hr0.
Qed.

(** The energy flux as the code factors it is the energy flux of the
    scheme, when its terms are finite. *)
Lemma energy_flux_expanded (g' p u f1 : XQ.t) :
  isfinite g' = true -> isfinite p = true -> isfinite u = true ->
  isfinite f1 = true ->
  (g' .* p .+ c_half .* f1 .* u) .* u
  = g' .* p .* u .+ c_half .* f1 .* (u .* u).
Proof.
  destruct g' as [g| | |], p as [x| | |], u as [y| | |], f1 as [z| | |];
    simpl; try discriminate.
  intros _ _ _ _. f_equal. ring.
Qed.

Lemma leb_true (x y : Qc) : (x <= y)%Qc -> XQ.leb (XQ.Fin x) (XQ.Fin y) = true.
Proof.
  intros H. unfold XQ.leb. pose proof (proj1 (Qcle_alt x y) H) as H'.
  destruct (x ?= y)%Qc; try reflexivity. congruence.
Qed.

Lemma leb_le (x y : Qc) : XQ.leb (XQ.Fin x) (XQ.Fin y) = true -> (x <= y)%Qc.
Proof.
  unfold XQ.leb. intros H. apply Qcle_alt. intros E. rewrite E in H.
  discriminate.
Qed.

Lemma ltb_false (x y : Qc) : XQ.ltb (XQ.Fin x) (XQ.Fin y) = false -> (y <= x)%Qc.
Proof.
  unfold XQ.ltb. intros H. apply Qcnot_lt_le. intros Hlt.
  rewrite (proj1 (Qclt_alt x y) Hlt) in H. discriminate.
Qed.

(** The time step of the CFL condition does not carry [time_c] past
    [t_all], when [eps] is not negative. *)
Lemma clamp_bound (t_all eps x tc : XQ.t) :
  let tau' := if (tc .+ x) .> (t_all .- eps) then t_all .- tc else x in
  isfinite t_all = true -> isfinite tc = true -> (c_0 .<= eps) = true ->
  isfinite tau' = true ->
  ((tc .+ tau') .<= t_all) = true.
Proof.
  destruct t_all as [T| | |]; try (simpl; intros; discriminate).
  destruct tc as [c| | |]; try (simpl; intros; discriminate).
  intros tau' _ _ He Hf. subst tau'.
  cbn [fadd fsub flt fle exact_arith exactQ] in *.
  destruct (XQ.ltb (XQ.sub (XQ.Fin T) eps) (XQ.add (XQ.Fin c) x)) eqn:Hgt.
  - simpl. apply leb_true.
    replace (c + (T + - c))%Qc with T by ring. apply Qcle_refl.
  - destruct x as [y| | |]; try discriminate.
    destruct eps as [e| | |]; try discriminate.
    apply ltb_false in Hgt. apply leb_le in He. apply leb_true.
    apply Qcle_trans with (T + - e)%Qc; [exact Hgt|].
    apply Qcle_minus_iff. replace (T + - (T + - e))%Qc with e by ring.
    exact He.
Qed.


Lemma ltb_lt (x y : Qc) : XQ.ltb (XQ.Fin x) (XQ.Fin y) = true -> (x < y)%Qc.
Proof.
  unfold XQ.ltb. intros H. apply Qclt_alt.
  destruct (x ?= y)%Qc; try discriminate. reflexivity.
Qed.




End ExactFacts.

(** ** Telling two doubles apart *)

Lemma float_differ (a b : float) :
  PrimFloat.eqb a a = true -> PrimFloat.eqb a b = false -> a <> b.
Proof.
  intros Haa Hab E. rewrite <- E in Hab. congruence.
Qed.

(** * The specification, statement by statement *)

(** C1.  In every pass that reaches the end-of-step check, every cell
    [j < m] is advanced by forward Euler on the fluxes of that pass with
    [nu = tau/h]:
    [rho_new = rho - nu (F1[j+1] - F1[j])], the momentum and the energy
    likewise from [F2] and [F3], then [u = Mom/rho_new], [E = Ene/rho_new]
    and [p = (Ene - 0.5 Mom u) (gamma - 1)].  This holds in any arithmetic,
    binary64 included.  In arithmetic without rounding, at every cell that
    passes the update's own finiteness check the new row then satisfies
    [p = (gamma - 1) (rho E - 0.5 rho u^2)]. *)
Theorem C1_conservative_update :
  (forall (F : Type) (NF : Real64 F) minmod2 minmod3 solver m
          t_all eps gamma CFL h alpha tau_conf bound k (st st' : state F) j,
      wf_state m st ->
      completed minmod2 minmod3 solver m t_all eps gamma CFL h alpha tau_conf
                bound k st st' ->
      j < m ->
      forward_euler_at gamma h st st' j)
  /\
  (forall root minmod2 minmod3 solver m
          t_all eps gamma CFL h alpha tau_conf bound k (st st' : state XQ.t) j,
      wf_state m st ->
      @completed _ (exactQ root) minmod2 minmod3 solver m t_all eps gamma CFL h
                 alpha tau_conf bound k st st' ->
      j < m ->
      @finite_at _ (exactQ root) (row1 (CV st')) j ->
      @eos_identity_at _ (exactQ root) gamma (row1 (CV st')) j).
Proof.
  split.
  - intros. eapply completed_update; eassumption.
  - intros root minmod2 minmod3 solver m t_all eps gamma CFL h alpha tau_conf
           bound k st st' j Hwf Hc Hj (Hp & Hu & Hr).
    pose proof (@completed_update _ (exactQ root) minmod2 minmod3 solver m
                  t_all eps gamma CFL h alpha tau_conf bound k st st' j
                  Hwf Hc Hj) as Hfe.
    unfold forward_euler_at in Hfe. cbv zeta in Hfe.
    destruct Hfe as (_ & Eu & Ee & Ep).
    unfold eos_identity_at. rewrite Eu in Ep.
    rewrite Ep in Hp |- *. rewrite Eu in Hu |- *. rewrite Ee.
    apply (@eos_from_conserved root); assumption.
Qed.

Lemma C1_conservative_update_witness :
  forward_euler_at 1.5%float 0.5%float Sample.st0 Sample.st1 0
  /\ @eos_identity_at _ (exactQ Sample.root) (Sample.q 3 2)
       (row1 (CV Sample.xst1)) 0.
Proof.
  split.
  - apply (proj1 C1_conservative_update float binary64 spec_minmod2
             spec_minmod3 mean_solver 4 0.25%float 0.0009765625%float
             1.5%float 0.5%float 0.5%float 1.5%float infinity (-5)%Z 1%Z).
    + repeat split; reflexivity.
    + left. vm_compute. reflexivity.
    + lia.
  - apply (proj2 C1_conservative_update Sample.root
             (@spec_minmod2 _ (exactQ Sample.root))
             (@spec_minmod3 _ (exactQ Sample.root))
             (@mean_solver _ (exactQ Sample.root)) 2
             (Sample.q 1 4) (Sample.q 1 1024) (Sample.q 3 2) (Sample.q 1 2)
             (Sample.q 1 2) (Sample.q 3 2) XQ.PInf (-5)%Z 1%Z Sample.xst0).
    + repeat split; reflexivity.
    + left. vm_compute. reflexivity.
    + lia.
    + repeat split; vm_compute; reflexivity.
Defined.

(** C2.  At every interface [j <= m] of a pass that reaches its end, the
    fluxes are formed from the state half a time step after the solution
    [mid] that the linear GRP solver returns at that interface, along the
    temporal derivative [dire] it returns with it; the solver is called
    with the two states and the two slopes of the interface, [gamma] and
    [eps].  [F1 = rho u], [F2 = F1 u + p] and
    [F3 = ((gamma/(gamma-1)) p + 0.5 F1 u) u], in any arithmetic, binary64
    included.  In arithmetic without rounding, where the terms are finite,
    [F3 = (gamma/(gamma-1)) p u + 0.5 F1 u^2]. *)
Theorem C2_half_step_fluxes :
  (forall (F : Type) (NF : Real64 F) minmod2 minmod3 solver m
          t_all eps gamma CFL h alpha tau_conf bound k (st st' : state F) j,
      wf_state m st ->
      completed minmod2 minmod3 solver m t_all eps gamma CFL h alpha tau_conf
                bound k st st' ->
      j <= m ->
      let r := row0 (CV st) in
      let g := gh st' in
      let b := gs st' in
      let s := limited_slopes minmod2 minmod3 m h alpha k st st' in
      let '(rho_L, u_L, p_L) := left_state h r g b s j in
      let '(rho_R, u_R, p_R) := right_state m h r g b s j in
      let '(s_rho_L, s_u_L, s_p_L) := left_slope b s j in
      let '(s_rho_R, s_u_R, s_p_R) := right_slope m b s j in
      half_step_fluxes_at gamma
        (half_step (tau st')
           (solver rho_L rho_R s_rho_L s_rho_R u_L u_R s_u_L s_u_R
                   p_L p_R s_p_L s_p_R gamma eps))
        (fl st') j)
  /\
  (forall root minmod2 minmod3 solver m
          t_all eps gamma CFL h alpha tau_conf bound k (st st' : state XQ.t) j,
      wf_state m st ->
      @completed _ (exactQ root) minmod2 minmod3 solver m t_all eps gamma CFL h
                 alpha tau_conf bound k st st' ->
      j <= m ->
      let r := row0 (CV st) in
      let g := gh st' in
      let b := gs st' in
      let s := @limited_slopes _ (exactQ root) minmod2 minmod3 m h alpha
                               k st st' in
      let '(rho_L, u_L, p_L) := @left_state _ (exactQ root) h r g b s j in
      let '(rho_R, u_R, p_R) := @right_state _ (exactQ root) m h r g b s j in
      let '(s_rho_L, s_u_L, s_p_L) := @left_slope _ (exactQ root) b s j in
      let '(s_rho_R, s_u_R, s_p_R) := @right_slope _ (exactQ root) m b s j in
      let bar := @half_step _ (exactQ root) (tau st')
                   (solver rho_L rho_R s_rho_L s_rho_R u_L u_R s_u_L s_u_R
                           p_L p_R s_p_L s_p_R gamma eps) in
      @flux_terms_finite _ (exactQ root) gamma bar (fl st') j ->
      @energy_flux_at _ (exactQ root) gamma bar (fl st') j).
Proof.
  split.
  - intros F NF minmod2 minmod3 solver m t_all eps gamma CFL h alpha tau_conf
           bound k st st' j Hwf Hc Hj.
    pose proof (@completed_fluxes F NF minmod2 minmod3 solver m t_all eps gamma
                  CFL h alpha tau_conf bound k st st' j Hwf Hc Hj) as H.
    unfold interface_solution, solve in H. cbv zeta.
    destruct (left_state _ _ _ _ _ _) as [[rho_L u_L] p_L].
    destruct (right_state _ _ _ _ _ _ _) as [[rho_R u_R] p_R].
    destruct (left_slope _ _ _) as [[s_rho_L s_u_L] s_p_L].
    destruct (right_slope _ _ _ _) as [[s_rho_R s_u_R] s_p_R].
    destruct (solver _ _ _ _ _ _ _ _ _ _ _ _ _ _)
      as [[[d_rho d_u] d_p] [[m_rho m_u] m_p]].
    simpl in H |- *. tauto.
  - intros root minmod2 minmod3 solver m t_all eps gamma CFL h alpha tau_conf
           bound k st st' j Hwf Hc Hj.
    pose proof (@completed_fluxes _ (exactQ root) minmod2 minmod3 solver m
                  t_all eps gamma CFL h alpha tau_conf bound k st st' j
                  Hwf Hc Hj) as H.
    unfold interface_solution, solve in H. cbv zeta.
    destruct (left_state _ _ _ _ _ _) as [[rho_L u_L] p_L].
    destruct (right_state _ _ _ _ _ _ _) as [[rho_R u_R] p_R].
    destruct (left_slope _ _ _) as [[s_rho_L s_u_L] s_p_L].
    destruct (right_slope _ _ _ _) as [[s_rho_R s_u_R] s_p_R].
    destruct (solver _ _ _ _ _ _ _ _ _ _ _ _ _ _)
      as [[[d_rho d_u] d_p] [[m_rho m_u] m_p]].
    simpl in H |- *. intros Hfin.
    destruct H as ((_ & _ & E3) & _). destruct Hfin as (Hg & Hp & Hu & Hf).
    rewrite E3. apply (@energy_flux_expanded root); assumption.
Qed.

Lemma C2_half_step_fluxes_witness :
  half_step_fluxes_at 1.5%float
    (half_step (tau Sample.st1)
       (mean_solver 1.5%float 2.25%float 0%float 1%float
                    0.25%float 0.625%float 0%float 0.5%float
                    1.5%float 2.25%float 0%float 1%float
                    1.5%float 0.0009765625%float))
    (fl Sample.st1) 4
  /\ @energy_flux_at _ (exactQ Sample.root) (Sample.q 3 2)
       (@half_step _ (exactQ Sample.root) (tau Sample.xst1)
          (@interface_solution _ (exactQ Sample.root)
             (@spec_minmod2 _ (exactQ Sample.root))
             (@spec_minmod3 _ (exactQ Sample.root))
             (@mean_solver _ (exactQ Sample.root)) 2
             (Sample.q 1 1024) (Sample.q 3 2) (Sample.q 1 2) (Sample.q 3 2)
             1%Z Sample.xst0 Sample.xst1 2))
       (fl Sample.xst1) 2.
Proof.
  split.
  - assert (Hwf : wf_state 4 Sample.st0) by (repeat split; reflexivity).
    assert (Hc : completed spec_minmod2 spec_minmod3 mean_solver 4 0.25%float
                   0.0009765625%float 1.5%float 0.5%float 0.5%float 1.5%float
                   infinity (-5)%Z 1%Z Sample.st0 Sample.st1)
      by (left; vm_compute; reflexivity).
    pose proof (proj1 C2_half_step_fluxes float binary64 spec_minmod2
                  spec_minmod3 mean_solver 4 0.25%float 0.0009765625%float
                  1.5%float 0.5%float 0.5%float 1.5%float infinity (-5)%Z 1%Z
                  Sample.st0 Sample.st1 4 Hwf Hc (le_n 4)) as H.
    vm_compute in H. vm_compute. exact H.
  - assert (Hwf : wf_state 2 Sample.xst0) by (repeat split; reflexivity).
    assert (Hc : @completed _ (exactQ Sample.root)
                   (@spec_minmod2 _ (exactQ Sample.root))
                   (@spec_minmod3 _ (exactQ Sample.root))
                   (@mean_solver _ (exactQ Sample.root)) 2
                   (Sample.q 1 4) (Sample.q 1 1024) (Sample.q 3 2)
                   (Sample.q 1 2) (Sample.q 1 2) (Sample.q 3 2) XQ.PInf
                   (-5)%Z 1%Z Sample.xst0 Sample.xst1)
      by (left; vm_compute; reflexivity).
    pose proof (proj2 C2_half_step_fluxes Sample.root
                  (@spec_minmod2 _ (exactQ Sample.root))
                  (@spec_minmod3 _ (exactQ Sample.root))
                  (@mean_solver _ (exactQ Sample.root)) 2
                  (Sample.q 1 4) (Sample.q 1 1024) (Sample.q 3 2)
                  (Sample.q 1 2) (Sample.q 1 2) (Sample.q 3 2) XQ.PInf
                  (-5)%Z 1%Z Sample.xst0 Sample.xst1 2 Hwf Hc (le_n 2)) as H.
    vm_compute in H. vm_compute. apply H. repeat split; reflexivity.
Defined.

(** C3.  In a pass that reaches its end, when [t_all] is finite the time
    step is [tau = CFL h_S_max], where [h_S_max] is the running [fmin],
    from [INFINITY], of [h / (fabs(u_L) + fabs(c_L))] and
    [h / (fabs(u_R) + fabs(c_R))] with [c = sqrt(gamma p / rho)], over the
    two reconstructed states of the interfaces [0 .. m]; [tau] is replaced
    by [t_all - time_c] when [time_c + tau] would pass [t_all - eps].
    When [t_all] is not finite and the configured [tau] is finite and
    positive, the time step stays the configured one.  In arithmetic
    without rounding, with [eps] not negative, the finite time step so
    chosen does not carry [time_c] past [t_all]. *)
Theorem C3_time_step :
  (forall (F : Type) (NF : Real64 F) minmod2 minmod3 solver m
          t_all eps gamma CFL h alpha tau_conf bound k (st st' : state F),
      wf_state m st ->
      completed minmod2 minmod3 solver m t_all eps gamma CFL h alpha tau_conf
                bound k st st' ->
      let r := row0 (CV st) in
      let g := gh st' in
      let b := gs st' in
      let s := limited_slopes minmod2 minmod3 m h alpha k st st' in
      let quotient := fun w : F * F * F =>
        let '(rho, u, p) := w in
        h ./ (fabs u .+ fabs (sqrt (gamma .* p ./ rho))) in
      let h_S_max :=
        fold_left
          (fun acc j => fmin (fmin acc (quotient (left_state h r g b s j)))
                             (quotient (right_state m h r g b s j)))
          (seq 0 (S m)) INFINITY in
      (isfinite t_all = true ->
       cfl_time_step t_all eps CFL h_S_max
         (time_before minmod2 minmod3 solver m t_all eps gamma h alpha k st st')
         (tau st'))
      /\ (isfinite t_all = false -> isfinite tau_conf = true ->
          (tau_conf .<= c_0) = false -> tau st = tau_conf ->
          tau st' = tau_conf))
  /\
  (forall root (t_all eps CFL h_S_max time_c tau' : XQ.t),
      @cfl_time_step _ (exactQ root) t_all eps CFL h_S_max time_c tau' ->
      @isfinite _ (exactQ root) t_all = true ->
      @isfinite _ (exactQ root) time_c = true ->
      @isfinite _ (exactQ root) tau' = true ->
      @fle _ (exactQ root) (@c_0 _ (exactQ root)) eps = true ->
      @fle _ (exactQ root) (@fadd _ (exactQ root) time_c tau') t_all = true).
Proof.
  split.
  - intros F NF minmod2 minmod3 solver m t_all eps gamma CFL h alpha tau_conf
           bound k st st' Hwf Hc r g b s quotient h_S_max.
    pose proof (@completed_time_step F NF minmod2 minmod3 solver m t_all eps
                  gamma CFL h alpha tau_conf bound k st st' Hwf Hc) as Ht.
    unfold time_step in Ht. split.
    + intros Hfin. rewrite Hfin in Ht. exact Ht.
    + intros Hfin Hconf Hpos Hst. rewrite Hfin, Hconf, Hpos in Ht.
      simpl in Ht. congruence.
  - intros root t_all eps CFL h_S_max time_c tau' Htau Ht Hc Hf He.
    unfold cfl_time_step in Htau. subst tau'.
    apply (@clamp_bound root); assumption.
Qed.

Lemma C3_time_step_witness :
  cfl_time_step 0.25%float 0.0009765625%float 0.5%float
    (h_S_max_of spec_minmod2 spec_minmod3 4 1.5%float 0.5%float 1.5%float 1%Z
                Sample.st0 Sample.st1)
    (time_before spec_minmod2 spec_minmod3 mean_solver 4 0.25%float
                 0.0009765625%float 1.5%float 0.5%float 1.5%float 1%Z
                 Sample.st0 Sample.st1)
    (tau Sample.st1)
  /\ tau (state_of Sample.step1_fixed) = 0.03125%float
  /\ XQ.leb (XQ.add (Sample.q 0 1) (Sample.q 1 4)) (Sample.q 1 4) = true.
Proof.
  split; [|split].
  - apply (proj1 C3_time_step float binary64 spec_minmod2 spec_minmod3
             mean_solver 4 0.25%float 0.0009765625%float 1.5%float 0.5%float
             0.5%float 1.5%float infinity (-5)%Z 1%Z Sample.st0 Sample.st1).
    + repeat split; reflexivity.
    + left. vm_compute. reflexivity.
    + reflexivity.
  - apply (proj1 C3_time_step float binary64 spec_minmod2 spec_minmod3
             mean_solver 4 infinity 0.0009765625%float 1.5%float 0.5%float
             0.5%float 1.5%float 0.03125%float (-5)%Z 1%Z Sample.st0_fixed
             (state_of Sample.step1_fixed)).
    + repeat split; reflexivity.
    + left. vm_compute. reflexivity.
    + reflexivity.
    + reflexivity.
    + reflexivity.
    + reflexivity.
  - apply (proj2 C3_time_step Sample.root (Sample.q 1 4) (Sample.q 1 1024)
             (Sample.q 1 2) (Sample.q 1 1) (Sample.q 0 1) (Sample.q 1 4)).
    + vm_compute. reflexivity.
    + reflexivity.
    + reflexivity.
    + reflexivity.
    + reflexivity.
Defined.

(** C4.  In a pass of step [k] that reaches its end, the slopes handed
    to the linear GRP solver are the limited ones.  For each of [u], [p]
    and [rho] on its own, the slope [s[j]] of every cell [j < m] is
    [minmod2 s_L s_R] of the two one-sided difference quotients (with the
    boundary values beyond the ends) when [k = 1] and
    [minmod3 (alpha s_L) (alpha s_R) s_prev] otherwise, where [s_prev] is
    the slope the state held for that cell on entry, which is what the
    previous pass stored; and the temporal derivatives the pass keeps for
    every interface [j <= m] are those the solver returns when it is
    called with the states reconstructed from these slopes and with
    [s[j-1]] and [s[j]] as the slopes on its two sides (the boundary
    slopes at the ends). *)
Theorem C4_slope_limiting :
  forall (F : Type) (NF : Real64 F) minmod2 minmod3 solver m
         t_all eps gamma CFL h alpha tau_conf bound k (st st' : state F),
    wf_state m st ->
    completed minmod2 minmod3 solver m t_all eps gamma CFL h alpha tau_conf
              bound k st st' ->
    exists s : slopes F,
      let r := row0 (CV st) in
      let g := gh st' in
      let b := gs st' in
      (forall j, j < m ->
         minmod_limited_at minmod2 minmod3 m h alpha k
           (U r) (UL g) (UR g) (s_u (sl st)) (s_u s) j
         /\ minmod_limited_at minmod2 minmod3 m h alpha k
              (P r) (PL g) (PR g) (s_p (sl st)) (s_p s) j
         /\ minmod_limited_at minmod2 minmod3 m h alpha k
              (RHO r) (RHOL g) (RHOR g) (s_rho (sl st)) (s_rho s) j)
      /\ (forall j, j <= m ->
            let '(rho_L, u_L, p_L) := left_state h r g b s j in
            let '(rho_R, u_R, p_R) := right_state m h r g b s j in
            let s_L := if (j =? 0)%nat then (SRHOL b, SUL b, SPL b)
                       else (nth (j-1) (s_rho s) c_0, nth (j-1) (s_u s) c_0,
                             nth (j-1) (s_p s) c_0) in
            let s_R := if (j <? m)%nat
                       then (nth j (s_rho s) c_0, nth j (s_u s) c_0,
                             nth j (s_p s) c_0)
                       else (SRHOR b, SUR b, SPR b) in
            let '(s_rho_L, s_u_L, s_p_L) := s_L in
            let '(s_rho_R, s_u_R, s_p_R) := s_R in
            (nth j (RHO_t (ifc st')) c_0, nth j (U_t (ifc st')) c_0,
             nth j (P_t (ifc st')) c_0)
            = fst (solver rho_L rho_R s_rho_L s_rho_R u_L u_R s_u_L s_u_R
                          p_L p_R s_p_L s_p_R gamma eps)).
Proof.
  intros F NF minmod2 minmod3 solver m t_all eps gamma CFL h alpha tau_conf
         bound k st st' Hwf Hc.
  exists (limited_slopes minmod2 minmod3 m h alpha k st st'). cbv zeta. split.
  - intros j Hj. destruct Hwf as (_ & _ & Hs & _).
    destruct (@slope_loop_spec F NF minmod2 minmod3 m h alpha k
                (row0 (CV st)) (gh st') (sl st) Hs) as [_ Hv].
    destruct (Hv j Hj) as (Hu & Hp & Hr).
    split; [|split]; apply limited_spec; assumption.
  - intros j Hj.
    pose proof (@completed_fluxes F NF minmod2 minmod3 solver m t_all eps gamma
                  CFL h alpha tau_conf bound k st st' j Hwf Hc Hj) as H.
    unfold interface_solution, solve, left_slope, right_slope in H.
    destruct (left_state _ _ _ _ _ _) as [[rho_L u_L] p_L].
    destruct (right_state _ _ _ _ _ _ _) as [[rho_R u_R] p_R].
    destruct (j =? 0)%nat; destruct (j <? m)%nat;
      destruct (solver _ _ _ _ _ _ _ _ _ _ _ _ _ _)
        as [[[d_rho d_u] d_p] [[m_rho m_u] m_p]];
      simpl in H |- *; destruct H as (_ & (E1 & E2 & E3) & _);
      rewrite E1, E2, E3; reflexivity.
Qed.

Lemma C4_slope_limiting_witness :
  exists s : slopes float,
    minmod_limited_at spec_minmod2 spec_minmod3 4 0.5%float 1.5%float 1%Z
      (U (row0 (CV Sample.st0))) (UL (gh Sample.st1)) (UR (gh Sample.st1))
      (s_u (sl Sample.st0)) (s_u s) 0
    /\ (nth 4 (RHO_t (ifc Sample.st1)) 0%float,
        nth 4 (U_t (ifc Sample.st1)) 0%float,
        nth 4 (P_t (ifc Sample.st1)) 0%float)
       = fst (mean_solver
                (PrimFloat.add (nth 3 (RHO (row0 (CV Sample.st0))) 0%float)
                   (PrimFloat.mul (PrimFloat.mul 0.5%float 0.5%float)
                                  (nth 3 (s_rho s) 0%float)))
                (PrimFloat.add (RHOR (gh Sample.st1))
                   (PrimFloat.mul (PrimFloat.mul 0.5%float 0.5%float)
                                  (SRHOR (gs Sample.st1))))
                (nth 3 (s_rho s) 0%float) (SRHOR (gs Sample.st1))
                (PrimFloat.add (nth 3 (U (row0 (CV Sample.st0))) 0%float)
                   (PrimFloat.mul (PrimFloat.mul 0.5%float 0.5%float)
                                  (nth 3 (s_u s) 0%float)))
                (PrimFloat.add (UR (gh Sample.st1))
                   (PrimFloat.mul (PrimFloat.mul 0.5%float 0.5%float)
                                  (SUR (gs Sample.st1))))
                (nth 3 (s_u s) 0%float) (SUR (gs Sample.st1))
                (PrimFloat.add (nth 3 (P (row0 (CV Sample.st0))) 0%float)
                   (PrimFloat.mul (PrimFloat.mul 0.5%float 0.5%float)
                                  (nth 3 (s_p s) 0%float)))
                (PrimFloat.add (PR (gh Sample.st1))
                   (PrimFloat.mul (PrimFloat.mul 0.5%float 0.5%float)
                                  (SPR (gs Sample.st1))))
                (nth 3 (s_p s) 0%float) (SPR (gs Sample.st1))
                1.5%float 0.0009765625%float).
Proof.
  assert (Hwf : wf_state 4 Sample.st0) by (repeat split; reflexivity).
  assert (Hc : completed spec_minmod2 spec_minmod3 mean_solver 4 0.25%float
                 0.0009765625%float 1.5%float 0.5%float 0.5%float 1.5%float
                 infinity (-5)%Z 1%Z Sample.st0 Sample.st1)
    by (left; vm_compute; reflexivity).
  destruct (@C4_slope_limiting float binary64 spec_minmod2 spec_minmod3
              mean_solver 4 0.25%float 0.0009765625%float 1.5%float 0.5%float
              0.5%float 1.5%float infinity (-5)%Z 1%Z Sample.st0 Sample.st1
              Hwf Hc) as (s & H1 & H2).
  exists s. split.
  - exact (proj1 (H1 0 (Nat.lt_0_succ 3))).
  - exact (H2 4 (le_n 4)).
Defined.

(** C5, as stated, at a concrete input: after the first pass over the
    four sample cells, the slope of [u] stored for cell 1 is above the
    difference quotient of the half-step states of its two interfaces, so
    the stored slopes are not those of the half-step states. *)
Lemma C5_half_step_slopes_counterexample :
  let sol := interface_solution spec_minmod2 spec_minmod3 mean_solver 4
               0.0009765625%float 1.5%float 0.5%float 1.5%float 1%Z
               Sample.st0 Sample.st1 in
  let half := fun i => half_step (tau Sample.st1) (sol i) in
  completed spec_minmod2 spec_minmod3 mean_solver 4 0.25%float
            0.0009765625%float 1.5%float 0.5%float 0.5%float 1.5%float
            infinity (-5)%Z 1%Z Sample.st0 Sample.st1
  /\ PrimFloat.ltb
       (PrimFloat.div (PrimFloat.sub (snd (fst (half 2))) (snd (fst (half 1))))
                      0.5%float)
       (nth 1 (s_u (sl Sample.st1)) 0%float) = true
  /\ ~ slopes_between_at 0.5%float half (sl Sample.st1) 1.
Proof.
  split; [left; vm_compute; reflexivity|].
  split; [vm_compute; reflexivity|].
  intros H. vm_compute in H. destruct H as (H & _).
  revert H. apply float_differ; vm_compute; reflexivity.
Qed.

(** C5, amended.  In every pass, the slopes stored for the next step are,
    for each of [u], [p] and [rho] and every cell [j < m], the difference
    quotient [(V_next[j+1] - V_next[j])/h] of the interface states advanced
    by the whole time step (the solution of the solver plus twice
    [0.5 tau] times its temporal derivative), which the interface arrays
    hold after the fluxes are formed; the new cell values play no part. *)
Theorem C5_slopes_from_full_step :
  forall (F : Type) (NF : Real64 F) minmod2 minmod3 solver m
         t_all eps gamma CFL h alpha tau_conf bound k (st st' : state F) j,
    wf_state m st ->
    completed minmod2 minmod3 solver m t_all eps gamma CFL h alpha tau_conf
              bound k st st' ->
    j < m ->
    slopes_between_at h
      (fun i => full_step (tau st')
                  (interface_solution minmod2 minmod3 solver m eps gamma h
                                      alpha k st st' i))
      (sl st') j
    /\ slopes_between_at h
         (fun i => (nth i (RHO_next (ifc st')) c_0, nth i (U_next (ifc st')) c_0,
                    nth i (P_next (ifc st')) c_0))
         (sl st') j.
Proof.
  intros F NF minmod2 minmod3 solver m t_all eps gamma CFL h alpha tau_conf
         bound k st st' j Hwf Hc Hj.
  destruct (@completed_slopes F NF minmod2 minmod3 solver m t_all eps gamma
              CFL h alpha tau_conf bound k st st' j Hwf Hc Hj)
    as (Hfull & Su & Sp & Sr).
  split; [exact Hfull|].
  unfold slopes_between_at. auto.
Qed.

Lemma C5_slopes_from_full_step_witness :
  slopes_between_at 0.5%float
    (fun i => full_step (tau Sample.st1)
                (interface_solution spec_minmod2 spec_minmod3 mean_solver 4
                   0.0009765625%float 1.5%float 0.5%float 1.5%float 1%Z
                   Sample.st0 Sample.st1 i))
    (sl Sample.st1) 1.
Proof.
  refine (proj1 (@C5_slopes_from_full_step float binary64 spec_minmod2
            spec_minmod3 mean_solver 4 0.25%float 0.0009765625%float 1.5%float
            0.5%float 0.5%float 1.5%float infinity (-5)%Z 1%Z Sample.st0
            Sample.st1 1 _ _ _)).
  - repeat split; reflexivity.
  - left. vm_compute. reflexivity.
  - lia.
Defined.

(** C6.  Whatever way a pass ends, under a recognised tag the state it
    leaves holds the boundary values and slopes of the tag's rule: -1
    takes cells 0 and m-1 in the first pass and keeps those values in the
    later ones; -2 negates the velocity of the boundary cell, copies its
    pressure and density and takes the negated slope of the velocity; -4
    copies the boundary cell; -5 takes the left values and slopes from the
    last cell and the right ones from the first; -24 is -2 on the left and
    -4 on the right.  The slopes a rule does not assign stay what they
    were, zero from the start.  Under any other tag the pass prints that
    there is no suitable boundary condition and leaves the stepper. *)
Theorem C6_boundary_rules :
  forall (F : Type) (NF : Real64 F) minmod2 minmod3 solver m
         t_all eps gamma CFL h alpha tau_conf bound k (st : state F),
    let pass := step minmod2 minmod3 solver m t_all eps gamma CFL h alpha
                     tau_conf bound k st in
    (recognised bound = true ->
     ghost_rule bound m (negb (find_bound st)) (row0 (CV st))
       (limited_slopes minmod2 minmod3 m h alpha k st (state_of pass))
       (gh st) (gh (state_of pass)) (gs st) (gs (state_of pass))
     /\ find_bound (state_of pass) = true)
    /\ (recognised bound = false ->
        pass = Abort (say No_suitable_boundary st))
    /\ (forall cv conf,
          find_bound (initial m cv conf) = false
          /\ gs (initial m cv conf) = zero_ghost_slope).
Proof.
  intros F NF minmod2 minmod3 solver m t_all eps gamma CFL h alpha tau_conf
         bound k st pass.
  split; [|split].
  - intros Hrec. apply step_boundary. exact Hrec.
  - intros Hrec. apply step_unrecognised. exact Hrec.
  - intros cv conf. split; reflexivity.
Qed.

Lemma C6_boundary_rules_witness :
  (ghost_rule (-5) 4 true (row0 (CV Sample.st0))
     (limited_slopes spec_minmod2 spec_minmod3 4 0.5%float 1.5%float 1%Z
                     Sample.st0 Sample.st1)
     (gh Sample.st0) (gh Sample.st1) (gs Sample.st0) (gs Sample.st1)
   /\ find_bound Sample.st1 = true)
  /\ step spec_minmod2 spec_minmod3 mean_solver 4 0.25%float
          0.0009765625%float 1.5%float 0.5%float 0.5%float 1.5%float
          infinity 7%Z 1%Z Sample.st0
     = Abort (say No_suitable_boundary Sample.st0).
Proof.
  split.
  - refine (proj1 (@C6_boundary_rules float binary64 spec_minmod2 spec_minmod3
              mean_solver 4 0.25%float 0.0009765625%float 1.5%float 0.5%float
              0.5%float 1.5%float infinity (-5)%Z 1%Z Sample.st0) _).
    reflexivity.
  - refine (proj1 (proj2 (@C6_boundary_rules float binary64 spec_minmod2
              spec_minmod3 mean_solver 4 0.25%float 0.0009765625%float
              1.5%float 0.5%float 0.5%float 1.5%float infinity 7%Z 1%Z
              Sample.st0)) _).
    reflexivity.
Defined.

(** C7 at an input where the stepper does not do what is stated: the
    four sample cells with periodic boundaries, with a solver that hands
    back the right state it is given.  The domain is periodic, so
    interface 4 is interface 0: cell 0 lies on the right of both.  At
    interface 0 the first pass forms the right state from cell 0 minus
    half a cell of its slope, 0.375 for the velocity, as stated.  At
    interface 4 it forms it from the boundary value, which is cell 0, plus
    half a cell of the boundary slope, which is the slope of cell 0:
    0.625, where the statement gives 0.375 again. *)
Theorem C7_periodic_right_state :
  let st' := state_of Sample.step1_echo in
  let r := row0 (CV Sample.st0) in
  let s := limited_slopes spec_minmod2 spec_minmod3 4 0.5%float 1.5%float 1%Z
                          Sample.st0 st' in
  Sample.step1_echo = Next st'
  /\ (UR (gh st'), SUR (gs st')) = (nth 0 (U r) 0%float, nth 0 (s_u s) 0%float)
  /\ right_state 4 0.5%float r (gh st') (gs st') s 0
     = (1.75, 0.375, 1.75)%float
  /\ right_state 4 0.5%float r (gh st') (gs st') s 4
     = (2.25, 0.625, 2.25)%float
  /\ symmetric_right_state 4 0.5%float r (gh st') (gs st') s 4
     = (1.75, 0.375, 1.75)%float
  /\ nth 0 (U_next (ifc st')) 0%float = 0.375%float
  /\ nth 4 (U_next (ifc st')) 0%float = 0.625%float.
Proof.
  cbv zeta. repeat (split; [vm_compute; reflexivity|]). vm_compute. reflexivity.
Qed.




(** C9, as stated, at a concrete input: two cells at rest with density
    0.25 and pressure 2^1022, [gamma = 3], [h = 0.5].  The sound speed
    overflows, [h_S_max] is 0, and the first pass goes on to the next step
    with the time step 0 and nothing printed but the boundary conditions;
    the whole run makes its 3 steps and prints no line of any error. *)
Lemma C9_cfl_zero_counterexample :
  let st' := state_of Sample.stiff_step1 in
  let run := GRP_solver_EUL_source spec_minmod2 spec_minmod3 mean_solver 2
               Sample.cv_stiff Sample.conf_stiff in
  h_S_max_of spec_minmod2 spec_minmod3 2 3%float 0.5%float 1.5%float 1%Z
             Sample.stiff0 st' = 0%float
  /\ Sample.stiff_step1 = Next st'
  /\ tau st' = 0%float
  /\ out st' = [Alpha_is 1.5%float; Boundary_conditions (-4)]
  /\ run = Next (state_of run)
  /\ out (state_of run)
     = [Alpha_is 1.5%float; Boundary_conditions (-4); Time_is_up 4;
        Cpu_time_cost].
Proof.
  cbv zeta. repeat (split; [vm_compute; reflexivity|]). vm_compute. reflexivity.
Qed.

(** C9, amended.  The stepper makes no check on [h_S_max].  In a pass under
    a recognised tag whose reconstructed states all pass their checks,
    whatever [h_S_max] comes to, the time step of C3 is taken as it is,
    the fluxes and the cells are computed with it and the pass reaches the
    end-of-step check; all it prints are the lines of the checks on the
    solutions at the interfaces and on the new cells that fail, after the
    boundary conditions in the first pass. *)
Theorem C9_no_cfl_check :
  forall (F : Type) (NF : Real64 F) minmod2 minmod3 solver m
         t_all eps gamma CFL h alpha tau_conf bound k (st : state F),
    wf_state m st -> recognised bound = true ->
    let st' := state_of (step minmod2 minmod3 solver m t_all eps gamma CFL h
                              alpha tau_conf bound k st) in
    let r := row0 (CV st) in
    let s := limited_slopes minmod2 minmod3 m h alpha k st st' in
    let L := symmetric_left_state h r (gh st') (gs st') s in
    let R := ghost_right_state m h r (gh st') (gs st') s in
    (forall j, j <= m -> states_below_eps eps (L j) (R j) = false
                         /\ states_not_finite (L j) (R j) = false) ->
    completed minmod2 minmod3 solver m t_all eps gamma CFL h alpha tau_conf
              bound k st st'
    /\ tau st' = time_step t_all eps CFL tau_conf
                   (h_S_max_of minmod2 minmod3 m gamma h alpha k st st')
                   (time_before minmod2 minmod3 solver m t_all eps gamma h
                                alpha k st st')
                   (tau st)
    /\ exists msg,
         (msg = [] \/ msg = [Boundary_conditions bound])
         /\ out st' = out st ++ msg
                      ++ star_lines minmod2 minmod3 solver m eps gamma h alpha
                                    k st st'
                      ++ update_lines m eps gamma h k st st'.
Proof.
  intros F NF minmod2 minmod3 solver m t_all eps gamma CFL h alpha tau_conf
         bound k st Hwf Hrec st' r s L R Hok.
  destruct (@step_reconstruction F NF minmod2 minmod3 solver m t_all eps gamma
              CFL h alpha tau_conf bound k st Hwf Hrec)
    as [[Hc _]|(_ & _ & _ & j & Hj & _ & o & Hf)].
  - fold st' in Hc. split; [exact Hc|]. split.
    + exact (completed_time_step Hwf Hc).
    + destruct (completed_lines Hwf Hc) as ((msg & Hb & Ho) & _).
      exists msg. split; [|exact Ho].
      eapply boundary_lines. exact Hb.
  - exfalso. fold st' r s L R in Hf. destruct (Hok j Hj) as [H1 H2].
    destruct Hf as [[Hf _]|(_ & Hf & _)]; congruence.
Qed.

Lemma C9_no_cfl_check_witness :
  completed spec_minmod2 spec_minmod3 mean_solver 2 0.25%float
            0.0009765625%float 3%float 0.5%float 0.5%float 1.5%float infinity
            (-4)%Z 1%Z Sample.stiff0 (state_of Sample.stiff_step1).
Proof.
  assert (Hwf : wf_state 2 Sample.stiff0) by (repeat split; reflexivity).
  refine (proj1 (@C9_no_cfl_check float binary64 spec_minmod2 spec_minmod3
            mean_solver 2 0.25%float 0.0009765625%float 3%float 0.5%float
            0.5%float 1.5%float infinity (-4)%Z 1%Z Sample.stiff0 Hwf eq_refl
            _)).
  intros j Hj.
  destruct j as [|[|[|j]]]; try lia; split; vm_compute; reflexivity.
Defined.

(** C10.  Whenever the stepper is left by the end-of-step time check,
    [config[5]], which held the maximum number of steps on entry, holds
    the index [k] of the step made last, between 1 and that maximum, and
    no other entry of [config] has changed; the last line printed names
    that step.  When the stepper ends otherwise, [config] is as it was. *)
Theorem C10_config_overwritten :
  forall (F : Type) (NF : Real64 F) minmod2 minmod3 solver m cv
         (conf : list F),
    5 < length conf ->
    match GRP_solver_EUL_source minmod2 minmod3 solver m cv conf with
    | Break st' =>
        exists k, (1 <= k <= to_int (nth 5 conf c_0))%Z
          /\ config st' = upd conf 5 (of_int k)
          /\ nth 5 (config st') c_0 = of_int k
          /\ time_is_up (nth 1 conf c_0) (nth 4 conf c_0) (time_c st') = true
          /\ exists o, out st' = o ++ [Time_is_up k; Cpu_time_cost]
    | Next st' | Abort st' => config st' = conf
    end.
Proof.
  intros F NF minmod2 minmod3 solver m cv conf Hlen.
  unfold GRP_solver_EUL_source.
  match goal with |- match main_loop ?a ?b ?c ?d ?e ?f ?g ?h ?i ?j ?k ?l ?n ?o ?st with _ => _ end =>
    pose proof (@main_loop_config F NF a b c d e f g h i j k l n o st) as H;
    destruct (main_loop a b c d e f g h i j k l n o st) as [st'|st'|st']
  end.
  - exact H.
  - destruct H as (k & Hk & Hc & Hup & Ho). exists k.
    split; [lia|]. split; [exact Hc|]. split.
    + rewrite Hc. simpl config. apply nth_upd_same. exact Hlen.
    + split; assumption.
  - exact H.
Qed.

Lemma C10_config_overwritten_witness :
  match Sample.run with
  | Break st' =>
      exists k, (1 <= k <= to_int (nth 5 Sample.conf c_0))%Z
        /\ config st' = upd Sample.conf 5 (of_int k)
        /\ nth 5 (config st') c_0 = of_int k
        /\ time_is_up (nth 1 Sample.conf c_0) (nth 4 Sample.conf c_0)
                      (time_c st') = true
        /\ exists o, out st' = o ++ [Time_is_up k; Cpu_time_cost]
  | Next st' | Abort st' => config st' = Sample.conf
  end.
Proof.
  apply (@C10_config_overwritten float binary64 spec_minmod2 spec_minmod3
           mean_solver 4 Sample.cv Sample.conf).
  vm_compute. lia.
Defined.

(** The run over the four sample cells makes its steps without a line of
    any error and is left by the time check in step 3: [config[5]], 5 on
    entry, is 3 on return. *)
Example sample_run_overwrites_config :
  Sample.run = Break (state_of Sample.run)
  /\ out (state_of Sample.run)
     = [Alpha_is 1.5%float; Boundary_conditions (-5); Time_is_up 3;
        Cpu_time_cost]
  /\ nth 5 Sample.conf 0%float = 5%float
  /\ nth 5 (config (state_of Sample.run)) 0%float = 3%float.
Proof.
  split; [|split; [|split]]; vm_compute; reflexivity.
Qed.

(** * More of the stepper: whole runs *)

Section RunFacts.

Context {F : Type} {NF : Real64 F}.

Local Notation "a .[ j ]" := (nth j a c_0) (at level 1, left associativity,
  format "a .[ j ]").

Variable minmod2 : F -> F -> F.
Variable minmod3 : F -> F -> F -> F.
Variable linear_GRP_solver_Edir :
  F -> F -> F -> F -> F -> F -> F -> F -> F -> F -> F -> F -> F -> F ->
  (F * F * F) * (F * F * F).
Variable m : nat.
Variables t_all eps gamma CFL h alpha tau_conf : F.
Variable bound : Z.

Local Abbreviation step :=
  (step minmod2 minmod3 linear_GRP_solver_Edir m t_all eps gamma CFL h alpha
        tau_conf bound).
Local Abbreviation main_loop :=
  (main_loop minmod2 minmod3 linear_GRP_solver_Edir m t_all eps gamma CFL h
             alpha tau_conf bound).

(** The loop left by its condition: every pass went on, and the line
    printed last names the step after the last one. *)
Lemma main_loop_exhausted (steps : nat) (k0 : Z) (st st' : state F) :
  main_loop steps k0 st = Next st' ->
  exists o,
    out st' = o ++ [Time_is_up (k0 + Z.of_nat steps); Cpu_time_cost].
Proof.
  revert k0 st. induction steps as [|steps IH]; intros k0 st H.
  - simpl in H. injection H as <-. exists (out st). simpl.
    rewrite Z.add_0_r, <- app_assoc. reflexivity.
  - simpl in H. destruct (step k0 st) as [st1|st1|st1]; try discriminate.
    destruct (IH _ _ H) as (o & Ho). exists o. rewrite Ho.
    replace (k0 + 1 + Z.of_nat steps)%Z with (k0 + Z.of_nat (S steps))%Z
      by lia.
    reflexivity.
Qed.

(** The time step of a pass when none is computed from the CFL number. *)
Lemma step_tau_fixed (k : Z) (st : state F) :
  isfinite t_all = false -> isfinite tau_conf = true ->
  (tau_conf .<= c_0) = false ->
  tau (state_of (step k st)) = tau st.
Proof.
  intros Ht Hc Hp. unfold step.
  destruct (boundary m bound (find_bound st) (row0 (CV st)) (gh st))
    as [[g msg]|]; [|reflexivity].
  match goal with |- context [match ?x with inl _ => _ | inr _ => _ end] =>
    destruct x as [a|a] end; [reflexivity|].
  unfold time_step. rewrite Ht, Hc, Hp. simpl.
  match goal with |- context [flux_loop ?a ?b ?c ?d] =>
    destruct (flux_loop a b c d) as [i f] end.
  match goal with |- context [if ?x then _ else _] => destruct x end;
    reflexivity.
Qed.

Lemma main_loop_tau_fixed (steps : nat) (k0 : Z) (st : state F) :
  isfinite t_all = false -> isfinite tau_conf = true ->
  (tau_conf .<= c_0) = false ->
  tau (state_of (main_loop steps k0 st)) = tau st.
Proof.
  intros Ht Hc Hp. revert k0 st.
  induction steps as [|steps IH]; intros k0 st; [reflexivity|].
  simpl. pose proof (step_tau_fixed k0 st Ht Hc Hp) as Hs.
  destruct (step k0 st) as [st1|st1|st1]; simpl in Hs |- *; try exact Hs.
  rewrite IH. exact Hs.
Qed.

(** The boundary values of a pass under the tag -1. *)
Lemma step_frozen (k : Z) (st : state F) :
  bound = (-1)%Z ->
  gh (state_of (step k st))
  = (if find_bound st then gh st
     else {| UL := (U (row0 (CV st))).[0]; UR := (U (row0 (CV st))).[m-1];
             PL := (P (row0 (CV st))).[0]; PR := (P (row0 (CV st))).[m-1];
             RHOL := (RHO (row0 (CV st))).[0];
             RHOR := (RHO (row0 (CV st))).[m-1] |})
  /\ find_bound (state_of (step k st)) = true.
Proof.
  intros Hb. unfold step, boundary. rewrite Hb.
  destruct (find_bound st);
    match goal with |- context [match ?x with inl _ => _ | inr _ => _ end] =>
      destruct x as [a|a] end; try (split; reflexivity);
    match goal with |- context [flux_loop ?a ?b ?c ?d] =>
      destruct (flux_loop a b c d) as [i f] end;
    match goal with |- context [if ?x then _ else _] => destruct x end;
    split; reflexivity.
Qed.

Lemma main_loop_frozen (steps : nat) (k0 : Z) (st : state F) :
  bound = (-1)%Z ->
  let st' := state_of (main_loop steps k0 st) in
  (find_bound st = true -> gh st' = gh st)
  /\ (find_bound st = false -> steps <> 0 ->
      gh st' = {| UL := (U (row0 (CV st))).[0]; UR := (U (row0 (CV st))).[m-1];
                  PL := (P (row0 (CV st))).[0]; PR := (P (row0 (CV st))).[m-1];
                  RHOL := (RHO (row0 (CV st))).[0];
                  RHOR := (RHO (row0 (CV st))).[m-1] |}).
Proof.
  intros Hb. revert k0 st. induction steps as [|steps IH]; intros k0 st.
  - simpl. split; [reflexivity|intros _ H; contradiction H; reflexivity].
  - cbv zeta. simpl. destruct (step_frozen k0 st Hb) as [Hg Hf].
    destruct (step k0 st) as [st1|st1|st1]; simpl in Hg, Hf |- *.
    + split; [intros H|intros H _]; rewrite H in Hg; exact Hg.
    + split; [intros H|intros H _]; rewrite H in Hg; exact Hg.
    + destruct (IH (k0 + 1)%Z st1) as [IH1 _]. cbv zeta in IH1.
      rewrite (IH1 Hf).
      split; [intros H|intros H _]; rewrite H in Hg; exact Hg.
Qed.

(** Lists of one length that agree at every index are one list. *)
Lemma nth_eq (a b : list F) :
  length a = length b -> (forall j, j < length a -> a.[j] = b.[j]) -> a = b.
Proof.
  intros Hl Hn. apply (nth_ext a b c_0 c_0 Hl). exact Hn.
Qed.

(** The copy at the end of a pass leaves row [n-1] equal to row [n]. *)
Lemma copy_loop_all (src dst : row F) :
  wf_row m src -> wf_row m dst -> copy_loop m src dst = src.
Proof.
  intros (M1 & M2 & M3 & M4) Hd.
  destruct (@copy_loop_spec _ _ m src dst Hd) as ((L1 & L2 & L3 & L4) & Hcp).
  destruct (copy_loop m src dst) as [a1 a2 a3 a4].
  destruct src as [b1 b2 b3 b4]. simpl in *.
  f_equal; apply nth_eq; try congruence; intros j Hj;
    apply Hcp; congruence.
Qed.

(** After a pass that goes on, the two rows hold the same cells. *)
Lemma step_next_rows (k : Z) (st st' : state F) :
  wf_state m st -> step k st = Next st' -> row0 (CV st') = row1 (CV st').
Proof.
  intros Hwf Hs.
  assert (Hc : completed minmod2 minmod3 linear_GRP_solver_Edir m t_all eps
                 gamma CFL h alpha tau_conf bound k st st') by (left; exact Hs).
  pose proof (completed_wf Hwf Hc) as (_ & Hw1 & _).
  destruct Hwf as (Hr0 & _).
  unfold step in Hs.
  destruct (boundary m bound (find_bound st) (row0 (CV st)) (gh st))
    as [[g msg]|]; [|discriminate].
  match type of Hs with context [match ?x with inl _ => _ | inr _ => _ end] =>
    destruct x as [a|a] end; [discriminate|].
  match type of Hs with context [flux_loop ?a ?b ?c ?d] =>
    destruct (flux_loop a b c d) as [i f] end.
  match type of Hs with context [if ?x then _ else _] => destruct x end;
    [discriminate|].
  injection Hs as <-. simpl in *.
  apply copy_loop_all; assumption.
Qed.

(** A run the loop condition ends, after one pass at least, leaves the
    two rows equal. *)
Lemma main_loop_next_rows (steps : nat) (k0 : Z) (st st' : state F) :
  wf_state m st -> steps <> 0 -> main_loop steps k0 st = Next st' ->
  row0 (CV st') = row1 (CV st').
Proof.
  revert k0 st. induction steps as [|steps IH]; intros k0 st Hwf Hn H;
    [contradiction Hn; reflexivity|].
  simpl in H. destruct (step k0 st) as [st1|st1|st1] eqn:Hs; try discriminate.
  destruct steps as [|steps].
  - simpl in H. injection H as <-. simpl.
    apply (@step_next_rows k0 st st1 Hwf Hs).
  - apply (IH (k0 + 1)%Z st1); [|discriminate|exact H].
    refine (completed_wf Hwf (k := k0) (st' := st1) _). left. exact Hs.
Qed.

End RunFacts.

(** ** Totals *)

Section TotalFacts.

Context {F : Type} {NF : Real64 F}.

Lemma total_S (m : nat) (a : nat -> F) : total (S m) a = total m a .+ a m.
Proof. unfold total. rewrite for_loop_S. reflexivity. Qed.

Lemma total_ext (m : nat) (a b : nat -> F) :
  (forall j, j < m -> a j = b j) -> total m a = total m b.
Proof.
  induction m as [|m IH]; intros H; [reflexivity|].
  rewrite !total_S, IH, H; auto.
Qed.
End TotalFacts.

(** ** Arithmetic without rounding: order, finite values, sums *)

Section ExactRunFacts.

Variable root : Qc -> Qc.

Local Instance exact_run_arith : Real64 XQ.t := exactQ root.

Local Notation "a .[ j ]" := (nth j a c_0) (at level 1, left associativity,
  format "a .[ j ]").

Lemma leb_refl (a : XQ.t) : a <> XQ.NaN -> XQ.leb a a = true.
Proof.
  destruct a as [x| | |]; intros H; try reflexivity; [|contradiction H; reflexivity].
  apply leb_true, Qcle_refl.
Qed.

Lemma ltb_leb (a b : XQ.t) : XQ.ltb a b = true -> XQ.leb a b = true.
Proof.
  destruct a as [x| | |], b as [y| | |]; simpl; try discriminate; auto.
  destruct (x ?= y)%Qc; try discriminate; reflexivity.
Qed.

Lemma not_ltb_leb (a b : XQ.t) :
  a <> XQ.NaN -> b <> XQ.NaN -> XQ.ltb b a = false -> XQ.leb a b = true.
Proof.
  destruct a as [x| | |], b as [y| | |]; try discriminate; auto;
    try (intros H; contradiction H; reflexivity);
    try (intros _ H; contradiction H; reflexivity).
  intros _ _ H. apply leb_true, ltb_false, H.
Qed.

Lemma leb_trans (a b c : XQ.t) :
  XQ.leb a b = true -> XQ.leb b c = true -> XQ.leb a c = true.
Proof.
  destruct a as [x| | |], b as [y| | |], c as [z| | |];
    try discriminate; auto.
  intros H1 H2. apply leb_true.
  apply Qcle_trans with y; apply leb_le; assumption.
Qed.

(** [fmin] of <math.h>: the smaller of the two, and the other one when
    one is not a number. *)
Lemma fmin_not_nan (a b : XQ.t) : a <> XQ.NaN -> XQ.fmin a b <> XQ.NaN.
Proof.
  destruct a, b; simpl; intros H; try exact H; try discriminate;
    match goal with |- context [if ?c then _ else _] => destruct c end;
    discriminate.
Qed.

Lemma fmin_le_l (a b : XQ.t) :
  a <> XQ.NaN -> XQ.leb (XQ.fmin a b) a = true.
Proof.
  intros Ha. destruct (XQ.ltb b a) eqn:Hlt.
  - replace (XQ.fmin a b) with b.
    + apply ltb_leb, Hlt.
    + destruct a, b; try discriminate; simpl in *; try rewrite Hlt;
        try reflexivity; contradiction Ha; reflexivity.
  - replace (XQ.fmin a b) with a; [apply leb_refl, Ha|].
    destruct a, b; simpl in *; try rewrite Hlt; try reflexivity;
      try discriminate; contradiction Ha; reflexivity.
Qed.

Lemma fmin_le_r (a b : XQ.t) :
  b <> XQ.NaN -> XQ.leb (XQ.fmin a b) b = true.
Proof.
  intros Hb.
  assert (Ha : a = XQ.NaN \/ a <> XQ.NaN)
    by (destruct a; [right|right|right|left]; try discriminate; reflexivity).
  destruct Ha as [->|Ha]; [apply leb_refl, Hb|].
  assert (E : XQ.fmin a b = if XQ.ltb b a then b else a).
  { destruct a, b; try reflexivity; try (contradiction Ha; reflexivity);
      contradiction Hb; reflexivity. }
  rewrite E. destruct (XQ.ltb b a) eqn:Hlt;
    [apply leb_refl, Hb|apply not_ltb_leb; assumption].
Qed.

Lemma finite_inv (x : XQ.t) : isfinite x = true -> exists q, x = XQ.Fin q.
Proof. destruct x; try discriminate. eauto. Qed.

Ltac by_cases :=
  repeat match goal with
         | |- context [if ?c then _ else _] => destruct c
         end.

(** A finite [a - n * (x - y)] from a finite [a]. *)
Lemma finite_change (a n x y : XQ.t) :
  isfinite a = true -> isfinite (a .- n .* (x .- y)) = true ->
  isfinite n = true /\ isfinite x = true /\ isfinite y = true.
Proof.
  destruct a as [a| | |]; try discriminate. intros _.
  destruct n as [n| | |], x as [x| | |], y as [y| | |]; simpl;
    unfold XQ.sub, XQ.mul_inf, XQ.sgn_inf; simpl;
    unfold XQ.mul_inf, XQ.sgn_inf; by_cases; simpl;
    try discriminate; auto.
Qed.

Lemma finite_quotient (a b : XQ.t) :
  isfinite b = true -> isfinite (a ./ b) = true ->
  isfinite a = true /\ b .* (a ./ b) = a.
Proof.
  destruct b as [b| | |]; try discriminate. intros _.
  destruct a as [a| | |]; simpl; unfold XQ.sgn_inf;
    try (by_cases; discriminate).
  destruct (XQ.is_zero b) eqn:Hb; [by_cases; discriminate|].
  intros _. split; [reflexivity|]. f_equal. field.
  apply is_zero_false with (1 := Hb).
Qed.

Lemma finite_pressure (e mo u g : XQ.t) :
  isfinite mo = true -> isfinite u = true ->
  isfinite ((e .- c_half .* mo .* u) .* (g .- c_1)) = true ->
  isfinite e = true.
Proof.
  destruct mo as [mo| | |]; try discriminate.
  destruct u as [u| | |]; try discriminate. intros _ _.
  destruct e as [e| | |], g as [g| | |]; simpl;
    unfold XQ.sub, XQ.mul_inf, XQ.sgn_inf; simpl;
    unfold XQ.mul_inf, XQ.sgn_inf; by_cases; simpl;
    try discriminate; auto.
Qed.

(** The sum of finite changes telescopes. *)
Lemma total_telescopes (c : nat) (a f : nat -> XQ.t) (n : XQ.t) :
  isfinite n = true ->
  (forall j, j < c -> isfinite (a j) = true) ->
  (forall j, j <= c -> isfinite (f j) = true) ->
  isfinite (total c a) = true
  /\ total c (fun j => a j .- n .* (f (j + 1) .- f j))
     = total c a .- n .* (f c .- f 0).
Proof.
  intros Hn. destruct (finite_inv _ Hn) as (nq & ->).
  induction c as [|c IH]; intros Ha Hf.
  - split; [reflexivity|]. unfold total, for_loop. simpl.
    destruct (finite_inv _ (Hf 0 (le_n 0))) as (q & ->). simpl.
    f_equal. ring.
  - destruct IH as [IH1 IH2]; [intros; apply Ha; lia|intros; apply Hf; lia|].
    rewrite !total_S, IH2.
    destruct (finite_inv _ IH1) as (s & ->).
    destruct (finite_inv _ (Ha c (Nat.lt_succ_diag_r c))) as (ac & ->).
    destruct (finite_inv _ (Hf 0 (Nat.le_0_l _))) as (f0 & ->).
    destruct (finite_inv _ (Hf c (Nat.le_succ_diag_r c))) as (fc & ->).
    replace (c + 1) with (S c) by lia.
    destruct (finite_inv _ (Hf (S c) (le_n _))) as (fs & ->).
    simpl. split; [reflexivity|]. f_equal. ring.
Qed.


Lemma finite_ratio (a b : XQ.t) :
  isfinite b = true -> isfinite (a ./ b) = true ->
  forall a', isfinite a' = true -> b .* (a' ./ b) = a'.
Proof.
  destruct b as [b| | |]; try discriminate. intros _.
  destruct a as [a| | |]; simpl; unfold XQ.sgn_inf;
    try (by_cases; discriminate).
  destruct (XQ.is_zero b) eqn:Hb; [by_cases; discriminate|].
  intros _ [a'| | |]; try discriminate. intros _. simpl. rewrite Hb.
  simpl. f_equal. field. apply is_zero_false with (1 := Hb).
Qed.

Lemma finite_product (a b : XQ.t) :
  isfinite a = true -> isfinite b = true -> isfinite (a .* b) = true.
Proof. destruct a, b; try discriminate. reflexivity. Qed.

(** *** The running minimum of the interface loop *)

Section MinimumFacts.

Variable m : nat.
Variables gamma h : XQ.t.
Variable r : row XQ.t.
Variable g : ghost XQ.t.
Variable b : ghost_slope XQ.t.
Variable s : slopes XQ.t.

Lemma h_S_max_upto_bound (c : nat) (start : XQ.t) :
  start <> XQ.NaN ->
  let hs := h_S_max_upto m gamma h r g b s c start in
  hs <> XQ.NaN
  /\ (hs .<= start) = true
  /\ forall j, j < c ->
       let x := h_over_speed gamma h (left_state h r g b s j) in
       let y := h_over_speed gamma h (right_state m h r g b s j) in
       (x <> XQ.NaN -> (hs .<= x) = true)
       /\ (y <> XQ.NaN -> (hs .<= y) = true).
Proof.
  intros Hs. induction c as [|c IH].
  - simpl. split; [exact Hs|]. split; [apply leb_refl, Hs|]. intros j Hj. lia.
  - cbv zeta in *. unfold h_S_max_upto in *.
    rewrite seq_S, fold_left_app. simpl.
    destruct IH as (I1 & I2 & I3).
    set (acc := fold_left _ (seq 0 c) start) in *.
    set (x := h_over_speed gamma h (left_state h r g b s c)).
    set (y := h_over_speed gamma h (right_state m h r g b s c)).
    assert (A1 : XQ.fmin acc x <> XQ.NaN) by (apply fmin_not_nan, I1).
    assert (L1 : XQ.leb (XQ.fmin (XQ.fmin acc x) y) (XQ.fmin acc x) = true)
      by (apply fmin_le_l, A1).
    assert (L2 : XQ.leb (XQ.fmin (XQ.fmin acc x) y) acc = true)
      by (apply leb_trans with (1 := L1), fmin_le_l, I1).
    split; [apply fmin_not_nan, A1|].
    split; [apply leb_trans with (1 := L2), I2|].
    intros j Hj. destruct (Nat.eq_dec j c) as [->|Hne].
    + fold x y. split; intros Hn.
      * apply leb_trans with (1 := L1), fmin_le_r, Hn.
      * apply fmin_le_r, Hn.
    + assert (Hp : j < c) by lia. destruct (I3 j Hp) as [J1 J2].
      split; intros Hn; apply leb_trans with (1 := L2); auto.
Qed.

End MinimumFacts.

End ExactRunFacts.

(** * More of the stepper, statement by statement *)

Section RunStatements.

Context {F : Type} {NF : Real64 F}.

Local Notation "a .[ j ]" := (nth j a c_0) (at level 1, left associativity,
  format "a .[ j ]").

Variable minmod2 : F -> F -> F.
Variable minmod3 : F -> F -> F -> F.
Variable linear_GRP_solver_Edir :
  F -> F -> F -> F -> F -> F -> F -> F -> F -> F -> F -> F -> F -> F ->
  (F * F * F) * (F * F * F).
Variable m : nat.
Variable cv : cell_var_stru F.
Variable conf : list F.

Local Abbreviation run :=
  (GRP_solver_EUL_source minmod2 minmod3 linear_GRP_solver_Edir m cv conf).

(** X1.  With no total time ([config[1]] not finite) and a time step
    [config[16]] that is finite and positive, no time step is computed:
    however many steps the run makes and however it ends, the time step
    of its last pass is [config[16]]. *)
Theorem X1_fixed_time_step_kept :
  isfinite conf.[1] = false -> isfinite conf.[16] = true ->
  (conf.[16] .<= c_0) = false ->
  tau (state_of run) = conf.[16].
Proof.
  intros Ht Hc Hp. unfold GRP_solver_EUL_source.
  rewrite main_loop_tau_fixed by assumption. reflexivity.
Qed.

(** X2.  Under the boundary tag -1 the boundary values are read from
    the first and the last cell in the first pass only: after any number
    of steps, the values the last pass used are those cells as the run
    found them, whatever the cells have become. *)
Theorem X2_frozen_boundary_kept :
  to_int conf.[17] = (-1)%Z -> (0 < to_int conf.[5])%Z ->
  gh (state_of run)
  = {| UL := (U (row0 cv)).[0]; UR := (U (row0 cv)).[m-1];
       PL := (P (row0 cv)).[0]; PR := (P (row0 cv)).[m-1];
       RHOL := (RHO (row0 cv)).[0]; RHOR := (RHO (row0 cv)).[m-1] |}.
Proof.
  intros Hb HN. unfold GRP_solver_EUL_source.
  match goal with |- gh (state_of (main_loop ?a ?b ?c ?d ?e ?f ?g ?i ?j ?k ?l
                                             ?bd ?n ?k0 ?st)) = _ =>
    destruct (main_loop_frozen a b c d e f g i j k l n k0 st Hb) as [_ H]
  end.
  apply H; [reflexivity|]. lia.
Qed.

(** X3.  When the loop ends by its condition after one step at least,
    the two rows of cells the caller gets back are equal: the last pass
    copied row [n] to row [n-1]. *)
Theorem X3_rows_equal_after_last_step (st' : state F) :
  wf_row m (row0 cv) -> wf_row m (row1 cv) -> (0 < to_int conf.[5])%Z ->
  run = Next st' ->
  row0 (CV st') = row1 (CV st').
Proof.
  intros H0 H1 HN Hr. unfold GRP_solver_EUL_source in Hr.
  eapply main_loop_next_rows; [|  |exact Hr].
  - apply initial_wf; assumption.
  - lia.
Qed.

(** X4.  When the loop ends by its condition, [config] is as the caller
    gave it and the last two lines printed are "Time is up at time step
    [N + 1]", with [N = (int)config[5]], and the cost of CPU time; the
    step is 1 when [N <= 0], and then no pass has been made: the cells
    are as given and nothing is printed but [alpha] and these two
    lines. *)
Theorem X4_loop_runs_out (st' : state F) :
  run = Next st' ->
  let N := to_int conf.[5] in
  config st' = conf
  /\ (exists o,
        out st' = o ++ [Time_is_up (Z.max 0 N + 1); Cpu_time_cost])
  /\ ((N <= 0)%Z ->
      CV st' = cv
      /\ out st' = [Alpha_is conf.[41]; Time_is_up 1; Cpu_time_cost]).
Proof.
  intros Hr N. unfold GRP_solver_EUL_source in Hr. fold N in Hr.
  split; [|split].
  - match type of Hr with main_loop ?a ?b ?c ?d ?e ?f ?g ?i ?j ?k ?l ?bd
                                    ?n ?k0 ?st = _ =>
      pose proof (main_loop_config a b c d e f g i j k l bd n k0 st) as H
    end.
    rewrite Hr in H. exact H.
  - destruct (main_loop_exhausted _ _ _ _ _ _ _ _ _ _ _ _ _ _ _ Hr) as (o & Ho).
    exists o. rewrite Ho.
    replace (1 + Z.of_nat (Z.to_nat N))%Z with (Z.max 0 N + 1)%Z by lia.
    reflexivity.
  - intros HN. replace (Z.to_nat N) with 0 in Hr by lia.
    simpl in Hr. injection Hr as <-. split; reflexivity.
Qed.

End RunStatements.

(** X1 on three steps of 0.03125 over four cells. *)
Lemma X1_fixed_time_step_kept_witness :
  tau (state_of (GRP_solver_EUL_source spec_minmod2 spec_minmod3 mean_solver
                   4 Sample.cv Runs.conf_fixed))
  = 0.03125%float.
Proof.
  refine (@X1_fixed_time_step_kept float binary64 spec_minmod2 spec_minmod3
            mean_solver 4 Sample.cv Runs.conf_fixed _ _ _);
    vm_compute; reflexivity.
Defined.

(** X2 on two steps over four cells. *)
Lemma X2_frozen_boundary_kept_witness :
  gh (state_of (GRP_solver_EUL_source spec_minmod2 spec_minmod3 mean_solver
                  4 Sample.cv Runs.conf_frozen))
  = {| UL := 0.5; UR := 0.25; PL := 2; PR := 1.5; RHOL := 2;
       RHOR := 1.5 |}%float.
Proof.
  refine (@X2_frozen_boundary_kept float binary64 spec_minmod2 spec_minmod3
            mean_solver 4 Sample.cv Runs.conf_frozen _ _);
    vm_compute; reflexivity.
Defined.

(** X3 on the same run, which the loop condition ends. *)
Lemma X3_rows_equal_after_last_step_witness :
  row0 (CV (state_of (GRP_solver_EUL_source spec_minmod2 spec_minmod3
                        mean_solver 4 Sample.cv Runs.conf_frozen)))
  = row1 (CV (state_of (GRP_solver_EUL_source spec_minmod2 spec_minmod3
                          mean_solver 4 Sample.cv Runs.conf_frozen))).
Proof.
  refine (@X3_rows_equal_after_last_step float binary64 spec_minmod2
            spec_minmod3 mean_solver 4 Sample.cv Runs.conf_frozen _ _ _ _ _).
  - repeat split; reflexivity.
  - repeat split; reflexivity.
  - vm_compute. reflexivity.
  - vm_compute. reflexivity.
Defined.

(** X4 on a run of no step. *)
Lemma X4_loop_runs_out_witness :
  config (state_of (GRP_solver_EUL_source spec_minmod2 spec_minmod3
                      mean_solver 4 Sample.cv Runs.conf_idle))
  = Runs.conf_idle
  /\ CV (state_of (GRP_solver_EUL_source spec_minmod2 spec_minmod3
                     mean_solver 4 Sample.cv Runs.conf_idle))
     = Sample.cv.
Proof.
  assert (H : GRP_solver_EUL_source spec_minmod2 spec_minmod3 mean_solver
                4 Sample.cv Runs.conf_idle
              = Next (state_of (GRP_solver_EUL_source spec_minmod2
                                  spec_minmod3 mean_solver 4 Sample.cv
                                  Runs.conf_idle)))
    by (vm_compute; reflexivity).
  destruct (@X4_loop_runs_out float binary64 spec_minmod2 spec_minmod3
              mean_solver 4 Sample.cv Runs.conf_idle _ H) as (A & _ & B).
  split; [exact A|]. apply B. vm_compute. discriminate.
Defined.

(** * The stepper in arithmetic without rounding *)

Section ExactStatements.

Variable root : Qc -> Qc.

Local Instance exact_statement_arith : Real64 XQ.t := exactQ root.

Local Notation "a .[ j ]" := (nth j a c_0) (at level 1, left associativity,
  format "a .[ j ]").

Variable minmod2 : XQ.t -> XQ.t -> XQ.t.
Variable minmod3 : XQ.t -> XQ.t -> XQ.t -> XQ.t.
Variable linear_GRP_solver_Edir :
  XQ.t -> XQ.t -> XQ.t -> XQ.t -> XQ.t -> XQ.t -> XQ.t -> XQ.t -> XQ.t ->
  XQ.t -> XQ.t -> XQ.t -> XQ.t -> XQ.t ->
  (XQ.t * XQ.t * XQ.t) * (XQ.t * XQ.t * XQ.t).
Variable m : nat.
Variables t_all eps gamma CFL h alpha tau_conf : XQ.t.
Variable bound : Z.

(** X5.  [h_S_max], the running [fmin] from [INFINITY] over the
    interfaces [0 .. c-1], is a number, and it is not above
    [h / (fabs(u) + fabs(c))] of either state of any of these interfaces
    where that quotient is a number ([x <= x] holds of numbers only): a
    quotient that is not a number is passed over. *)
Theorem X5_h_S_max_lower_bound (r : row XQ.t) (g : ghost XQ.t)
    (b : ghost_slope XQ.t) (s : slopes XQ.t) (c j : nat)
    (w : XQ.t * XQ.t * XQ.t) :
  j < c ->
  w = left_state h r g b s j \/ w = right_state m h r g b s j ->
  (h_over_speed gamma h w .<= h_over_speed gamma h w) = true ->
  let hs := h_S_max_upto m gamma h r g b s c INFINITY in
  (hs .<= hs) = true /\ (hs .<= h_over_speed gamma h w) = true.
Proof.
  intros Hj Hw Hx hs.
  assert (Hi : (INFINITY : XQ.t) <> XQ.NaN) by discriminate.
  destruct (h_S_max_upto_bound root m gamma h r g b s c Hi) as (A & _ & B).
  fold hs in A, B. split; [apply leb_refl, A|].
  assert (Hn : h_over_speed gamma h w <> XQ.NaN)
    by (intros E; rewrite E in Hx; discriminate).
  destruct (B j Hj) as [BL BR].
  destruct Hw as [->| ->]; [apply BL|apply BR]; exact Hn.
Qed.

(** X6.  The Courant condition.  In a pass whose time step is the one
    computed from the CFL number (a total time is given and the step is
    not cut to end at it), [tau * (fabs(u) + fabs(c)) <= CFL * h] at
    both states of every interface whose speed is finite and positive,
    when [CFL] is finite and not negative and [h] and [tau] are
    finite. *)
Theorem X6_courant_condition (k : Z) (st st' : state XQ.t) (j : nat)
    (w : XQ.t * XQ.t * XQ.t) :
  wf_state m st ->
  completed minmod2 minmod3 linear_GRP_solver_Edir m t_all eps gamma CFL h
            alpha tau_conf bound k st st' ->
  isfinite t_all = true ->
  ((time_before minmod2 minmod3 linear_GRP_solver_Edir m t_all eps gamma h
                alpha k st st'
    .+ CFL .* h_S_max_of minmod2 minmod3 m gamma h alpha k st st')
   .> (t_all .- eps)) = false ->
  isfinite CFL = true -> (c_0 .<= CFL) = true -> isfinite h = true ->
  isfinite (tau st') = true ->
  j <= m ->
  w = left_state h (row0 (CV st)) (gh st') (gs st')
                 (limited_slopes minmod2 minmod3 m h alpha k st st') j
  \/ w = right_state m h (row0 (CV st)) (gh st') (gs st')
                     (limited_slopes minmod2 minmod3 m h alpha k st st') j ->
  isfinite (wave_speed gamma w) = true ->
  (c_0 .< wave_speed gamma w) = true ->
  (tau st' .* wave_speed gamma w .<= CFL .* h) = true.
Proof.
  intros Hwf Hc Ht Hnc HC HC0 Hh Htau Hj Hw Hsf Hsp.
  pose proof (completed_time_step Hwf Hc) as E.
  unfold time_step in E. rewrite Ht in E. cbn [orb] in E.
  rewrite Hnc in E.
  assert (Hi : (INFINITY : XQ.t) <> XQ.NaN) by discriminate.
  destruct (h_S_max_upto_bound root m gamma h (row0 (CV st)) (gh st') (gs st')
              (limited_slopes minmod2 minmod3 m h alpha k st st') (S m) Hi)
    as (A & _ & B).
  assert (Hj' : j < S m) by lia. destruct (B j Hj') as [BL BR].
  assert (Hx : h_over_speed gamma h w = h ./ wave_speed gamma w)
    by (destruct w as [[rho u] p]; reflexivity).
  assert (Hle : h_over_speed gamma h w <> XQ.NaN ->
                (h_S_max_of minmod2 minmod3 m gamma h alpha k st st'
                 .<= h_over_speed gamma h w) = true)
    by (destruct Hw as [->| ->]; assumption).
  clear BL BR B Hw. unfold h_S_max_of in E, Hle |- *. rewrite Hx in Hle.
  rewrite E. rewrite E in Htau.
  destruct (wave_speed gamma w) as [sp| | |]; try discriminate.
  destruct h as [hh| | |]; try discriminate.
  destruct CFL as [cf| | |]; try discriminate.
  unfold exact_run_arith, exact_statement_arith in *.
  match type of A with ?x <> _ => set (hs := x) in * end.
  apply ltb_lt in Hsp. apply leb_le in HC0.
  assert (Hz : XQ.is_zero sp = false).
  { unfold XQ.is_zero. destruct (sp ?= 0)%Qc eqn:Hcmp; try reflexivity.
    apply Qceq_alt in Hcmp. subst sp.
    contradiction (Qclt_not_eq _ _ Hsp). reflexivity. }
  cbn [fdiv exactQ XQ.div] in Hle. rewrite Hz in Hle.
  specialize (Hle ltac:(discriminate)).
  cbn [fle fmul exactQ] in Hle, Htau |- *.
  destruct hs as [y| | |].
  2: { discriminate Hle. }
  2: { exfalso. revert Htau. simpl. unfold XQ.mul_inf, XQ.sgn_inf.
       repeat match goal with |- context [if ?c then _ else _] => destruct c end;
         discriminate. }
  2: { contradiction A. reflexivity. }
  cbn [XQ.mul].
  apply leb_le in Hle. apply leb_true.
  rewrite <- Qcmult_assoc, (Qcmult_comm cf (y * sp)), (Qcmult_comm cf hh).
  apply Qcmult_le_compat_r; [|exact HC0].
  apply Qcle_trans with (hh / sp * sp)%Qc.
  - apply Qcmult_le_compat_r; [exact Hle|]. apply Qclt_le_weak. exact Hsp.
  - replace (hh / sp * sp)%Qc with hh
      by (field; apply is_zero_false; exact Hz).
    apply Qcle_refl.
Qed.

(** X7.  Conservation.  In a pass that reaches its end, when the old
    cells are finite and the new ones pass the check on finite values,
    the mass, the momentum and the energy of the [m] cells change by the
    difference of the fluxes at the two ends of the domain alone, times
    [nu = tau/h]: the fluxes at the inner interfaces cancel. *)
Theorem X7_conservation (k : Z) (st st' : state XQ.t) :
  wf_state m st ->
  completed minmod2 minmod3 linear_GRP_solver_Edir m t_all eps gamma CFL h
            alpha tau_conf bound k st st' ->
  0 < m ->
  (forall j, j < m ->
     isfinite (RHO (row0 (CV st))).[j] = true
     /\ isfinite (U (row0 (CV st))).[j] = true
     /\ isfinite (E (row0 (CV st))).[j] = true) ->
  (forall j, j < m -> finite_at (row1 (CV st')) j) ->
  let nu := tau st' ./ h in
  let f := fl st' in
  total_mass m (row1 (CV st'))
  = total_mass m (row0 (CV st)) .- nu .* ((F1 f).[m] .- (F1 f).[0])
  /\ total_momentum m (row1 (CV st'))
     = total_momentum m (row0 (CV st)) .- nu .* ((F2 f).[m] .- (F2 f).[0])
  /\ total_energy m (row1 (CV st'))
     = total_energy m (row0 (CV st)) .- nu .* ((F3 f).[m] .- (F3 f).[0]).
Proof.
  intros Hwf Hc Hm Hold Hnew nu f.
  assert (Hcell : forall j, j < m ->
    let old := row0 (CV st) in
    let new := row1 (CV st') in
    (isfinite nu = true
     /\ isfinite (F1 f).[j] = true /\ isfinite (F1 f).[j+1] = true
     /\ isfinite (F2 f).[j] = true /\ isfinite (F2 f).[j+1] = true
     /\ isfinite (F3 f).[j] = true /\ isfinite (F3 f).[j+1] = true)
    /\ (RHO new).[j] = (RHO old).[j] .- nu .* ((F1 f).[j+1] .- (F1 f).[j])
    /\ (RHO new).[j] .* (U new).[j]
       = (RHO old).[j] .* (U old).[j] .- nu .* ((F2 f).[j+1] .- (F2 f).[j])
    /\ (RHO new).[j] .* (E new).[j]
       = (RHO old).[j] .* (E old).[j] .- nu .* ((F3 f).[j+1] .- (F3 f).[j])).
  { intros j Hj old new.
    destruct (completed_update Hwf Hc Hj) as (H1 & H2 & H3 & H4).
    destruct (Hold j Hj) as (Or & Ou & Oe).
    destruct (Hnew j Hj) as (Np & Nu & Nr).
    fold nu f old new in H1, H2, H3, H4. cbv zeta in H1, H2, H3, H4.
    fold old in Or, Ou, Oe. fold new in Np, Nu, Nr.
    pose proof Nr as Nr'. rewrite H1 in Nr'.
    destruct (@finite_change root _ _ _ _ Or Nr') as (Fn & Fa & Fb).
    pose proof Nu as Nu'. rewrite H2 in Nu'.
    destruct (@finite_quotient root _ _ Nr Nu') as (Fmom & Emom).
    destruct (@finite_change root _ _ _ _ (@finite_product root _ _ Or Ou) Fmom)
      as (_ & Fc & Fd).
    pose proof Np as Np'. rewrite H4 in Np'.
    pose proof (@finite_pressure root _ _ _ _ Fmom Nu Np') as Fene.
    destruct (@finite_change root _ _ _ _ (@finite_product root _ _ Or Oe) Fene)
      as (_ & Fe & Ff).
    repeat split; try assumption.
    - rewrite H2 at 1. exact Emom.
    - rewrite H3. apply (@finite_ratio root _ _ Nr Nu'). exact Fene. }
  assert (Hnu : isfinite nu = true) by (apply (Hcell 0 Hm)).
  assert (HF : forall j, j <= m ->
            isfinite (F1 f).[j] = true /\ isfinite (F2 f).[j] = true
            /\ isfinite (F3 f).[j] = true).
  { intros j Hj. destruct (Nat.eq_dec j m) as [->|Hne].
    - assert (Hp : m - 1 < m) by lia.
      destruct (Hcell (m - 1) Hp) as ((_ & _ & A & _ & B & _ & C) & _).
      replace (m - 1 + 1) with m in * by lia. auto.
    - assert (Hp : j < m) by lia.
      destruct (Hcell j Hp) as ((_ & A & _ & B & _ & C & _) & _). auto. }
  unfold total_mass, total_momentum, total_energy.
  split; [|split].
  - rewrite (@total_ext _ _ m _
      (fun j => (RHO (row0 (CV st))).[j] .- nu .* ((F1 f).[j+1] .- (F1 f).[j]))).
    + refine (proj2 (@total_telescopes root m (fun j => (RHO (row0 (CV st))).[j])
                       (fun j => (F1 f).[j]) nu Hnu _ _));
        [|intros; apply HF; assumption].
      intros j Hj. apply (Hold j Hj).
    + intros j Hj. apply (Hcell j Hj).
  - rewrite (@total_ext _ _ m _
      (fun j => (RHO (row0 (CV st))).[j] .* (U (row0 (CV st))).[j]
                .- nu .* ((F2 f).[j+1] .- (F2 f).[j]))).
    + refine (proj2 (@total_telescopes root m
               (fun j => (RHO (row0 (CV st))).[j] .* (U (row0 (CV st))).[j])
               (fun j => (F2 f).[j]) nu Hnu _ _));
        [|intros; apply HF; assumption].
      intros j Hj. apply (@finite_product root); apply (Hold j Hj).
    + intros j Hj. apply (Hcell j Hj).
  - rewrite (@total_ext _ _ m _
      (fun j => (RHO (row0 (CV st))).[j] .* (E (row0 (CV st))).[j]
                .- nu .* ((F3 f).[j+1] .- (F3 f).[j]))).
    + refine (proj2 (@total_telescopes root m
               (fun j => (RHO (row0 (CV st))).[j] .* (E (row0 (CV st))).[j])
               (fun j => (F3 f).[j]) nu Hnu _ _));
        [|intros; apply HF; assumption].
      intros j Hj. apply (@finite_product root); apply (Hold j Hj).
    + intros j Hj. apply (Hcell j Hj).
Qed.


End ExactStatements.

Section ExactWitnesses.

Local Instance sample_arith : Real64 XQ.t := exactQ Sample.root.

Local Notation "a .[ j ]" := (nth j a c_0) (at level 1, left associativity,
  format "a .[ j ]").

(** X5 on the first pass over two cells, at the left state of
    interface 1. *)
Lemma X5_h_S_max_lower_bound_witness :
  (h_S_max_upto 2 (Sample.q 3 2) (Sample.q 1 2) (row0 (CV Sample.xst0))
                (gh Sample.xst1) (gs Sample.xst1) Runs.xslopes 3 INFINITY
   .<= h_over_speed (Sample.q 3 2) (Sample.q 1 2) Runs.xleft1) = true.
Proof.
  refine (proj2 (@X5_h_S_max_lower_bound Sample.root 2 (Sample.q 3 2)
                   (Sample.q 1 2) (row0 (CV Sample.xst0)) (gh Sample.xst1)
                   (gs Sample.xst1) Runs.xslopes 3 1 Runs.xleft1 _ _ _)).
  - lia.
  - left. reflexivity.
  - vm_compute. reflexivity.
Defined.

(** X6 on the same pass and state. *)
Lemma X6_courant_condition_witness :
  (tau Sample.xst1 .* wave_speed (Sample.q 3 2) Runs.xleft1
   .<= Sample.q 1 2 .* Sample.q 1 2) = true.
Proof.
  refine (@X6_courant_condition Sample.root
            (@spec_minmod2 _ (exactQ Sample.root))
            (@spec_minmod3 _ (exactQ Sample.root))
            (@mean_solver _ (exactQ Sample.root)) 2
            (Sample.q 1 4) (Sample.q 1 1024) (Sample.q 3 2) (Sample.q 1 2)
            (Sample.q 1 2) (Sample.q 3 2) XQ.PInf (-5)%Z 1%Z Sample.xst0
            Sample.xst1 1 Runs.xleft1 _ _ _ _ _ _ _ _ _ _ _ _).
  - repeat split; reflexivity.
  - left. vm_compute. reflexivity.
  - reflexivity.
  - vm_compute. reflexivity.
  - reflexivity.
  - vm_compute. reflexivity.
  - reflexivity.
  - vm_compute. reflexivity.
  - lia.
  - left. reflexivity.
  - vm_compute. reflexivity.
  - vm_compute. reflexivity.
Defined.

(** X7 on the same pass: the boundaries are periodic. *)
Lemma X7_conservation_witness :
  total_mass 2 (row1 (CV Sample.xst1))
  = total_mass 2 (row0 (CV Sample.xst0))
    .- (tau Sample.xst1 ./ Sample.q 1 2)
       .* ((F1 (fl Sample.xst1)).[2] .- (F1 (fl Sample.xst1)).[0]).
Proof.
  refine (proj1 (@X7_conservation Sample.root
                   (@spec_minmod2 _ (exactQ Sample.root))
                   (@spec_minmod3 _ (exactQ Sample.root))
                   (@mean_solver _ (exactQ Sample.root)) 2
                   (Sample.q 1 4) (Sample.q 1 1024) (Sample.q 3 2)
                   (Sample.q 1 2) (Sample.q 1 2) (Sample.q 3 2) XQ.PInf
                   (-5)%Z 1%Z Sample.xst0 Sample.xst1 _ _ _ _ _)).
  - repeat split; reflexivity.
  - left. vm_compute. reflexivity.
  - lia.
  - intros [|[|j]] Hj; [| |lia]; repeat split; reflexivity.
  - intros [|[|j]] Hj; [| |lia]; repeat split; vm_compute; reflexivity.
Defined.

End ExactWitnesses.

(** * The set-up of the Lagrangian drivers *)

Section DriverFacts.

Context {F : Type} {NF : Real64 F}.

Local Notation "a .[ j ]" := (nth j a c_0) (at level 1, left associativity,
  format "a .[ j ]").

(** A loop that writes [f k] to entry [k] of a fresh array. *)
Lemma for_loop_fill (f : nat -> F) (n len k : nat) :
  n <= len -> k < n ->
  (for_loop n (fun k a => upd a k (f k)) (zeros len)).[k] = f k.
Proof.
  intros Hn Hk.
  assert (H : length (for_loop n (fun k a => upd a k (f k)) (zeros len)) = len
              /\ forall i, i < n ->
                   (for_loop n (fun k a => upd a k (f k)) (zeros len)).[i]
                   = f i).
  { apply (for_loop_invariant
             (fun c a => length a = len /\ forall i, i < c -> a.[i] = f i)).
    - split; [apply repeat_length|]. intros i Hi. lia.
    - intros j x Hj [Hl Hx]. split; [rewrite length_upd; exact Hl|].
      intros i Hi. destruct (Nat.eq_dec i j) as [->|Hne].
      + apply nth_upd_same. lia.
      + rewrite nth_upd_other by exact Hne. apply Hx. lia. }
  apply H. exact Hk.
Qed.

End DriverFacts.

Section DriverStatements.

Variable root : Qc -> Qc.

Local Instance exact_driver_arith : Real64 XQ.t := exactQ root.

Local Notation "a .[ j ]" := (nth j a c_0) (at level 1, left associativity,
  format "a .[ j ]").

Lemma positive_not_zero (x : Qc) :
  XQ.ltb (XQ.Fin 0%Qc) (XQ.Fin x) = true -> XQ.is_zero x = false.
Proof.
  intros H. apply ltb_lt in H. unfold XQ.is_zero.
  destruct (x ?= 0)%Qc eqn:Hcmp; try reflexivity.
  apply Qceq_alt in Hcmp. subst x. contradiction (Qclt_not_eq _ _ H).
  reflexivity.
Qed.

Lemma of_int_succ (k : nat) :
  Q2Qc (inject_Z (Z.of_nat (k + 1)))
  = (Q2Qc (inject_Z (Z.of_nat k)) + 1)%Qc.
Proof.
  apply Qc_is_canon. unfold Qcplus, Q2Qc. cbn [this].
  rewrite !Qred_correct, Nat2Z.inj_add, inject_Z_plus. reflexivity.
Qed.

(** X8.  The energy the driver gives the cells fits the equation of
    state of the stepper: where the density is finite and positive,
    [gamma] is finite and above 1 and the velocity and the pressure are
    finite, [p = (gamma - 1) (rho E - 1/2 rho u^2)] holds of the input
    with the energy the driver computed. *)
Theorem X8_initial_energy_eos (m : nat) (gamma : XQ.t)
    (RHO0 U0 P0 : list XQ.t) (k : nat) :
  k < m ->
  isfinite gamma = true -> (c_1 .< gamma) = true ->
  isfinite RHO0.[k] = true -> (c_0 .< RHO0.[k]) = true ->
  isfinite U0.[k] = true -> isfinite P0.[k] = true ->
  eos_identity_at gamma
    {| RHO := RHO0; U := U0; P := P0;
       E := initial_energy m gamma RHO0 U0 P0 |} k.
Proof.
  intros Hk Hg Hg1 Hr Hr0 Hu Hp. unfold eos_identity_at, initial_energy.
  cbn [RHO U P E]. rewrite for_loop_fill by (try exact Hk; apply Nat.le_refl).
  destruct gamma as [g| | |]; try discriminate.
  destruct (RHO0.[k]) as [r| | |]; try discriminate.
  destruct (U0.[k]) as [u| | |]; try discriminate.
  destruct (P0.[k]) as [p| | |]; try discriminate.
  pose proof (positive_not_zero _ Hr0) as Zr.
  assert (Zg : XQ.is_zero (g + - (1))%Qc = false).
  { apply ltb_lt in Hg1. unfold XQ.is_zero.
    destruct (g + - (1) ?= 0)%Qc eqn:Hcmp; try reflexivity.
    apply Qceq_alt in Hcmp.
    assert (E1 : g = 1%Qc)
      by (replace g with (g + - (1) + 1)%Qc by ring; rewrite Hcmp; ring).
    rewrite E1 in Hg1. contradiction (Qclt_not_eq _ _ Hg1). reflexivity. }
  cbn [fadd fsub fmul fdiv c_half c_1 exact_driver_arith exactQ XQ.sub XQ.neg
       XQ.add XQ.mul XQ.div].
  rewrite Zg. cbn [XQ.div]. rewrite Zr. unfold XQ.sub.
  cbn [XQ.add XQ.mul XQ.neg]. f_equal. field. split; apply is_zero_false; assumption.
Qed.

(** X9.  The cells the driver lays out have the width [h], and the mass
    it gives a cell over that width is the density of the input: where
    [h] is finite and positive and the density is finite,
    [X[0][k+1] - X[0][k] = h] and
    [MASS[k] / (X[0][k+1] - X[0][k]) = RHO[0][k]]. *)
Theorem X9_initial_mass_over_width (m : nat) (h : XQ.t) (RHO0 : list XQ.t)
    (k : nat) :
  k < m ->
  isfinite h = true -> (c_0 .< h) = true -> isfinite RHO0.[k] = true ->
  (initial_mesh m h).[k+1] .- (initial_mesh m h).[k] = h
  /\ (initial_mass m h RHO0).[k]
     ./ ((initial_mesh m h).[k+1] .- (initial_mesh m h).[k])
     = RHO0.[k].
Proof.
  intros Hk Hh Hh0 Hr. unfold initial_mesh, initial_mass.
  rewrite !for_loop_fill by lia.
  destruct h as [hh| | |]; try discriminate.
  destruct (RHO0.[k]) as [r| | |]; try discriminate.
  pose proof (positive_not_zero _ Hh0) as Zh.
  cbn [fsub fmul fdiv of_int exact_driver_arith exactQ XQ.of_int XQ.sub
       XQ.neg XQ.add XQ.mul].
  rewrite of_int_succ.
  assert (Ew : (hh * (Q2Qc (inject_Z (Z.of_nat k)) + 1)
                + - (hh * Q2Qc (inject_Z (Z.of_nat k))))%Qc = hh) by ring.
  rewrite Ew. split; [reflexivity|].
  cbn [XQ.div]. rewrite Zh. f_equal. field. apply is_zero_false. exact Zh.
Qed.

End DriverStatements.

Section DriverWitnesses.

Local Instance sample_driver_arith : Real64 XQ.t := exactQ Sample.root.

(** X8 on the second of the two cells of [Sample.xcells]. *)
Lemma X8_initial_energy_eos_witness :
  eos_identity_at (Sample.q 3 2)
    {| RHO := RHO Sample.xcells; U := U Sample.xcells; P := P Sample.xcells;
       E := initial_energy 2 (Sample.q 3 2) (RHO Sample.xcells)
                           (U Sample.xcells) (P Sample.xcells) |} 1.
Proof.
  refine (@X8_initial_energy_eos Sample.root 2 (Sample.q 3 2)
            (RHO Sample.xcells) (U Sample.xcells) (P Sample.xcells) 1
            _ _ _ _ _ _ _);
    [lia|vm_compute; reflexivity..].
Defined.

(** X9 on the same cell, of width 1/2. *)
Lemma X9_initial_mass_over_width_witness :
  nth 1 (initial_mass 2 (Sample.q 1 2) (RHO Sample.xcells)) c_0
  ./ (nth 2 (initial_mesh 2 (Sample.q 1 2)) c_0
      .- nth 1 (initial_mesh 2 (Sample.q 1 2)) c_0)
  = Sample.q 2 1.
Proof.
  refine (proj2 (@X9_initial_mass_over_width Sample.root 2 (Sample.q 1 2)
                   (RHO Sample.xcells) 1 _ _ _ _));
    [lia|vm_compute; reflexivity..].
Defined.

End DriverWitnesses.

(** * The set-up of the two-dimensional driver *)

Section TwoDFacts.

Context {F : Type} {NF : Real64 F}.

Local Notation "a .[ j ]" := (nth j a c_0) (at level 1, left associativity,
  format "a .[ j ]").

Lemma wf_array_set (n_x n_y : nat) (a : list (list F)) (j i : nat) (v : F) :
  TwoD.wf_array n_x n_y a -> TwoD.wf_array n_x n_y (TwoD.set a j i v).
Proof.
  intros [Hl Hr]. unfold TwoD.set. split; [rewrite length_upd; exact Hl|].
  intros j' Hj'. destruct (Nat.eq_dec j' j) as [->|Hne].
  - rewrite nth_upd_same by lia. rewrite length_upd. apply Hr, Hj'.
  - rewrite nth_upd_other by exact Hne. apply Hr, Hj'.
Qed.

Lemma get_set_same (n_x n_y : nat) (a : list (list F)) (j i : nat) (v : F) :
  TwoD.wf_array n_x n_y a -> j < n_x -> i < n_y ->
  TwoD.get (TwoD.set a j i v) j i = v.
Proof.
  intros [Hl Hr] Hj Hi. unfold TwoD.get, TwoD.set.
  rewrite nth_upd_same by lia. apply nth_upd_same. rewrite Hr; assumption.
Qed.

Lemma get_set_other (a : list (list F)) (j i j' i' : nat) (v : F) :
  j' <> j \/ i' <> i ->
  TwoD.get (TwoD.set a j i v) j' i' = TwoD.get a j' i'.
Proof.
  intros H. unfold TwoD.get, TwoD.set.
  destruct (Nat.eq_dec j' j) as [->|Hne].
  - destruct H as [H|H]; [contradiction H; reflexivity|].
    destruct (Nat.lt_ge_cases j (length a)) as [Hlt|Hge].
    + rewrite nth_upd_same by exact Hlt. apply nth_upd_other. exact H.
    + assert (E : upd a j (upd (nth j a []) i v) = a).
      { clear - Hge. revert j Hge. induction a as [|x t IH]; intros [|j] Hge;
          simpl in *; try reflexivity; try lia. f_equal. apply IH. lia. }
      rewrite E. reflexivity.
  - rewrite nth_upd_other by exact Hne. reflexivity.
Qed.

Variable n_x n_y : nat.
Variable gamma : F.
Variable FV0 : TwoD.flu_var F.

Lemma load_body_spec (cv : TwoD.cell_var_stru F) (j i : nat) :
  TwoD.wf n_x n_y cv -> j < n_x -> i < n_y ->
  let cv' := TwoD.load_body n_x gamma FV0 j i cv in
  TwoD.wf n_x n_y cv'
  /\ TwoD.loaded n_x gamma FV0 cv' j i
  /\ forall j' i', j' <> j \/ i' <> i ->
       TwoD.loaded n_x gamma FV0 cv j' i' ->
       TwoD.loaded n_x gamma FV0 cv' j' i'.
Proof.
  intros (W1 & W2 & W3 & W4 & W5) Hj Hi cv'. subst cv'.
  unfold TwoD.load_body. cbv zeta. split; [|split].
  - unfold TwoD.wf. cbn [TwoD.RHO TwoD.U TwoD.V TwoD.P TwoD.E].
    split; [|split; [|split; [|split]]];
      repeat apply wf_array_set; assumption.
  - unfold TwoD.loaded. cbn [TwoD.RHO TwoD.U TwoD.V TwoD.P TwoD.E].
    repeat (rewrite (@get_set_same n_x n_y)
              by (try assumption; repeat apply wf_array_set; assumption)).
    repeat split; reflexivity.
  - intros j' i' Hne. unfold TwoD.loaded.
    cbn [TwoD.RHO TwoD.U TwoD.V TwoD.P TwoD.E].
    rewrite !(get_set_other _ _ Hne). trivial.
Qed.


Lemma load_spec (cv : TwoD.cell_var_stru F) :
  TwoD.wf n_x n_y cv ->
  TwoD.wf n_x n_y (TwoD.load n_x n_y gamma FV0 cv)
  /\ forall j i, j < n_x -> i < n_y ->
       TwoD.loaded n_x gamma FV0 (TwoD.load n_x n_y gamma FV0 cv) j i.
Proof.
  intros Hwf. unfold TwoD.load.
  apply (for_loop_invariant
           (fun c x => TwoD.wf n_x n_y x
                       /\ forall j i, j < c -> i < n_y ->
                            TwoD.loaded n_x gamma FV0 x j i)).
  - split; [exact Hwf|]. intros j i Hj. lia.
  - intros j x Hj [Hx Hl].
    assert (H : TwoD.wf n_x n_y
                  (for_loop n_y
                     (fun i cv0 => TwoD.load_body n_x gamma FV0 j i cv0) x)
                /\ (forall j' i, j' < j -> i < n_y ->
                      TwoD.loaded n_x gamma FV0
                        (for_loop n_y
                           (fun i cv0 => TwoD.load_body n_x gamma FV0 j i cv0)
                           x) j' i)
                /\ forall i, i < n_y ->
                      TwoD.loaded n_x gamma FV0
                        (for_loop n_y
                           (fun i cv0 => TwoD.load_body n_x gamma FV0 j i cv0)
                           x) j i).
    { apply (for_loop_invariant
               (fun d y => TwoD.wf n_x n_y y
                           /\ (forall j' i, j' < j -> i < n_y ->
                                 TwoD.loaded n_x gamma FV0 y j' i)
                           /\ forall i, i < d ->
                                 TwoD.loaded n_x gamma FV0 y j i)).
      - split; [exact Hx|]. split; [exact Hl|]. intros i Hi. lia.
      - intros d y Hd (Hy & Hprev & Hrow).
        destruct (load_body_spec Hy Hj Hd) as (B1 & B2 & B3).
        split; [exact B1|]. split.
        + intros j' i Hj' Hi. apply B3; [left; lia|]. apply Hprev; assumption.
        + intros i Hi. destruct (Nat.eq_dec i d) as [->|Hne]; [exact B2|].
          apply B3; [right; exact Hne|]. apply Hrow. lia. }
    destruct H as (H1 & H2 & H3). split; [exact H1|].
    intros j' i Hj' Hi. destruct (Nat.eq_dec j' j) as [->|Hne].
    + apply H3, Hi.
    + apply H2; [lia|exact Hi].
Qed.

(** Distinct cells read distinct entries of the input, between the
    entries 2 and [n_x * n_y + 1]. *)
Lemma flat_index_range (j i : nat) :
  j < n_x -> i < n_y ->
  2 <= TwoD.flat_index n_x j i < n_x * n_y + 2.
Proof. unfold TwoD.flat_index. intros Hj Hi. nia. Qed.

Lemma flat_index_inj (j i j' i' : nat) :
  j < n_x -> j' < n_x ->
  TwoD.flat_index n_x j i = TwoD.flat_index n_x j' i' -> j = j' /\ i = i'.
Proof.
  unfold TwoD.flat_index. intros Hj Hj' H.
  assert (Hi : i = i') by nia. subst i'. split; [lia|reflexivity].
Qed.

Lemma flat_index_onto (k : nat) :
  2 <= k < n_x * n_y + 2 ->
  exists j i, j < n_x /\ i < n_y /\ TwoD.flat_index n_x j i = k.
Proof.
  intros Hk. assert (Hx : n_x <> 0) by nia.
  exists ((k - 2) mod n_x), ((k - 2) / n_x). unfold TwoD.flat_index.
  pose proof (Nat.mod_upper_bound (k - 2) n_x Hx).
  pose proof (Nat.div_mod_eq (k - 2) n_x).
  split; [assumption|]. split; [|nia].
  apply Nat.Div0.div_lt_upper_bound. nia.
Qed.

(** X10.  The two-dimensional driver lays the flat input out cell by
    cell: after its two loops, cell [(j, i)] of the [n_x] by [n_y] grid
    holds entry [i*n_x + j + 2] of each input array and the energy
    [0.5*u*u + p/(gamma - 1)/rho + 0.5*v*v] of these values; that entry
    lies between 2 and [n_x*n_y + 1], no other cell reads it, and every
    entry in that range is read by some cell. *)
Theorem X10_load_2D (cv : TwoD.cell_var_stru F) (j i : nat) :
  TwoD.wf n_x n_y cv -> j < n_x -> i < n_y ->
  TwoD.loaded n_x gamma FV0 (TwoD.load n_x n_y gamma FV0 cv) j i
  /\ 2 <= TwoD.flat_index n_x j i < n_x * n_y + 2
  /\ (forall j' i', j' < n_x ->
        TwoD.flat_index n_x j' i' = TwoD.flat_index n_x j i ->
        j' = j /\ i' = i)
  /\ (forall k, 2 <= k < n_x * n_y + 2 ->
        exists j' i', j' < n_x /\ i' < n_y /\ TwoD.flat_index n_x j' i' = k).
Proof.
  intros Hwf Hj Hi. split; [|split; [|split]].
  - apply load_spec; assumption.
  - apply flat_index_range; assumption.
  - intros j' i' Hj' H. apply (@flat_index_inj j' i' j i Hj' Hj H).
  - apply flat_index_onto.
Qed.

End TwoDFacts.

(** X10 on a grid of two by two cells, at cell (1, 0). *)
Lemma X10_load_2D_witness :
  TwoD.loaded 2 1.5%float Runs.fv0
    (TwoD.load 2 2 1.5%float Runs.fv0 Runs.cv0_2D) 1 0.
Proof.
  refine (proj1 (@X10_load_2D float binary64 2 2 1.5%float Runs.fv0
                   Runs.cv0_2D 1 0 _ _ _)); [|lia|lia].
  unfold TwoD.wf, TwoD.wf_array.
  repeat split; try reflexivity; intros [|[|j]] Hj; try reflexivity; lia.
Defined.

Section TwoDExact.

Variable root : Qc -> Qc.

Local Instance exact_2D_arith : Real64 XQ.t := exactQ root.

Local Notation "a .[ j ]" := (nth j a c_0) (at level 1, left associativity,
  format "a .[ j ]").

(** X11.  The energy the two-dimensional driver gives a cell fits the
    equation of state with both velocities: where the density of the
    input is finite and positive, [gamma] is finite and above 1 and the
    velocities and the pressure are finite,
    [p = (gamma - 1) (rho E - 1/2 rho (u^2 + v^2))] holds in the cell. *)
Theorem X11_load_2D_eos (n_x n_y : nat) (gamma : XQ.t)
    (FV0 : TwoD.flu_var XQ.t) (cv : TwoD.cell_var_stru XQ.t) (j i : nat) :
  TwoD.wf n_x n_y cv -> j < n_x -> i < n_y ->
  let cv' := TwoD.load n_x n_y gamma FV0 cv in
  isfinite gamma = true -> (c_1 .< gamma) = true ->
  isfinite (TwoD.get (TwoD.RHO cv') j i) = true ->
  (c_0 .< TwoD.get (TwoD.RHO cv') j i) = true ->
  isfinite (TwoD.get (TwoD.U cv') j i) = true ->
  isfinite (TwoD.get (TwoD.V cv') j i) = true ->
  isfinite (TwoD.get (TwoD.P cv') j i) = true ->
  TwoD.get (TwoD.P cv') j i
  = (gamma .- c_1)
    .* (TwoD.get (TwoD.RHO cv') j i .* TwoD.get (TwoD.E cv') j i
        .- c_half .* TwoD.get (TwoD.RHO cv') j i
           .* (TwoD.get (TwoD.U cv') j i .* TwoD.get (TwoD.U cv') j i
               .+ TwoD.get (TwoD.V cv') j i .* TwoD.get (TwoD.V cv') j i)).
Proof.
  intros Hwf Hj Hi cv'.
  destruct (load_spec gamma FV0 Hwf) as [_ Hl].
  destruct (Hl j i Hj Hi) as (E1 & E2 & E3 & E4 & E5). fold cv' in E1, E2, E3, E4, E5.
  cbv zeta in E1, E2, E3, E4, E5.
  rewrite E5, <- E1, <- E2, <- E3, <- E4.
  destruct gamma as [g| | |]; try discriminate.
  destruct (TwoD.get (TwoD.RHO cv') j i) as [r| | |]; try discriminate.
  destruct (TwoD.get (TwoD.U cv') j i) as [u| | |]; try discriminate.
  destruct (TwoD.get (TwoD.V cv') j i) as [v| | |]; try discriminate.
  destruct (TwoD.get (TwoD.P cv') j i) as [p| | |]; try discriminate.
  intros _ Hg1 _ Hr0 _ _ _.
  pose proof (positive_not_zero _ Hr0) as Zr.
  assert (Zg : XQ.is_zero (g + - (1))%Qc = false).
  { apply ltb_lt in Hg1. unfold XQ.is_zero.
    destruct (g + - (1) ?= 0)%Qc eqn:Hcmp; try reflexivity.
    apply Qceq_alt in Hcmp.
    assert (G1 : g = 1%Qc)
      by (replace g with (g + - (1) + 1)%Qc by ring; rewrite Hcmp; ring).
    rewrite G1 in Hg1. contradiction (Qclt_not_eq _ _ Hg1). reflexivity. }
  cbn [fadd fsub fmul fdiv c_half c_1 exact_2D_arith exactQ XQ.sub XQ.neg
       XQ.add XQ.mul XQ.div].
  rewrite Zg. cbn [XQ.div]. rewrite Zr. unfold XQ.sub.
  cbn [XQ.add XQ.mul XQ.neg]. f_equal. field.
  split; apply is_zero_false; assumption.
Qed.

End TwoDExact.

Section TwoDWitnesses.

Local Instance sample_2D_arith : Real64 XQ.t := exactQ Sample.root.

(** X11 on the grid of two by two cells, at cell (1, 0). *)
Lemma X11_load_2D_eos_witness :
  TwoD.get (TwoD.P Runs.xloaded) 1 0
  = (Sample.q 3 2 .- c_1)
    .* (TwoD.get (TwoD.RHO Runs.xloaded) 1 0
        .* TwoD.get (TwoD.E Runs.xloaded) 1 0
        .- c_half .* TwoD.get (TwoD.RHO Runs.xloaded) 1 0
           .* (TwoD.get (TwoD.U Runs.xloaded) 1 0
               .* TwoD.get (TwoD.U Runs.xloaded) 1 0
               .+ TwoD.get (TwoD.V Runs.xloaded) 1 0
                  .* TwoD.get (TwoD.V Runs.xloaded) 1 0)).
Proof.
  refine (@X11_load_2D_eos Sample.root 2 2 (Sample.q 3 2) Runs.xfv0
            Runs.xcv0_2D 1 0 _ _ _ _ _ _ _ _ _ _);
    [|lia|lia|vm_compute; reflexivity..].
  unfold TwoD.wf, TwoD.wf_array.
  repeat split; try reflexivity; intros [|[|j]] Hj; try reflexivity; lia.
Defined.

End TwoDWitnesses.

(** * The checks on the new cells *)

Section CheckStatements.

Context {F : Type} {NF : Real64 F}.

Local Notation "a .[ j ]" := (nth j a c_0) (at level 1, left associativity,
  format "a .[ j ]").

Variable minmod2 : F -> F -> F.
Variable minmod3 : F -> F -> F -> F.
Variable linear_GRP_solver_Edir :
  F -> F -> F -> F -> F -> F -> F -> F -> F -> F -> F -> F -> F -> F ->
  (F * F * F) * (F * F * F).
Variable m : nat.
Variables t_all eps gamma CFL h alpha tau_conf : F.
Variable bound : Z.

Lemma flat_map_nil {A B : Type} (f : A -> list B) (l : list A) :
  flat_map f l = [] <-> forall x, In x l -> f x = [].
Proof.
  induction l as [|a l IH]; simpl.
  - split; [intros _ x []|reflexivity].
  - split.
    + intros H x [<-|Hx]; apply app_eq_nil in H; destruct H as [H1 H2];
        [exact H1|]. apply IH; assumption.
    + intros H. rewrite (H a (or_introl eq_refl)). simpl. apply IH.
      intros x Hx. apply H. right. exact Hx.
Qed.

(** X12.  What a silent update means.  In a pass that reaches its end,
    the update of the cells prints no line exactly when every new cell
    has a pressure and a density that are not below [eps] and a
    pressure, a velocity and a density that are finite. *)
Theorem X12_quiet_update (k : Z) (st st' : state F) :
  wf_state m st ->
  completed minmod2 minmod3 linear_GRP_solver_Edir m t_all eps gamma CFL h
            alpha tau_conf bound k st st' ->
  update_lines m eps gamma h k st st' = []
  <-> forall j, j < m ->
        ((P (row1 (CV st'))).[j] .< eps) = false
        /\ ((RHO (row1 (CV st'))).[j] .< eps) = false
        /\ finite_at (row1 (CV st')) j.
Proof.
  intros Hwf Hc. unfold update_lines. rewrite flat_map_nil.
  assert (Hcell : forall j, j < m ->
            update_checks eps gamma k (tau st' ./ h) (row0 (CV st)) (fl st') j = []
            <-> ((P (row1 (CV st'))).[j] .< eps) = false
                /\ ((RHO (row1 (CV st'))).[j] .< eps) = false
                /\ finite_at (row1 (CV st')) j).
  { intros j Hj.
    destruct (completed_update Hwf Hc Hj) as (E1 & E2 & E3 & E4).
    unfold update_checks, cell_update. cbv zeta in E1, E2, E3, E4 |- *.
    rewrite <- E1, <- E2, <- E4.
    unfold update_below_eps, update_not_finite, finite_at.
    destruct ((P (row1 (CV st'))).[j] .< eps),
             ((RHO (row1 (CV st'))).[j] .< eps),
             (isfinite (P (row1 (CV st'))).[j]),
             (isfinite (U (row1 (CV st'))).[j]),
             (isfinite (RHO (row1 (CV st'))).[j]); simpl;
      split; try discriminate; try tauto;
      intros (A & B & C & D & G); discriminate. }
  split.
  - intros H j Hj. apply Hcell; [exact Hj|]. apply H, in_seq. lia.
  - intros H j Hj. apply in_seq in Hj. apply Hcell; [lia|]. apply H. lia.
Qed.
End CheckStatements.

(** X12 on the first pass over four cells, at cell 0. *)
Lemma X12_quiet_update_witness :
  ((nth 0 (P (row1 (CV Sample.st1))) c_0 .< 0.0009765625%float) = false
   /\ (nth 0 (RHO (row1 (CV Sample.st1))) c_0 .< 0.0009765625%float) = false
   /\ finite_at (row1 (CV Sample.st1)) 0).
Proof.
  refine (proj1 (@X12_quiet_update float binary64 spec_minmod2 spec_minmod3
                   mean_solver 4 0.25%float 0.0009765625%float 1.5%float
                   0.5%float 0.5%float 1.5%float infinity (-5)%Z 1%Z
                   Sample.st0 Sample.st1 _ _) _ 0 _).
  - repeat split; reflexivity.
  - left. vm_compute. reflexivity.
  - vm_compute. reflexivity.
  - lia.
Defined.
